(** * Image_Processor: the plug-in transforms of [plugins.py]

    A shallow embedding of [display], [dered], [mono], [flip], [transpose]
    and [rotate] over an explicit Python object store, and the proofs of
    their documented behaviour.

    The image buffer is a Python list of row lists of pixel objects.  All
    three levels are mutable objects that the functions reach through
    references, so the store maps locations to objects and the functions
    are written in a state-and-exception monad over it.  Floating point
    arithmetic is IEEE-754 binary64, taken from the [SpecFloat] module. *)

From Stdlib Require Import ZArith Ascii String List Lia SpecFloat.
From stdpp Require Import gmap list strings.

(** ** Binary64 arithmetic, as CPython's [float] *)

Module F64.

Local Open Scope Z_scope.

Definition prec : Z := 53.
Definition emax : Z := 1024.

Definition mul : spec_float -> spec_float -> spec_float := SFmul prec emax.
Definition add : spec_float -> spec_float -> spec_float := SFadd prec emax.

(** The literals of the source, each the binary64 number nearest to the
    decimal. *)
Definition c0_3 : spec_float := S754_finite false 5404319552844595 (-54).
Definition c0_6 : spec_float := S754_finite false 5404319552844595 (-53).
Definition c0_1 : spec_float := S754_finite false 7205759403792794 (-56).
Definition c0_4 : spec_float := S754_finite false 7205759403792794 (-54).

(** The binary64 number nearest to an integer (ties to even). *)
Definition of_Z (z : Z) : spec_float := binary_normalize prec emax z 0 false.

(** Conversion of the Python [int] operand of a mixed [int * float]
    product: correctly rounded, and an [OverflowError] (here [None]) when
    the integer is beyond the binary64 range. *)
Definition of_int (z : Z) : option spec_float :=
  match of_Z z with
  | S754_infinity _ | S754_nan => None
  | f => Some f
  end.

(** [int(x)]: truncation toward zero; infinities and NaN raise. *)
Definition magnitude (m : positive) (e : Z) : Z :=
  match e with
  | Z0 => Zpos m
  | Zpos p => Zpos m * 2 ^ Zpos p
  | Zneg p => Zpos m / 2 ^ Zpos p
  end.

Definition to_int (x : spec_float) : option Z :=
  match x with
  | S754_zero _ => Some 0
  | S754_finite s m e => Some (cond_Zopp s (magnitude m e))
  | S754_infinity _ | S754_nan => None
  end.

(** The mathematical floor of a finite number: the sign is applied before
    the division, which rounds down. *)
Definition floor (x : spec_float) : Z :=
  match x with
  | S754_finite s m e =>
      match e with
      | Z0 => cond_Zopp s (Zpos m)
      | Zpos p => cond_Zopp s (Zpos m) * 2 ^ Zpos p
      | Zneg p => cond_Zopp s (Zpos m) / 2 ^ Zpos p
      end
  | _ => 0
  end.

(** Zero, or a positive finite number below [2 ^ K]. *)
Definition bounded_by (K : Z) (x : spec_float) : Prop :=
  match x with
  | S754_zero _ => True
  | S754_finite s m e => s = false /\ Zpos (digits2_pos m) + e <= K
  | _ => False
  end.

End F64.

(** ** Python objects and the store *)

Definition loc := positive.

(** The pixel class is an external collaborator with four mutable integer
    attributes. *)
Record RGB : Type := mkRGB { red : Z; green : Z; blue : Z; alpha : Z }.

(** Objects reachable from an image buffer: list objects (the buffer and
    its rows hold references) and pixel objects. *)
Inductive obj : Type :=
| OList (items : list loc)
| OPixel (p : RGB).

(** Values that can be passed for the flag parameters. *)
Inductive value : Type :=
| VNone
| VBool (b : bool)
| VInt (z : Z)
| VFloat (x : spec_float)
| VStr (s : string)
| VRef (l : loc).

Inductive exn : Type :=
| AssertionError | IndexError | TypeError | AttributeError
| OverflowError | ValueError.

Record state : Type := mkState {
  heap : gmap loc obj;      (* the object store *)
  stdout : list string      (* lines printed so far, oldest first *)
}.

Definition set_heap (s : state) (h : gmap loc obj) : state :=
  mkState h (stdout s).

(** ** The state-and-exception monad *)

Inductive outcome (A : Type) : Type :=
| Ok (a : A) (s : state)
| Raise (e : exn) (s : state).
Arguments Ok {A} a s.
Arguments Raise {A} e s.

Definition M (A : Type) : Type := state -> outcome A.

Definition ret {A} (a : A) : M A := fun s => Ok a s.
Definition raise {A} (e : exn) : M A := fun s => Raise e s.
Definition bind {A B} (c : M A) (k : A -> M B) : M B :=
  fun s => match c s with
           | Ok a s' => k a s'
           | Raise e s' => Raise e s'
           end.

Declare Scope py_scope.
Delimit Scope py_scope with py.
Notation "x <~ c ;; k" := (bind c (fun x => k))
  (at level 100, c at next level, right associativity) : py_scope.
Notation "c ;; k" := (bind c (fun _ => k))
  (at level 100, right associativity) : py_scope.
Local Open Scope py_scope.

(** [if c: body] with no [else]. *)
Definition when (c : bool) (body : M unit) : M unit :=
  if c then body else ret tt.

(** [for x in xs: acc = body x acc], the accumulator standing for the local
    variables the body assigns. *)
Fixpoint for_acc {A B} (xs : list A) (acc : B) (body : A -> B -> M B) : M B :=
  match xs with
  | [] => ret acc
  | x :: xs' => acc' <~ body x acc ;; for_acc xs' acc' body
  end.

Definition for_each {A} (xs : list A) (body : A -> M unit) : M unit :=
  for_acc xs tt (fun x _ => body x).

(** [for i in range(n): body i] *)
Definition for_range (n : nat) (body : nat -> M unit) : M unit :=
  for_each (seq 0 n) body.

(** ** Primitive operations on objects *)

Definition get_list (h : gmap loc obj) (l : loc) : option (list loc) :=
  match h !! l with Some (OList xs) => Some xs | _ => None end.

Definition get_pixel (h : gmap loc obj) (l : loc) : option RGB :=
  match h !! l with Some (OPixel p) => Some p | _ => None end.

(** [len(l)] *)
Definition py_len (l : loc) : M nat := fun s =>
  match get_list (heap s) l with
  | Some xs => Ok (length xs) s
  | None => Raise TypeError s
  end.

(** [l[i]] for an index [i >= 0] *)
Definition list_get (l : loc) (i : nat) : M loc := fun s =>
  match get_list (heap s) l with
  | Some xs => match xs !! i with
               | Some v => Ok v s
               | None => Raise IndexError s
               end
  | None => Raise TypeError s
  end.

(** The elements a [for x in l] loop visits.  No loop body of this module
    writes to the list it iterates over, so the elements are read once. *)
Definition list_items (l : loc) : M (list loc) := fun s =>
  match get_list (heap s) l with
  | Some xs => Ok xs s
  | None => Raise TypeError s
  end.

(** A method of the list object [l] that replaces its items in place. *)
Definition list_update (f : list loc -> list loc) (l : loc) : M unit := fun s =>
  match get_list (heap s) l with
  | Some xs => Ok tt (set_heap s (<[l := OList (f xs)]> (heap s)))
  | None => Raise AttributeError s
  end.

(** [l.reverse()], [l.clear()], [l.append(v)] *)
Definition list_reverse : loc -> M unit := list_update reverse.
Definition list_clear : loc -> M unit := list_update (fun _ => []).
Definition list_append (l v : loc) : M unit := list_update (fun xs => xs ++ [v]) l.

(** [[]]: a new list object at an unused location. *)
Definition new_list : M loc := fun s =>
  let l := fresh (dom (heap s)) in
  Ok l (set_heap s (<[l := OList []]> (heap s))).

(** [p.red], [p.green], [p.blue] *)
Definition get_attr (field : RGB -> Z) (p : loc) : M Z := fun s =>
  match get_pixel (heap s) p with
  | Some c => Ok (field c) s
  | None => Raise AttributeError s
  end.

(** [p.red = v], [p.green = v], [p.blue = v] *)
Definition set_attr (upd : Z -> RGB -> RGB) (p : loc) (v : Z) : M unit := fun s =>
  match get_pixel (heap s) p with
  | Some c => Ok tt (set_heap s (<[p := OPixel (upd v c)]> (heap s)))
  | None => Raise AttributeError s
  end.

Definition with_red (v : Z) (c : RGB) : RGB := mkRGB v (green c) (blue c) (alpha c).
Definition with_green (v : Z) (c : RGB) : RGB := mkRGB (red c) v (blue c) (alpha c).
Definition with_blue (v : Z) (c : RGB) : RGB := mkRGB (red c) (green c) v (alpha c).

(** [print(line)] *)
Definition print (line : string) : M unit := fun s =>
  Ok tt (mkState (heap s) (stdout s ++ [line])).

(** [assert c] *)
Definition py_assert (c : bool) : M unit :=
  if c then ret tt else raise AssertionError.

(** [type(v) == bool] *)
Definition is_bool (v : value) : bool :=
  match v with VBool _ => true | _ => false end.

(** [v == False] and [v == True].  Numbers compare by value with the
    booleans 0 and 1; everything else is unequal to both. *)
Definition eq_bool (v : value) (b : bool) : bool :=
  match v with
  | VBool b' => Bool.eqb b' b
  | VInt z => (z =? (if b then 1 else 0))%Z
  | VFloat x =>
      SFeqb x (if b then S754_finite false 4503599627370496 (-52)
               else S754_zero false)
  | _ => false
  end.

(** [z * c] for an [int] [z] and a [float] [c] *)
Definition int_times_float (z : Z) (c : spec_float) : M spec_float :=
  match F64.of_int z with
  | Some x => ret (F64.mul x c)
  | None => raise OverflowError
  end.

(** [int(x)] for a [float] [x]: an infinity raises [OverflowError], a NaN
    raises [ValueError]. *)
Definition py_int (x : spec_float) : M Z :=
  match F64.to_int x with
  | Some z => ret z
  | None => raise (match x with S754_nan => ValueError | _ => OverflowError end)
  end.

(** ** The plug-in functions *)

Definition spaces (n : Z) : string :=
  fold_right (fun _ acc => String " "%char acc) EmptyString (seq 0 (Z.to_nat n)).

Definition strlen (t : string) : Z := Z.of_nat (String.length t).

Section Display.

(** [repr(pixel)] belongs to the pixel class.  [py_repr] below is [repr]
    applied to a pixel object; [repr] of any other object, which in Python
    is a string as well, is not modelled, and the statements on [display]
    are about buffers whose row items are pixels. *)
Variable repr : RGB -> string.

Definition py_repr (p : loc) : M string := fun s =>
  match get_pixel (heap s) p with
  | Some c => Ok (repr c) s
  | None => Raise TypeError s
  end.

Definition display (image : loc) : M value :=
  height <~ py_len image ;;
  row0 <~ list_get image 0 ;;
  width <~ py_len row0 ;;
  (* Find the maximum string size for padding *)
  rows <~ list_items image ;;
  maxsize <~ for_acc rows 0%Z (fun row maxsize =>
    pixels <~ list_items row ;;
    for_acc pixels maxsize (fun pixel maxsize =>
      text <~ py_repr pixel ;;
      ret (if (strlen text >? maxsize)%Z then strlen text else maxsize))) ;;
  (* Pretty print the pixels *)
  print ""%string ;;
  for_range height (fun pos1 =>
    row <~ list_get image pos1 ;;
    for_range width (fun pos2 =>
      pixel <~ list_get row pos2 ;;
      middle <~ py_repr pixel ;;
      let padding := (maxsize - strlen middle)%Z in
      let prefix :=
        if (pos1 =? 0)%nat && (pos2 =? 0)%nat then "[  [  "%string
        else if (pos2 =? 0)%nat then "   [  "%string
        else "      "%string in
      let suffix :=
        if (Z.of_nat pos1 =? Z.of_nat height - 1)%Z
           && (Z.of_nat pos2 =? Z.of_nat width - 1)%Z
        then spaces padding +:+ " ]  ]"%string
        else if (Z.of_nat pos2 =? Z.of_nat width - 1)%Z
        then spaces padding +:+ " ],"%string
        else ","%string in
      print (prefix +:+ middle +:+ suffix))) ;;
  (* a bare [return] *)
  ret VNone.

End Display.

Definition dered (image : loc) : M value :=
  height <~ py_len image ;;
  row0 <~ list_get image 0 ;;
  width <~ py_len row0 ;;
  for_range height (fun row =>
    for_range width (fun col =>
      r <~ list_get image row ;;
      pixel <~ list_get r col ;;
      set_attr with_red pixel 0%Z)) ;;
  ret (VBool true).

Definition mono (image : loc) (sepia : value) : M value :=
  py_assert (is_bool sepia) ;;
  height <~ py_len image ;;
  row0 <~ list_get image 0 ;;
  width <~ py_len row0 ;;
  for_range height (fun row =>
    for_range width (fun col =>
      r <~ list_get image row ;;
      pixel <~ list_get r col ;;
      pr <~ get_attr red pixel ;;
      x1 <~ int_times_float pr F64.c0_3 ;;
      pg <~ get_attr green pixel ;;
      x2 <~ int_times_float pg F64.c0_6 ;;
      pb <~ get_attr blue pixel ;;
      x3 <~ int_times_float pb F64.c0_1 ;;
      let brightness := F64.add (F64.add x1 x2) x3 in
      when (eq_bool sepia false) (
        v <~ py_int brightness ;; set_attr with_red pixel v ;;
        v <~ py_int brightness ;; set_attr with_green pixel v ;;
        v <~ py_int brightness ;; set_attr with_blue pixel v) ;;
      when (eq_bool sepia true) (
        v <~ py_int brightness ;; set_attr with_red pixel v ;;
        v <~ py_int (F64.mul F64.c0_6 brightness) ;; set_attr with_green pixel v ;;
        v <~ py_int (F64.mul F64.c0_4 brightness) ;; set_attr with_blue pixel v))) ;;
  ret (VBool true).

Definition flip (image : loc) (vertical : value) : M value :=
  py_assert (is_bool vertical) ;;
  height <~ py_len image ;;
  row0 <~ list_get image 0 ;;
  width <~ py_len row0 ;;
  (* Horizontal Flip *)
  when (eq_bool vertical false) (
    for_range height (fun col =>
      r <~ list_get image col ;;
      list_reverse r)) ;;
  (* Vertical Flip *)
  when (eq_bool vertical true) (list_reverse image) ;;
  ret (VBool true).

Definition transpose (image : loc) : M value :=
  numrows <~ py_len image ;;
  row0 <~ list_get image 0 ;;
  numcols <~ py_len row0 ;;
  result <~ new_list ;;
  for_range numcols (fun co =>
    row <~ new_list ;;
    for_range numrows (fun ro =>
      r <~ list_get image ro ;;
      pixel <~ list_get r co ;;
      list_append row pixel) ;;
    list_append result row) ;;
  list_clear image ;;
  rows <~ list_items result ;;
  for_each rows (fun row => list_append image row) ;;
  ret (VBool true).

Definition rotate (image : loc) (right : value) : M value :=
  py_assert (is_bool right) ;;
  (* Rotate image left *)
  when (eq_bool right false) (
    transpose image ;;
    list_reverse image) ;;
  (* Rotate image right *)
  when (eq_bool right true) (
    list_reverse image ;;
    transpose image ;;
    ret tt) ;;
  ret (VBool true).

(** ** Tables: the arrangement of an image *)

Section TableDefs.

Context {A : Type}.
Implicit Types (t : list (list A)) (r : list A).

(** [R] rows, each of [C] items. *)
Definition rect (R C : nat) t : Prop :=
  length t = R ∧ Forall (λ r, length r = C) t.

(** The item at row [i], column [j]. *)
Definition cell t (i j : nat) : option A := t !! i ≫= (.!! j).

Definition column (co : nat) t : list A := omap (.!! co) t.

Definition columns (n : nat) t : list (list A) :=
  (λ co, column co t) <$> seq 0 n.

Definition width t : nat := match t with [] => 0 | r :: _ => length r end.

(** Rows become columns. *)
Definition transposed t : list (list A) := columns (width t) t.

(** The two quarter turns. *)
Definition rotated (right : bool) t : list (list A) :=
  if right then transposed (reverse t) else reverse (transposed t).

End TableDefs.

(** ** Reading an image out of the store *)

Definition table_at (h : gmap loc obj) (img : loc) : option (list (list loc)) :=
  get_list h img ≫= mapM (get_list h).

Definition pixel_at (h : gmap loc obj) (img : loc) (i j : nat) : option RGB :=
  t ← table_at h img; p ← cell t i j; get_pixel h p.

Record image_buffer (h : gmap loc obj) (img : loc) (R C : nat)
    (t : list (list loc)) : Prop := {
  buf_table : table_at h img = Some t;
  buf_rect : rect R C t;
  buf_height : 0 < R;
  buf_width : 0 < C;
  buf_pixels : Forall (λ p, is_Some (get_pixel h p)) (concat t)
}.

Definition on_pixel (f : RGB → RGB) (o : obj) : obj :=
  match o with OPixel c => OPixel (f c) | _ => o end.

Definition on_list (f : list loc → list loc) (o : obj) : obj :=
  match o with OList xs => OList (f xs) | _ => o end.

Definition alter_all (g : obj → obj) (ls : list loc) (h : gmap loc obj)
    : gmap loc obj :=
  foldl (λ h l, alter g l h) h ls.

(** The pixel values an image holds, in row-major order. *)
Definition pixel_values (h : gmap loc obj) (t : list (list loc)) : list RGB :=
  omap (get_pixel h) (concat t).

(** Every object of [h] other than [img] is the same in [h']: only the
    buffer object was written, and what [h'] holds beyond [h] is new. *)
Definition only_writes (img : loc) (h h' : gmap loc obj) : Prop :=
  ∀ l, l ≠ img → is_Some (h !! l) → h' !! l = h !! l.

(** ** The conversion of one pixel, after the function's documentation *)

(** [0.3 * red + 0.6 * green + 0.1 * blue] *)
Definition brightness (c : RGB) : spec_float :=
  F64.add
    (F64.add (F64.mul F64.c0_3 (F64.of_Z (red c)))
             (F64.mul F64.c0_6 (F64.of_Z (green c))))
    (F64.mul F64.c0_1 (F64.of_Z (blue c))).

Definition greyscale (c : RGB) : RGB :=
  mkRGB (F64.floor (brightness c)) (F64.floor (brightness c))
        (F64.floor (brightness c)) (alpha c).

Definition sepia_tone (c : RGB) : RGB :=
  mkRGB (F64.floor (brightness c))
        (F64.floor (F64.mul F64.c0_6 (brightness c)))
        (F64.floor (F64.mul F64.c0_4 (brightness c)))
        (alpha c).

Definition mono_pixel (sepia : bool) (c : RGB) : RGB :=
  if sepia then sepia_tone c else greyscale c.

(** The conventional range of a colour channel. *)
Definition channel_ok (z : Z) : Prop := (0 ≤ z ≤ 255)%Z.

Definition channels_ok (c : RGB) : Prop :=
  channel_ok (red c) ∧ channel_ok (green c) ∧ channel_ok (blue c).

Definition pixels_in_range (h : gmap loc obj) (t : list (list loc)) : Prop :=
  Forall (λ p, ∃ c, get_pixel h p = Some c ∧ channels_ok c) (concat t).

(** The invariant of the outer loop of [transpose]: [res] holds the new
    rows built so far, one per column already visited. *)
Definition transpose_outer_inv (h0 : gmap loc obj) (out : list string)
    (res : loc) (t : list (list loc)) (co : nat) (s : state) : Prop :=
  stdout s = out ∧ h0 ⊆ heap s
  ∧ ∃ newrows, get_list (heap s) res = Some newrows
      ∧ Forall2 (λ r xs, get_list (heap s) r = Some xs) newrows (columns co t)
      ∧ Forall (λ r, r ≠ res ∧ h0 !! r = None) newrows.


(** A relocation: the call succeeds and reports a modification, the buffer
    is again an image, no pixel object was written, and the image holds
    the same pixel objects, hence the same pixel values, as before. *)
Definition relocates (img : loc) (t : list (list loc)) (s : state)
    (call : M value) : Prop :=
  ∃ s' R' C' t',
    call s = Ok (VBool true) s'
    ∧ image_buffer (heap s') img R' C' t'
    ∧ (∀ p, p ∈ concat t → heap s' !! p = heap s !! p)
    ∧ concat t' ≡ₚ concat t
    ∧ pixel_values (heap s') t' ≡ₚ pixel_values (heap s) t.

(** ** A 2×3 image to run the functions on *)

Definition demo_table : list (list loc) :=
  [[10; 11; 12]; [13; 14; 15]]%positive.

Definition demo_heap : gmap loc obj :=
  list_to_map
    [(1, OList [2; 3]); (2, OList [10; 11; 12]); (3, OList [13; 14; 15]);
     (10, OPixel (mkRGB 255 0 0 255)); (11, OPixel (mkRGB 0 255 0 255));
     (12, OPixel (mkRGB 0 0 255 255)); (13, OPixel (mkRGB 0 3 2 128));
     (14, OPixel (mkRGB 12 34 56 0)); (15, OPixel (mkRGB 255 255 255 255))]%positive.

Definition demo_state : state := mkState demo_heap [].

(** Two stores in which an object is listed twice: a buffer whose two rows
    are one list object, and a row whose two pixels are one pixel object. *)
Definition shared_row_state : state :=
  mkState (list_to_map
    [(1, OList [2; 2]); (2, OList [10; 11]);
     (10, OPixel (mkRGB 1 2 3 4)); (11, OPixel (mkRGB 5 6 7 8))]%positive) [].

Definition shared_pixel_state : state :=
  mkState (list_to_map
    [(1, OList [2]); (2, OList [10; 10]);
     (10, OPixel (mkRGB 0 3 2 255))]%positive) [].

(** ** The claims on [mono] and [flip] as they are worded *)

(** Following the claim's words: the floor of the real number
    [0.3*r + 0.6*g + 0.1*b], that is [(3*r + 6*g + b) / 10] rounded
    down. *)
Definition floor_of_exact_brightness (c : RGB) : Z :=
  ((3 * red c + 6 * green c + blue c) / 10)%Z.

(** Following the claim's words: on the image [img] of [R] rows and [C]
    columns, [mono] in greyscale mode returns [True] and sets the three
    channels of every pixel to [level] of the value the pixel had before
    the call, keeping alpha. *)
Definition greyscale_as_claimed (level : RGB → Z) (img : loc) (R C : nat)
    (s : state) : Prop :=
  ∃ s', mono img (VBool false) s = Ok (VBool true) s'
    ∧ ∀ i j, i < R → j < C →
        ∃ c, pixel_at (heap s) img i j = Some c
          ∧ pixel_at (heap s') img i j
            = Some (mkRGB (level c) (level c) (level c) (alpha c)).

(** Following the claim's words: on the image [img] with the arrangement
    [t], [flip] without the [vertical] flag returns [True], reverses every
    row and keeps the order of the rows. *)
Definition horizontal_flip_as_claimed (img : loc) (t : list (list loc))
    (s : state) : Prop :=
  ∃ s', flip img (VBool false) s = Ok (VBool true) s'
    ∧ table_at (heap s') img = Some (reverse <$> t).

(** ** Buffers that are not rectangular images *)

(** Whatever the buffer's rows hold is a pixel: what [display] passes to
    [repr].  The buffer may be ragged or empty, or no list at all. *)
Definition row_items_are_pixels (h : gmap loc obj) (img : loc) : Prop :=
  ∀ rows, get_list h img = Some rows →
    Forall (λ r, ∀ xs, get_list h r = Some xs →
                   Forall (λ p, is_Some (get_pixel h p)) xs) rows.

(** Every row has at least [C] items. *)
Definition wide {A} (C : nat) (t : list (list A)) : Prop :=
  Forall (λ r, C ≤ length r) t.

(** The store while [transpose] is building its copy: everything that
    existed at the call is intact, and the accumulator is a list. *)
Definition building (h0 : gmap loc obj) (out : list string) (res : loc)
    (s : state) : Prop :=
  h0 ⊆ heap s ∧ stdout s = out ∧ is_Some (get_list (heap s) res).

(** ** Relating the store after a call to the store before *)

(** The state a call ends in, whether it returns or raises. *)
Definition final {A} (o : outcome A) : state :=
  match o with Ok _ s => s | Raise _ s => s end.

(** Every run of [c] ends in a state related to the one it started in. *)
Definition keeps {A} (Rel : state → state → Prop) (c : M A) : Prop :=
  ∀ s, Rel s (final (c s)).

(** Nothing is printed, no object appears or disappears, and every object
    is related by [Q] to what it was. *)
Definition store_rel (Q : obj → obj → Prop) (s s' : state) : Prop :=
  stdout s' = stdout s ∧ ∀ l, option_Forall2 Q (heap s !! l) (heap s' !! l).

(** The store is the same and the output has only grown. *)
Definition prints_only (s s' : state) : Prop :=
  heap s' = heap s ∧ stdout s `prefix_of` stdout s'.

(** Lists are untouched; a pixel may differ in red only. *)
Definition red_only (o o' : obj) : Prop :=
  match o, o' with
  | OList xs, OList xs' => xs' = xs
  | OPixel c, OPixel c' =>
      green c' = green c ∧ blue c' = blue c ∧ alpha c' = alpha c
  | _, _ => False
  end.

(** Lists are untouched; a pixel keeps its alpha. *)
Definition alpha_kept (o o' : obj) : Prop :=
  match o, o' with
  | OList xs, OList xs' => xs' = xs
  | OPixel c, OPixel c' => alpha c' = alpha c
  | _, _ => False
  end.

(** Pixels are untouched; a list keeps its items, in some order. *)
Definition order_only (o o' : obj) : Prop :=
  match o, o' with
  | OList xs, OList xs' => xs' ≡ₚ xs
  | OPixel c, OPixel c' => c' = c
  | _, _ => False
  end.

(** ** Buffers to run the functions on: empty, ragged, and with empty rows *)

Definition empty_state : state :=
  mkState (list_to_map [(1, OList [])]%positive) [].

(** The second row is longer than the first. *)
Definition long_row_table : list (list loc) :=
  [[10; 11]; [12; 13; 14]]%positive.

Definition long_row_state : state :=
  mkState (list_to_map
    [(1, OList [2; 3]); (2, OList [10; 11]); (3, OList [12; 13; 14]);
     (10, OPixel (mkRGB 1 1 1 1)); (11, OPixel (mkRGB 2 2 2 2));
     (12, OPixel (mkRGB 3 3 3 3)); (13, OPixel (mkRGB 4 4 4 4));
     (14, OPixel (mkRGB 5 5 5 5))]%positive) [].

(** The second row is shorter than the first. *)
Definition short_row_table : list (list loc) :=
  [[10; 11; 12]; [13; 14]]%positive.

Definition short_row_state : state :=
  mkState (list_to_map
    [(1, OList [2; 3]); (2, OList [10; 11; 12]); (3, OList [13; 14]);
     (10, OPixel (mkRGB 1 1 1 1)); (11, OPixel (mkRGB 2 2 2 2));
     (12, OPixel (mkRGB 3 3 3 3)); (13, OPixel (mkRGB 4 4 4 4));
     (14, OPixel (mkRGB 5 5 5 5))]%positive) [].

(** Two rows, both empty. *)
Definition empty_rows_state : state :=
  mkState (list_to_map
    [(1, OList [2; 3]); (2, OList []); (3, OList [])]%positive) [].

(** ** An upper bound on a binary64 value *)

(** Zero, or a positive finite number that is at most [N * 2 ^ eb] and
    whose last place is no coarser than [2 ^ eb]. *)
Definition value_at_most (N eb : Z) (x : spec_float) : Prop :=
  match x with
  | S754_zero _ => True
  | S754_finite s m e => s = false ∧ (e ≤ eb)%Z ∧ (Zpos m ≤ N * 2 ^ (eb - e))%Z
  | _ => False
  end.

(** Nothing has been cut off a significand so far. *)
Definition clean (mrs : shr_record) : Prop :=
  shr_r mrs = false ∧ shr_s mrs = false.

(** ** Greyscale of a grey pixel *)

(** The greyscale value of the grey pixel [(v, v, v)] is [v] or [v - 1]. *)
Definition grey_drop_ok (v : Z) : bool :=
  let g := F64.floor (brightness (mkRGB v v v 0)) in
  ((v - 1 <=? g) && (g <=? v))%Z.

(** ** What [display] prints *)

(** The widest [repr] seen so far, as the first pair of loops keeps it. *)
Definition widest (repr : RGB → string) (cs : list RGB) (m0 : Z) : Z :=
  foldl (λ m c, if (strlen (repr c) >? m)%Z then strlen (repr c) else m)
        m0 cs.

(** The line for the pixel [c] at row [i], column [j] of an image of
    [R] rows and [C] columns. *)
Definition display_line (repr : RGB → string) (maxsize : Z) (R C i j : nat)
    (c : RGB) : string :=
  let middle := repr c in
  let padding := (maxsize - strlen middle)%Z in
  let prefix :=
    if (i =? 0)%nat && (j =? 0)%nat then "[  [  "%string
    else if (j =? 0)%nat then "   [  "%string
    else "      "%string in
  let suffix :=
    if (Z.of_nat i =? Z.of_nat R - 1)%Z && (Z.of_nat j =? Z.of_nat C - 1)%Z
    then spaces padding +:+ " ]  ]"%string
    else if (Z.of_nat j =? Z.of_nat C - 1)%Z
    then spaces padding +:+ " ],"%string
    else ","%string in
  prefix +:+ middle +:+ suffix.

(** ** Facts about binary64 rounding *)

Module F64_facts.

Import F64.
Local Open Scope Z_scope.

Lemma digits2_pos_bounds m :
  2 ^ (Zpos (digits2_pos m) - 1) ≤ Zpos m < 2 ^ Zpos (digits2_pos m).
Proof.
  induction m as [m IH|m IH|]; cbn [digits2_pos].
  - rewrite Pos2Z.inj_succ.
    replace (Z.succ (Zpos (digits2_pos m)) - 1) with (Z.succ (Zpos (digits2_pos m) - 1)) by lia.
    rewrite !Z.pow_succ_r by lia. lia.
  - rewrite Pos2Z.inj_succ.
    replace (Z.succ (Zpos (digits2_pos m)) - 1) with (Z.succ (Zpos (digits2_pos m) - 1)) by lia.
    rewrite !Z.pow_succ_r by lia. lia.
  - cbn. lia.
Qed.

Lemma Zdigits2_le m k : 0 ≤ m < 2 ^ k → 0 ≤ k → Zdigits2 m ≤ k.
Proof.
  intros [Hm Hk] Hk0. destruct m as [|p|p]; cbn; [lia| |lia].
  pose proof (digits2_pos_bounds p) as [Hlo _].
  destruct (Z_le_gt_dec (Zpos (digits2_pos p)) k) as [|Hgt]; [done|].
  assert (2 ^ k ≤ 2 ^ (Zpos (digits2_pos p) - 1))
    by (apply Z.pow_le_mono_r; lia).
  lia.
Qed.

Lemma Zdigits2_lt m : 0 ≤ m → m < 2 ^ Zdigits2 m.
Proof.
  intros Hm. destruct m as [|p|p]; cbn; [lia| |lia].
  apply digits2_pos_bounds.
Qed.

Lemma Zdigits2_nonneg m : 0 ≤ Zdigits2 m.
Proof. destruct m; cbn; lia. Qed.

Lemma shr_m_shr_1 mrs : 0 ≤ shr_m mrs → shr_m (shr_1 mrs) = shr_m mrs / 2.
Proof.
  destruct mrs as [m r s]. cbn [shr_m]. intros Hm.
  destruct m as [|[p|p|]|p]; cbn [shr_1 shr_m]; try done.
  - rewrite (Pos2Z.inj_xI p). apply Z.div_unique with 1; lia.
  - rewrite (Pos2Z.inj_xO p). apply Z.div_unique with 0; lia.
Qed.

Lemma pow2_xO p : 2 ^ Zpos p~0 = 2 ^ Zpos p * 2 ^ Zpos p.
Proof.
  rewrite (Pos2Z.inj_xO p). replace (2 * Zpos p) with (Zpos p + Zpos p) by lia.
  apply Z.pow_add_r; lia.
Qed.

Lemma pow2_xI p : 2 ^ Zpos p~1 = 2 * (2 ^ Zpos p * 2 ^ Zpos p).
Proof.
  rewrite (Pos2Z.inj_xI p).
  replace (2 * Zpos p + 1) with (Z.succ (Zpos p + Zpos p)) by lia.
  rewrite Z.pow_succ_r, Z.pow_add_r by lia. done.
Qed.

Lemma pow2_pos k : 0 < 2 ^ Zpos k.
Proof. apply Z.pow_pos_nonneg; lia. Qed.

Lemma shr_m_iter p mrs :
  0 ≤ shr_m mrs →
  shr_m (SpecFloat.iter_pos shr_1 p mrs) = shr_m mrs / 2 ^ Zpos p.
Proof.
  revert mrs.
  induction p as [p IH|p IH|]; intros mrs Hm; cbn [SpecFloat.iter_pos].
  - pose proof (pow2_pos p).
    assert (H1 : 0 ≤ shr_m (shr_1 mrs))
      by (rewrite shr_m_shr_1 by done; apply Z.div_pos; lia).
    assert (H2 : 0 ≤ shr_m (SpecFloat.iter_pos shr_1 p (shr_1 mrs)))
      by (rewrite IH by done; apply Z.div_pos; lia).
    rewrite IH, IH, shr_m_shr_1 by done.
    rewrite !Z.div_div by lia. by rewrite pow2_xI, Z.mul_assoc.
  - pose proof (pow2_pos p).
    assert (H2 : 0 ≤ shr_m (SpecFloat.iter_pos shr_1 p mrs))
      by (rewrite IH by done; apply Z.div_pos; lia).
    rewrite IH, IH by done. rewrite Z.div_div by lia. by rewrite pow2_xO.
  - by rewrite shr_m_shr_1.
Qed.

Lemma Zdigits2_pos m : 0 < m → 1 ≤ Zdigits2 m.
Proof. destruct m; cbn; lia. Qed.

Lemma Zdigits2_succ m : 0 ≤ m → Zdigits2 (m + 1) ≤ Zdigits2 m + 1.
Proof.
  intros Hm. pose proof (Zdigits2_lt m Hm). pose proof (Zdigits2_nonneg m).
  apply Zdigits2_le; [|lia]. rewrite Z.pow_add_r by lia. lia.
Qed.

Lemma Zdigits2_mono m n : 0 ≤ m ≤ n → Zdigits2 m ≤ Zdigits2 n.
Proof.
  intros [Hm Hn]. pose proof (Zdigits2_lt n ltac:(lia)).
  apply Zdigits2_le; [lia|apply Zdigits2_nonneg].
Qed.

Lemma Zdigits2_div m k :
  0 ≤ m → 0 < k → Zdigits2 (m / 2 ^ k) ≤ Z.max 0 (Zdigits2 m - k).
Proof.
  intros Hm Hk. pose proof (Zdigits2_lt m Hm) as Hlt.
  pose proof (Zdigits2_nonneg m).
  assert (0 < 2 ^ k) by (apply Z.pow_pos_nonneg; lia).
  destruct (Z_le_gt_dec k (Zdigits2 m)) as [Hle|Hgt].
  - rewrite Z.max_r by lia. apply Zdigits2_le; [|lia].
    split; [apply Z.div_pos; lia|].
    apply Z.div_lt_upper_bound; [lia|].
    rewrite <- Z.pow_add_r by lia.
    by replace (k + (Zdigits2 m - k)) with (Zdigits2 m) by lia.
  - rewrite Z.div_small; [cbn; lia|]. split; [done|].
    assert (2 ^ Zdigits2 m ≤ 2 ^ k) by (apply Z.pow_le_mono_r; lia). lia.
Qed.

Lemma shr_m_of_loc m l : shr_m (shr_record_of_loc m l) = m.
Proof. by destruct l as [|[]]. Qed.

Lemma shr_fexp_cases m e l :
  0 ≤ m →
  ∃ mrs e', shr_fexp prec emax m e l = (mrs, e')
    ∧ 0 ≤ shr_m mrs
    ∧ ((e' = e ∧ shr_m mrs = m)
       ∨ (e < e' ∧ e' = fexp prec emax (Zdigits2 m + e)
          ∧ shr_m mrs = m / 2 ^ (e' - e))).
Proof.
  intros Hm. unfold shr_fexp, shr.
  destruct (fexp prec emax (Zdigits2 m + e) - e) as [|p|p] eqn:Hn.
  - eexists _, _. split; [done|]. rewrite shr_m_of_loc. auto.
  - eexists _, _. split; [done|].
    rewrite shr_m_iter by by rewrite shr_m_of_loc. rewrite shr_m_of_loc.
    split; [apply Z.div_pos; [done|apply pow2_pos]|]. right.
    split; [lia|]. split; [lia|]. f_equal. f_equal. lia.
  - eexists _, _. split; [done|]. rewrite shr_m_of_loc. auto.
Qed.

Lemma round_nearest_even_bounds m l :
  m ≤ round_nearest_even m l ≤ m + 1.
Proof.
  unfold round_nearest_even. destruct l as [|[]]; try lia.
  destruct (Z.even m); lia.
Qed.

(** Rounding a positive significand that is far from the overflow
    threshold gives zero or a positive finite number, at most one binade
    up. *)
Lemma round_aux_bounded mx ex lx K :
  0 < mx → Zdigits2 mx + ex ≤ K → -1074 ≤ K ≤ 971 →
  bounded_by (K + 1) (binary_round_aux prec emax false mx ex lx).
Proof.
  intros Hmx HK HKr. unfold binary_round_aux.
  pose proof (Zdigits2_pos mx Hmx) as Hd.
  destruct (shr_fexp_cases mx ex lx ltac:(lia))
    as (mrs1 & e1 & -> & Hm1 & Hcase1).
  pose proof (round_nearest_even_bounds (shr_m mrs1) (loc_of_shr_record mrs1))
    as Hrnd.
  set (m1 := round_nearest_even (shr_m mrs1) (loc_of_shr_record mrs1)) in *.
  assert (Hm1' : 0 ≤ m1) by lia.
  assert (Hd1 : Zdigits2 m1 + e1 ≤ K + 1 ∧ e1 ≤ K).
  { pose proof (Zdigits2_mono m1 (shr_m mrs1 + 1) ltac:(lia)).
    pose proof (Zdigits2_succ (shr_m mrs1) Hm1).
    destruct Hcase1 as [[-> Hs]|(Hlt & He1 & Hs)].
    - rewrite Hs in *. lia.
    - pose proof (Zdigits2_div mx (e1 - ex) ltac:(lia) ltac:(lia)).
      rewrite <- Hs in *.
      unfold fexp, emin, prec, emax in He1. lia. }
  destruct (shr_fexp_cases m1 e1 loc_Exact Hm1')
    as (mrs2 & e2 & -> & Hm2 & Hcase2).
  destruct (shr_m mrs2) as [|m2|m2] eqn:Hm2e; [done| |lia].
  assert (Hfin : e2 ≤ 971 ∧ Zpos (digits2_pos m2) + e2 ≤ K + 1).
  { destruct Hcase2 as [[-> Hs]|(Hlt & He2 & Hs)].
    - destruct Hd1 as [Hd1 He1]. rewrite <- Hs in Hd1.
      cbn [Zdigits2] in Hd1. lia.
    - pose proof (Zdigits2_div m1 (e2 - e1) ltac:(lia) ltac:(lia)) as Hdiv.
      rewrite <- Hs in Hdiv. cbn [Zdigits2] in Hdiv.
      unfold fexp, emin, prec, emax in He2. lia. }
  destruct Hfin as [He2 Hdig].
  replace (e2 <=? emax - prec) with true
    by (symmetry; apply Z.leb_le; unfold emax, prec; lia).
  done.
Qed.

Lemma digits2_iter_xO m d :
  Zpos (digits2_pos (Pos.iter xO m d)) = Zpos (digits2_pos m) + Zpos d.
Proof.
  induction d as [|d IH] using Pos.peano_ind.
  - cbn. lia.
  - rewrite Pos.iter_succ. cbn [digits2_pos]. lia.
Qed.

Lemma shl_align_digits m e e' :
  Zpos (digits2_pos (fst (shl_align m e e'))) + snd (shl_align m e e')
  = Zpos (digits2_pos m) + e.
Proof.
  unfold shl_align. destruct (e' - e) as [|d|d] eqn:Hd; cbn [fst snd]; try done.
  rewrite digits2_iter_xO. lia.
Qed.

Lemma shl_align_min m e e' :
  e' ≤ e →
  Zpos (digits2_pos (fst (shl_align m e e'))) + e' = Zpos (digits2_pos m) + e.
Proof.
  intros Hle. unfold shl_align.
  destruct (e' - e) as [|d|d] eqn:Hd; cbn [fst snd]; try lia.
  rewrite digits2_iter_xO. lia.
Qed.

Lemma round_bounded m e K :
  Zpos (digits2_pos m) + e ≤ K → -1074 ≤ K ≤ 971 →
  bounded_by (K + 1) (binary_round prec emax false m e).
Proof.
  intros HK HKr. unfold binary_round.
  pose proof (shl_align_digits m e
    (fexp prec emax (Zpos (digits2_pos m) + e))) as Hal.
  destruct (shl_align m e _) as [mz ez]. cbn [fst snd] in Hal.
  apply round_aux_bounded; [done| |done]. cbn [Zdigits2]. lia.
Qed.

Lemma bounded_by_mono K K' x : K ≤ K' → bounded_by K x → bounded_by K' x.
Proof.
  intros HK. destruct x as [| | |s m e]; cbn; try done.
  intros [-> ?]. split; [done|lia].
Qed.

Lemma of_Z_bounded z k :
  0 ≤ z < 2 ^ k → 0 ≤ k ≤ 971 → bounded_by (k + 1) (of_Z z).
Proof.
  intros Hz Hk. unfold of_Z.
  destruct z as [|m|m]; cbn [binary_normalize];
    [done| |destruct Hz as [Hz _]; exfalso; by apply Hz].
  apply round_bounded; [|lia].
  pose proof (Zdigits2_le (Zpos m) k Hz ltac:(lia)) as Hd.
  cbn [Zdigits2] in Hd. lia.
Qed.

Lemma of_int_bounded z k :
  0 ≤ z < 2 ^ k → 0 ≤ k ≤ 971 →
  of_int z = Some (of_Z z) ∧ bounded_by (k + 1) (of_Z z).
Proof.
  intros Hz Hk. pose proof (of_Z_bounded z k Hz Hk) as Hb.
  split; [|done]. unfold of_int. by destruct (of_Z z).
Qed.

Lemma mul_bounded Kx Ky x y :
  bounded_by Kx x → bounded_by Ky y → -1074 ≤ Kx + Ky ≤ 971 →
  bounded_by (Kx + Ky + 1) (mul x y).
Proof.
  intros Hx Hy HK.
  destruct x as [sx| | |sx mx ex], y as [sy| | |sy my ey]; cbn in *; try done.
  destruct Hx as [-> Hx], Hy as [-> Hy]. cbn [xorb].
  apply round_aux_bounded; [done| |done].
  pose proof (digits2_pos_bounds mx) as [_ Hmx].
  pose proof (digits2_pos_bounds my) as [_ Hmy].
  assert (Hd : Zdigits2 (Zpos (mx * my))
               ≤ Zpos (digits2_pos mx) + Zpos (digits2_pos my)).
  { apply Zdigits2_le; [|lia]. rewrite Pos2Z.inj_mul, Z.pow_add_r by lia.
    split; [lia|]. apply Z.mul_lt_mono_nonneg; lia. }
  lia.
Qed.

Lemma add_bounded K x y :
  bounded_by K x → bounded_by K y → -1074 ≤ K ≤ 970 →
  bounded_by (K + 2) (add x y).
Proof.
  intros Hx Hy HK.
  destruct x as [sx| | |sx mx ex], y as [sy| | |sy my ey];
    cbn [bounded_by] in *; try done.
  - unfold add, SFadd. by destruct sx, sy.
  - unfold add, SFadd. cbn [bounded_by]. split; [tauto|lia].
  - unfold add, SFadd. cbn [bounded_by]. split; [tauto|lia].
  - destruct Hx as [-> Hx], Hy as [-> Hy]. unfold add, SFadd.
    cbn [cond_Zopp]. set (ez := Z.min ex ey).
    pose proof (shl_align_min mx ex ez ltac:(lia)) as Hax.
    pose proof (shl_align_min my ey ez ltac:(lia)) as Hay.
    set (ax := fst (shl_align mx ex ez)) in *.
    set (ay := fst (shl_align my ey ez)) in *.
    change (Zpos ax + Zpos ay) with (Zpos (ax + ay)).
    cbn [binary_normalize].
    replace (K + 2) with (K + 1 + 1) by lia.
    apply round_bounded; [|lia].
    pose proof (digits2_pos_bounds ax) as [_ Hbx].
    pose proof (digits2_pos_bounds ay) as [_ Hby].
    assert (Hd : Zdigits2 (Zpos (ax + ay)) ≤ K - ez + 1).
    { apply Zdigits2_le; [|lia]. rewrite Pos2Z.inj_add.
      split; [lia|]. rewrite Z.pow_add_r by lia.
      assert (2 ^ Zpos (digits2_pos ax) ≤ 2 ^ (K - ez))
        by (apply Z.pow_le_mono_r; lia).
      assert (2 ^ Zpos (digits2_pos ay) ≤ 2 ^ (K - ez))
        by (apply Z.pow_le_mono_r; lia).
      lia. }
    cbn [Zdigits2] in Hd. lia.
Qed.

Lemma mul_comm x y : mul x y = mul y x.
Proof.
  unfold mul, SFmul.
  destruct x as [sx|sx| |sx mx ex], y as [sy|sy| |sy my ey];
    try done; try by rewrite xorb_comm.
  by rewrite xorb_comm, Pos.mul_comm, Z.add_comm.
Qed.

(** On zero and on positive numbers, truncation is the floor. *)
Lemma to_int_floor K x : bounded_by K x → to_int x = Some (floor x).
Proof.
  destruct x as [s| | |s m e]; cbn; try done.
  intros [-> _]. by destruct e.
Qed.
End F64_facts.

(** ** Facts about tables *)

Section TableFacts.

Context {A : Type}.
Implicit Types (t : list (list A)) (r : list A).

Lemma rect_width R C t : rect R C t → 0 < R → width t = C.
Proof.
  intros [HR HC] ?. destruct t as [|r t]; simpl in *; [lia|].
  by inversion HC.
Qed.

Lemma rect_row R C t i r : rect R C t → t !! i = Some r → length r = C.
Proof. intros [_ HC] Hi. by eapply (Forall_lookup_1 _ _ _ _ HC Hi). Qed.

Lemma cell_is_Some R C t i j :
  rect R C t → i < R → j < C → is_Some (cell t i j).
Proof.
  intros Hr Hi Hj. unfold cell.
  destruct (lookup_lt_is_Some_2 t i) as [r Hri]; [destruct Hr; lia|].
  rewrite Hri. simpl. apply lookup_lt_is_Some.
  by rewrite (rect_row _ _ _ _ _ Hr Hri).
Qed.

Lemma column_lookup R C t i j :
  rect R C t → j < C → column j t !! i = cell t i j.
Proof.
  intros [_ HC] Hj. unfold cell, column. revert i.
  induction HC as [|r t Hr HC IH]; intros i; [done|].
  destruct (lookup_lt_is_Some_2 r j) as [x Hx]; [lia|].
  simpl. rewrite Hx. destruct i as [|i]; simpl; [done|]. apply IH.
Qed.

Lemma length_column R C t j : rect R C t → j < C → length (column j t) = R.
Proof.
  intros [HR HC] Hj. subst R. unfold column.
  induction HC as [|r t Hr HC IH]; [done|].
  destruct (lookup_lt_is_Some_2 r j) as [x Hx]; [lia|].
  cbn. rewrite Hx. cbn. by rewrite IH.
Qed.

Lemma rect_columns R C t n : rect R C t → n ≤ C → rect n R (columns n t).
Proof.
  intros Hr Hn. split.
  - unfold columns. by rewrite length_fmap, length_seq.
  - apply Forall_forall. intros r Hin. unfold columns in Hin.
    apply list_elem_of_fmap in Hin as (co & -> & Hco).
    apply elem_of_seq in Hco. eapply length_column; [done|lia].
Qed.

Lemma cell_columns R C t n i j :
  rect R C t → n ≤ C → i < n → cell (columns n t) i j = cell t j i.
Proof.
  intros Hr Hn Hi. unfold cell at 1, columns.
  rewrite list_lookup_fmap, lookup_seq_lt by done. simpl.
  eapply column_lookup; [done|lia].
Qed.

Lemma rect_transposed R C t : rect R C t → 0 < R → rect C R (transposed t).
Proof.
  intros Hr HR. unfold transposed. rewrite (rect_width _ _ _ Hr HR).
  by eapply rect_columns.
Qed.

Lemma cell_transposed R C t i j :
  rect R C t → 0 < R → i < C → cell (transposed t) i j = cell t j i.
Proof.
  intros Hr HR Hi. unfold transposed. rewrite (rect_width _ _ _ Hr HR).
  by eapply cell_columns.
Qed.

Lemma table_ext R C t1 t2 :
  rect R C t1 → rect R C t2 →
  (∀ i j, i < R → j < C → cell t1 i j = cell t2 i j) → t1 = t2.
Proof.
  intros H1 H2 Hcell. apply list_eq_same_length with R;
    [by destruct H2|by destruct H1|].
  intros i r1 r2 Hi Hr1 Hr2.
  apply list_eq_same_length with C;
    [exact (rect_row _ _ _ _ _ H2 Hr2)|exact (rect_row _ _ _ _ _ H1 Hr1)|].
  intros j x y Hj Hx Hy.
  specialize (Hcell i j Hi Hj). unfold cell in Hcell.
  rewrite Hr1, Hr2 in Hcell. simpl in Hcell. congruence.
Qed.

Lemma transposed_involutive R C t :
  rect R C t → 0 < R → 0 < C → transposed (transposed t) = t.
Proof.
  intros Hr HR HC.
  pose proof (rect_transposed _ _ _ Hr HR) as Hr'.
  apply table_ext with R C; [by apply (rect_transposed C R)| done |].
  intros i j Hi Hj.
  rewrite (cell_transposed C R) by done.
  by rewrite (cell_transposed R C).
Qed.

Lemma rect_reverse R C t : rect R C t → rect R C (reverse t).
Proof.
  intros [HR HC]. split; [by rewrite length_reverse|].
  rewrite Forall_forall in HC. apply Forall_forall. intros r Hin.
  rewrite elem_of_reverse in Hin. by apply HC.
Qed.

Lemma rect_fmap_reverse R C t : rect R C t → rect R C (reverse <$> t).
Proof.
  intros [HR HC]. split; [by rewrite length_fmap|].
  apply Forall_fmap. eapply Forall_impl; [done|].
  intros r Hr. simpl. by rewrite length_reverse.
Qed.

Lemma cell_reverse R C t i j :
  rect R C t → i < R → cell (reverse t) i j = cell t (R - S i) j.
Proof.
  intros [HR HC] Hi. unfold cell. subst R. by rewrite reverse_lookup.
Qed.

Lemma cell_fmap_reverse R C t i j :
  rect R C t → i < R → j < C → cell (reverse <$> t) i j = cell t i (C - S j).
Proof.
  intros Hr Hi Hj. unfold cell. rewrite list_lookup_fmap.
  destruct (lookup_lt_is_Some_2 t i) as [r Hri]; [destruct Hr; lia|].
  rewrite Hri. simpl. pose proof (rect_row _ _ _ _ _ Hr Hri) as Hlen.
  rewrite reverse_lookup by lia. by rewrite Hlen.
Qed.

Lemma transposed_reverse R C t :
  rect R C t → 0 < R → transposed (reverse t) = reverse <$> transposed t.
Proof.
  intros Hr HR. apply table_ext with C R.
  - apply rect_transposed; [by apply rect_reverse|done].
  - apply rect_fmap_reverse. by apply rect_transposed.
  - intros i j Hi Hj.
    rewrite (cell_transposed R C) by (try apply rect_reverse; done).
    rewrite (cell_reverse R C) by done.
    rewrite (cell_fmap_reverse C R) by (try apply rect_transposed; done).
    by rewrite (cell_transposed R C).
Qed.

Lemma transposed_fmap_reverse R C t :
  rect R C t → 0 < R → transposed (reverse <$> t) = reverse (transposed t).
Proof.
  intros Hr HR. apply table_ext with C R.
  - apply rect_transposed; [by apply rect_fmap_reverse|done].
  - apply rect_reverse. by apply rect_transposed.
  - intros i j Hi Hj.
    rewrite (cell_transposed R C) by (try apply rect_fmap_reverse; done).
    rewrite (cell_fmap_reverse R C) by done.
    rewrite (cell_reverse C R) by (try apply rect_transposed; done).
    rewrite (cell_transposed R C) by (done || lia). done.
Qed.

Lemma concat_app_pointwise {B} (f g : B → list A) (l : list B) :
  concat ((λ x, f x ++ g x) <$> l) ≡ₚ concat (f <$> l) ++ concat (g <$> l).
Proof.
  induction l as [|x l IH]; [done|]. cbn. rewrite IH.
  rewrite <- !(assoc_L (++)). f_equiv.
  rewrite !(assoc_L (++)). f_equiv. apply Permutation_app_comm.
Qed.

Lemma concat_option_list r n :
  concat ((λ co, option_list (r !! co)) <$> seq 0 n) = take n r.
Proof.
  induction n as [|n IH]; [done|].
  rewrite seq_S, fmap_app, concat_app, IH. cbn. rewrite (right_id_L [] (++)).
  destruct (r !! n) as [x|] eqn:Hx.
  - by rewrite (take_S_r _ _ _ Hx).
  - apply lookup_ge_None in Hx. cbn. rewrite (right_id_L [] (++)).
    by rewrite !take_ge by lia.
Qed.

Lemma concat_columns n t : concat (columns n t) ≡ₚ concat (take n <$> t).
Proof.
  induction t as [|r t IH].
  - unfold columns, column. cbn. induction (seq 0 n); cbn; auto.
  - cbn. rewrite <- IH, <- concat_option_list. unfold columns.
    rewrite <- (concat_app_pointwise (λ co, option_list (r !! co))
                  (λ co, column co t)).
    assert (Heq : ∀ co, column co (r :: t)
                        = option_list (r !! co) ++ column co t).
    { intros co. unfold column. cbn. by destruct (r !! co). }
    by rewrite (list_fmap_ext _ _ (seq 0 n) (λ _ co _, Heq co)).
Qed.

Lemma fmap_take_rect R C t : rect R C t → take C <$> t = t.
Proof.
  intros [_ HC]. induction HC as [|r t Hlen HC IH]; [done|].
  cbn. rewrite IH. by rewrite take_ge by lia.
Qed.

Lemma concat_transposed R C t :
  rect R C t → 0 < R → concat (transposed t) ≡ₚ concat t.
Proof.
  intros Hr HR. unfold transposed. rewrite (rect_width _ _ _ Hr HR).
  by rewrite concat_columns, (fmap_take_rect _ _ _ Hr).
Qed.
End TableFacts.

(** ** Running monadic code *)

Lemma bind_Ok {A B} (c : M A) (k : A → M B) s a s1 :
  c s = Ok a s1 → bind c k s = k a s1.
Proof. unfold bind. by intros ->. Qed.

Lemma bind_ret {A B} (a : A) (k : A → M B) s : bind (ret a) k s = k a s.
Proof. done. Qed.

Lemma for_acc_inv {A B} (I : nat → B → state → Prop) (xs : list A)
    (body : A → B → M B) acc s :
  I 0 acc s →
  (∀ i x a1 s1, xs !! i = Some x → I i a1 s1 →
     ∃ a2 s2, body x a1 s1 = Ok a2 s2 ∧ I (S i) a2 s2) →
  ∃ acc' s', for_acc xs acc body s = Ok acc' s' ∧ I (length xs) acc' s'.
Proof.
  revert I acc s. induction xs as [|x xs IH]; intros I acc s H0 Hstep.
  - by exists acc, s.
  - destruct (Hstep 0 x acc s eq_refl H0) as (a2 & s2 & Hb & H1).
    destruct (IH (λ i, I (S i)) a2 s2 H1) as (acc' & s' & Hrun & Hend).
    { intros i y a1 s1 Hy. by apply (Hstep (S i)). }
    exists acc', s'. split; [|done]. cbn. by rewrite (bind_Ok _ _ _ _ _ Hb).
Qed.

Lemma for_each_inv {A} (I : nat → state → Prop) (xs : list A)
    (body : A → M unit) s :
  I 0 s →
  (∀ i x s1, xs !! i = Some x → I i s1 → ∃ s2, body x s1 = Ok tt s2 ∧ I (S i) s2) →
  ∃ s', for_each xs body s = Ok tt s' ∧ I (length xs) s'.
Proof.
  intros H0 Hstep.
  destruct (for_acc_inv (λ i _, I i) xs (λ x _, body x) tt s H0)
    as ([] & s' & Hrun & Hend); [|by exists s'].
  intros i x [] s1 Hx Hi. destruct (Hstep i x s1 Hx Hi) as (s2 & ? & ?).
  by exists tt, s2.
Qed.

Lemma for_range_inv (I : nat → state → Prop) (n : nat) (body : nat → M unit) s :
  I 0 s →
  (∀ i s1, i < n → I i s1 → ∃ s2, body i s1 = Ok tt s2 ∧ I (S i) s2) →
  ∃ s', for_range n body s = Ok tt s' ∧ I n s'.
Proof.
  intros H0 Hstep. unfold for_range.
  destruct (for_each_inv I (seq 0 n) body s H0) as (s' & Hrun & Hend).
  - intros i x s1 Hx. apply lookup_seq in Hx as [-> Hi]. by apply Hstep.
  - rewrite length_seq in Hend. by exists s'.
Qed.

(** ** The primitives on a well-typed store *)

Lemma py_len_Ok l xs s :
  get_list (heap s) l = Some xs → py_len l s = Ok (length xs) s.
Proof. unfold py_len. by intros ->. Qed.

Lemma list_get_Ok l i xs v s :
  get_list (heap s) l = Some xs → xs !! i = Some v → list_get l i s = Ok v s.
Proof. unfold list_get. by intros -> ->. Qed.

Lemma list_items_Ok l xs s :
  get_list (heap s) l = Some xs → list_items l s = Ok xs s.
Proof. unfold list_items. by intros ->. Qed.

Lemma list_update_Ok f l xs s :
  get_list (heap s) l = Some xs →
  list_update f l s = Ok tt (set_heap s (<[l := OList (f xs)]> (heap s))).
Proof. unfold list_update. by intros ->. Qed.

Lemma get_attr_Ok field p c s :
  get_pixel (heap s) p = Some c → get_attr field p s = Ok (field c) s.
Proof. unfold get_attr. by intros ->. Qed.

Lemma set_attr_Ok upd p v c s :
  get_pixel (heap s) p = Some c →
  set_attr upd p v s = Ok tt (set_heap s (<[p := OPixel (upd v c)]> (heap s))).
Proof. unfold set_attr. by intros ->. Qed.

Lemma get_list_Some h l xs : get_list h l = Some xs ↔ h !! l = Some (OList xs).
Proof.
  unfold get_list. destruct (h !! l) as [[]|]; naive_solver.
Qed.

Lemma get_pixel_Some h l c : get_pixel h l = Some c ↔ h !! l = Some (OPixel c).
Proof.
  unfold get_pixel. destruct (h !! l) as [[]|]; naive_solver.
Qed.

Lemma get_list_insert h l xs : get_list (<[l := OList xs]> h) l = Some xs.
Proof. apply get_list_Some, lookup_insert_eq. Qed.

Lemma get_list_insert_ne h l l' o :
  l ≠ l' → get_list (<[l := o]> h) l' = get_list h l'.
Proof. intros. unfold get_list. by rewrite lookup_insert_ne. Qed.

Lemma get_pixel_insert_ne h l l' o :
  l ≠ l' → get_pixel (<[l := o]> h) l' = get_pixel h l'.
Proof. intros. unfold get_pixel. by rewrite lookup_insert_ne. Qed.

Lemma get_list_insert_pixel h l l' c :
  is_Some (get_pixel h l) → get_list (<[l := OPixel c]> h) l' = get_list h l'.
Proof.
  intros [c' Hc]. apply get_pixel_Some in Hc. unfold get_list.
  destruct (decide (l = l')) as [<-|]; [|by rewrite lookup_insert_ne].
  by rewrite lookup_insert_eq, Hc.
Qed.

Lemma table_at_Some h img t :
  table_at h img = Some t ↔
  ∃ rows, get_list h img = Some rows
          ∧ Forall2 (λ r xs, get_list h r = Some xs) rows t.
Proof.
  unfold table_at. split.
  - destruct (get_list h img) as [rows|]; [|done]. cbn.
    intros Hm. exists rows. split; [done|]. by apply mapM_Some.
  - intros (rows & -> & Hm). cbn. by apply mapM_Some.
Qed.

Lemma elem_of_concat {A} (x : A) (ls : list (list A)) :
  x ∈ concat ls ↔ ∃ l, l ∈ ls ∧ x ∈ l.
Proof.
  rewrite list_elem_of_In, in_concat. setoid_rewrite list_elem_of_In. done.
Qed.

(** The buffer is not one of its own rows: its items are lists, theirs are
    pixels. *)
Lemma image_not_row h img R C t rows :
  image_buffer h img R C t → get_list h img = Some rows → img ∉ rows.
Proof.
  intros [Ht Hrect HR HC Hpx] Hrows Hin.
  apply table_at_Some in Ht as (rows' & Hrows' & Hall).
  assert (rows' = rows) as -> by congruence.
  apply list_elem_of_lookup in Hin as [i Hi].
  destruct (Forall2_lookup_l _ _ _ _ _ Hall Hi) as (xs & Hxs & Hget).
  assert (xs = rows) as -> by congruence.
  assert (Hin : img ∈ concat t).
  { apply elem_of_concat. exists rows. split; by eapply list_elem_of_lookup_2. }
  rewrite Forall_forall in Hpx. destruct (Hpx _ Hin) as [c Hc].
  apply get_pixel_Some in Hc. apply get_list_Some in Hrows. congruence.
Qed.

(** ** Updating a set of objects in place *)

Lemma alter_all_cons g l ls h :
  alter_all g (l :: ls) h = alter_all g ls (alter g l h).
Proof. done. Qed.

Lemma alter_all_snoc g l ls h :
  alter_all g (ls ++ [l]) h = alter g l (alter_all g ls h).
Proof. unfold alter_all. by rewrite foldl_app. Qed.

Lemma alter_all_app g ls1 ls2 h :
  alter_all g (ls1 ++ ls2) h = alter_all g ls2 (alter_all g ls1 h).
Proof. unfold alter_all. by rewrite foldl_app. Qed.

Lemma lookup_alter_all_notin g ls h l :
  l ∉ ls → alter_all g ls h !! l = h !! l.
Proof.
  revert h. induction ls as [|l' ls IH]; intros h Hl; [done|].
  apply not_elem_of_cons in Hl as [Hne Hl].
  rewrite alter_all_cons, IH by done. by rewrite lookup_alter_ne.
Qed.

Lemma lookup_alter_all_NoDup g ls h l :
  NoDup ls → l ∈ ls → alter_all g ls h !! l = g <$> h !! l.
Proof.
  revert h. induction ls as [|l' ls IH]; intros h Hnd Hl.
  - by apply elem_of_nil in Hl.
  - apply NoDup_cons in Hnd as [Hnotin Hnd]. rewrite alter_all_cons.
    apply elem_of_cons in Hl as [->|Hl].
    + by rewrite lookup_alter_all_notin, lookup_alter_eq.
    + rewrite IH by done. rewrite lookup_alter_ne; [done|].
      intros ->. done.
Qed.

Lemma lookup_alter_all_idemp g ls h l :
  (∀ o, g (g o) = g o) → l ∈ ls → alter_all g ls h !! l = g <$> h !! l.
Proof.
  intros Hg. revert h. induction ls as [|l' ls IH]; intros h Hl.
  - by apply elem_of_nil in Hl.
  - rewrite alter_all_cons.
    destruct (decide (l ∈ ls)) as [Hin|Hnotin].
    + rewrite IH by done. destruct (decide (l' = l)) as [->|Hne].
      * rewrite lookup_alter_eq. destruct (h !! l); cbn; [|done]. by rewrite Hg.
      * by rewrite lookup_alter_ne.
    + apply elem_of_cons in Hl as [->|Hl]; [|done].
      by rewrite lookup_alter_all_notin, lookup_alter_eq.
Qed.

Lemma get_list_alter_pixel f h l l' :
  get_list (alter (on_pixel f) l h) l' = get_list h l'.
Proof.
  unfold get_list. destruct (decide (l = l')) as [<-|].
  - rewrite lookup_alter_eq. by destruct (h !! l) as [[]|].
  - by rewrite lookup_alter_ne.
Qed.

Lemma get_list_alter_all_pixel f ls h l :
  get_list (alter_all (on_pixel f) ls h) l = get_list h l.
Proof.
  revert h. induction ls as [|l' ls IH]; intros h; [done|].
  by rewrite alter_all_cons, IH, get_list_alter_pixel.
Qed.

Lemma get_pixel_alter_pixel_is_Some f h l l' :
  is_Some (get_pixel (alter (on_pixel f) l h) l') ↔ is_Some (get_pixel h l').
Proof.
  unfold get_pixel. destruct (decide (l = l')) as [<-|].
  - rewrite lookup_alter_eq. destruct (h !! l) as [[]|]; cbn; by rewrite ?is_Some_alt.
  - by rewrite lookup_alter_ne.
Qed.

Lemma get_pixel_alter_all_is_Some f ls h l :
  is_Some (get_pixel (alter_all (on_pixel f) ls h) l) ↔ is_Some (get_pixel h l).
Proof.
  revert h. induction ls as [|l' ls IH]; intros h; [done|].
  by rewrite alter_all_cons, IH, get_pixel_alter_pixel_is_Some.
Qed.

Lemma insert_pixel_alter f h p c :
  get_pixel h p = Some c → <[p := OPixel (f c)]> h = alter (on_pixel f) p h.
Proof.
  intros Hc%get_pixel_Some. apply map_eq. intros l.
  destruct (decide (p = l)) as [<-|].
  - by rewrite lookup_insert_eq, lookup_alter_eq, Hc.
  - by rewrite lookup_insert_ne, lookup_alter_ne.
Qed.

Lemma table_at_alter_all_pixel f ls h img :
  table_at (alter_all (on_pixel f) ls h) img = table_at h img.
Proof.
  unfold table_at. rewrite get_list_alter_all_pixel.
  destruct (get_list h img) as [rows|]; [|done]. cbn.
  induction rows as [|r rows IH]; [done|]. cbn.
  by rewrite get_list_alter_all_pixel, IH.
Qed.

(** ** The row-major loop over all pixels, shared by [dered] and [mono] *)

Lemma concat_take_S {A} (t : list (list A)) i r :
  t !! i = Some r → concat (take (S i) t) = concat (take i t) ++ r.
Proof.
  intros Hr. rewrite (take_S_r _ _ _ Hr), concat_app. cbn.
  by rewrite (right_id_L [] (++)).
Qed.

Lemma concat_split_at {A} (t : list (list A)) i j r p :
  t !! i = Some r → r !! j = Some p →
  concat t = (concat (take i t) ++ take j r) ++ p :: (drop (S j) r ++ concat (drop (S i) t)).
Proof.
  intros Hr Hp.
  rewrite <- (take_drop_middle _ _ _ Hr) at 1.
  rewrite concat_app. cbn.
  rewrite <- (take_drop_middle _ _ _ Hp) at 1.
  by rewrite <- !(assoc_L (++)).
Qed.

Lemma pixel_loop (f : RGB → RGB) (body : loc → M unit) h0 img R C t :
  image_buffer h0 img R C t →
  (∀ pre p post s, concat t = pre ++ p :: post →
     heap s = alter_all (on_pixel f) pre h0 →
     body p s = Ok tt (set_heap s (alter (on_pixel f) p (heap s)))) →
  ∀ s, heap s = h0 →
  for_range R (λ row, for_range C (λ col,
    r <~ list_get img row ;; pixel <~ list_get r col ;; body pixel)) s
  = Ok tt (set_heap s (alter_all (on_pixel f) (concat t) h0)).
Proof.
  intros [Ht [HR HC] HR0 HC0 Hpx] Hbody s Hs.
  apply table_at_Some in Ht as (rows & Hrows & Hall).
  destruct (for_range_inv
    (λ i s1, s1 = set_heap s (alter_all (on_pixel f) (concat (take i t)) h0))
    R (λ row, for_range C (λ col,
       r <~ list_get img row ;; pixel <~ list_get r col ;; body pixel)) s)
    as (s' & Hrun & Hend).
  - destruct s. cbn in *. by subst.
  - intros i s1 Hi ->.
    destruct (lookup_lt_is_Some_2 t i) as [xs Hxs]; [lia|].
    destruct (Forall2_lookup_r _ _ _ _ _ Hall Hxs) as (r & Hr & Hget).
    assert (Hlen : length xs = C)
      by exact (Forall_lookup_1 _ _ _ _ HC Hxs).
    destruct (for_range_inv
      (λ j s2, s2 = set_heap s
         (alter_all (on_pixel f) (concat (take i t) ++ take j xs) h0))
      C (λ col, r <~ list_get img i ;; pixel <~ list_get r col ;; body pixel)
      (set_heap s (alter_all (on_pixel f) (concat (take i t)) h0)))
      as (s2 & Hrun2 & Hend2).
    + by rewrite take_0, (right_id_L [] (++)).
    + intros j s2 Hj ->.
      destruct (lookup_lt_is_Some_2 xs j) as [p Hp]; [lia|].
      eexists. split.
      * erewrite bind_Ok; [|eapply list_get_Ok; [|done]];
          [|cbn; by rewrite get_list_alter_all_pixel].
        erewrite bind_Ok; [|eapply list_get_Ok; [|done]];
          [|cbn; by rewrite get_list_alter_all_pixel].
        eapply Hbody; [by apply concat_split_at|done].
      * cbn. by rewrite (take_S_r _ _ _ Hp), (assoc_L (++)), alter_all_snoc.
    + exists s2. split; [exact Hrun2|].
      rewrite Hend2, (take_ge xs) by lia. by rewrite (concat_take_S _ _ _ Hxs).
  - rewrite Hrun, Hend. by rewrite take_ge by lia.
Qed.

Lemma pixel_at_cell h img t i j p :
  table_at h img = Some t → cell t i j = Some p →
  pixel_at h img i j = get_pixel h p.
Proof. intros Ht Hp. unfold pixel_at. rewrite Ht. cbn. by rewrite Hp. Qed.

Lemma cell_elem_of_concat {A} (t : list (list A)) i j (p : A) :
  cell t i j = Some p → p ∈ concat t.
Proof.
  unfold cell. destruct (t !! i) as [r|] eqn:Hr; [|done]. cbn. intros Hp.
  apply elem_of_concat. exists r. split; by eapply list_elem_of_lookup_2.
Qed.

Lemma on_pixel_idemp f : (∀ c, f (f c) = f c) → ∀ o, on_pixel f (on_pixel f o) = on_pixel f o.
Proof. intros Hf [xs|c]; cbn; [done|]. by rewrite Hf. Qed.

Lemma get_pixel_fmap (h h' : gmap loc obj) l f :
  h' !! l = on_pixel f <$> h !! l → get_pixel h' l = f <$> get_pixel h l.
Proof. unfold get_pixel. intros ->. by destruct (h !! l) as [[]|]. Qed.

(** What a store looks like after every pixel of the image went through
    [f] in place. *)
Lemma pixel_map_post f h img R C t :
  image_buffer h img R C t →
  NoDup (concat t) ∨ (∀ c, f (f c) = f c) →
  let h' := alter_all (on_pixel f) (concat t) h in
  image_buffer h' img R C t
  ∧ (∀ i j, i < R → j < C →
       ∃ c, pixel_at h img i j = Some c ∧ pixel_at h' img i j = Some (f c))
  ∧ (∀ l, l ∉ concat t → h' !! l = h !! l).
Proof.
  intros Hbuf Hf h'. pose proof Hbuf as [Ht Hrect HR HC Hpx].
  assert (Ht' : table_at h' img = Some t)
    by (unfold h'; by rewrite table_at_alter_all_pixel).
  split; [|split].
  - split; try done. eapply Forall_impl; [exact Hpx|].
    intros p Hp. by apply get_pixel_alter_all_is_Some.
  - intros i j Hi Hj.
    destruct (cell_is_Some _ _ _ _ _ Hrect Hi Hj) as [p Hp].
    pose proof (cell_elem_of_concat _ _ _ _ Hp) as Hin.
    rewrite Forall_forall in Hpx. destruct (Hpx p Hin) as [c Hc].
    exists c. rewrite (pixel_at_cell _ _ _ _ _ _ Ht Hp).
    rewrite (pixel_at_cell _ _ _ _ _ _ Ht' Hp). split; [done|].
    rewrite (get_pixel_fmap h h' p f), Hc; [done|].
    unfold h'. destruct Hf as [Hnd|Hid].
    + by apply lookup_alter_all_NoDup.
    + apply lookup_alter_all_idemp; [|done]. by apply on_pixel_idemp.
  - intros l Hl. by apply lookup_alter_all_notin.
Qed.

Lemma image_buffer_first_row h img R C t :
  image_buffer h img R C t →
  ∃ rows r0 xs0, get_list h img = Some rows ∧ length rows = R
    ∧ rows !! 0 = Some r0 ∧ get_list h r0 = Some xs0 ∧ length xs0 = C.
Proof.
  intros [Ht [HR HC] HR0 HC0 Hpx].
  apply table_at_Some in Ht as (rows & Hrows & Hall).
  pose proof (Forall2_length _ _ _ Hall) as Hlen.
  destruct (lookup_lt_is_Some_2 t 0) as [xs0 Hxs0]; [lia|].
  destruct (Forall2_lookup_r _ _ _ _ _ Hall Hxs0) as (r0 & Hr0 & Hget).
  exists rows, r0, xs0. repeat split; try done; [lia|].
  exact (Forall_lookup_1 _ _ _ _ HC Hxs0).
Qed.

(** [dered], run on an image buffer. *)
Lemma dered_run img R C t s :
  image_buffer (heap s) img R C t →
  dered img s
  = Ok (VBool true)
       (set_heap s (alter_all (on_pixel (with_red 0)) (concat t) (heap s))).
Proof.
  intros Hbuf.
  destruct (image_buffer_first_row _ _ _ _ _ Hbuf)
    as (rows & r0 & xs0 & Hrows & HlenR & Hr0 & Hxs0 & HlenC).
  unfold dered.
  rewrite (bind_Ok _ _ _ _ _ (py_len_Ok _ _ _ Hrows)), HlenR.
  rewrite (bind_Ok _ _ _ _ _ (list_get_Ok _ _ _ _ _ Hrows Hr0)).
  rewrite (bind_Ok _ _ _ _ _ (py_len_Ok _ _ _ Hxs0)), HlenC.
  erewrite bind_Ok; [done|].
  apply (pixel_loop (with_red 0) (λ pixel, set_attr with_red pixel 0%Z)
           (heap s) img R C t Hbuf); [|done].
  intros pre p post s1 Hsplit Hs1.
  assert (Hin : p ∈ concat t) by (rewrite Hsplit; set_solver).
  destruct Hbuf as [_ _ _ _ Hpx]. rewrite Forall_forall in Hpx.
  destruct (proj2 (get_pixel_alter_all_is_Some (with_red 0) pre _ _) (Hpx p Hin))
    as [c Hc].
  rewrite <- Hs1 in Hc. rewrite (set_attr_Ok _ _ _ _ _ Hc).
  by rewrite (insert_pixel_alter (with_red 0%Z) _ _ _ Hc).
Qed.


(** ** [transpose] *)

Lemma new_list_fresh s : heap s !! fresh (dom (heap s)) = None.
Proof. apply not_elem_of_dom, is_fresh. Qed.

Lemma columns_S {A} (t : list (list A)) n :
  columns (S n) t = columns n t ++ [column n t].
Proof. unfold columns. by rewrite seq_S, fmap_app. Qed.

Lemma get_list_weaken (h h' : gmap loc obj) l xs :
  h ⊆ h' → get_list h l = Some xs → get_list h' l = Some xs.
Proof.
  intros Hsub Hl%get_list_Some. apply get_list_Some.
  by eapply lookup_weaken.
Qed.

Lemma heap_set_heap s h : heap (set_heap s h) = h.
Proof. done. Qed.

(** The inner loop of [transpose] fills the new list [row] with column
    [co]; nothing else changes. *)
Lemma transpose_inner h img R C t co row s :
  table_at h img = Some t → rect R C t → co < C →
  h ⊆ heap s → heap s !! row = None →
  for_range R (λ ro,
    r <~ list_get img ro ;; pixel <~ list_get r co ;; list_append row pixel)
    (set_heap s (<[row := OList []]> (heap s)))
  = Ok tt (set_heap s (<[row := OList (column co t)]> (heap s))).
Proof.
  intros Ht Hrect Hco Hsub Hrow.
  apply table_at_Some in Ht as (rows & Hrows & Hall).
  pose proof (Forall2_length _ _ _ Hall) as Hlen.
  pose proof (length_column _ _ _ _ Hrect Hco) as Hcol.
  assert (Hne : ∀ l xs, get_list h l = Some xs → row ≠ l).
  { intros l xs Hl%(get_list_weaken _ _ _ _ Hsub)%get_list_Some ->. congruence. }
  destruct (for_range_inv
    (λ ro s1, s1 = set_heap s (<[row := OList (take ro (column co t))]> (heap s)))
    R (λ ro, r <~ list_get img ro ;; pixel <~ list_get r co ;;
             list_append row pixel)
    (set_heap s (<[row := OList []]> (heap s)))) as (s' & Hrun & Hend).
  - by rewrite take_0.
  - intros ro s1 Hro ->.
    destruct (lookup_lt_is_Some_2 t ro) as [xs Hxs]; [destruct Hrect; lia|].
    destruct (Forall2_lookup_r _ _ _ _ _ Hall Hxs) as (r & Hr & Hget).
    cbn beta in Hget.
    destruct (lookup_lt_is_Some_2 xs co) as [p Hp];
      [by rewrite (rect_row _ _ _ _ _ Hrect Hxs)|].
    assert (Hcell : column co t !! ro = Some p).
    { rewrite (column_lookup _ _ _ _ _ Hrect Hco). unfold cell.
      by rewrite Hxs. }
    eexists. split.
    + erewrite bind_Ok; [|eapply list_get_Ok; [|exact Hr]];
        [|rewrite heap_set_heap, get_list_insert_ne by eauto;
          by eapply get_list_weaken].
      erewrite bind_Ok; [|eapply list_get_Ok; [|exact Hp]];
        [|rewrite heap_set_heap, get_list_insert_ne by (eapply Hne; exact Hget);
          by eapply get_list_weaken].
      unfold list_append. erewrite list_update_Ok; [done|].
      rewrite heap_set_heap. apply get_list_insert.
    + unfold set_heap. cbn. f_equal.
      by rewrite insert_insert_eq, (take_S_r _ _ _ Hcell).
  - rewrite Hrun, Hend. by rewrite take_ge by lia.
Qed.

Lemma transpose_outer_step h0 out res img R C t co s :
  table_at h0 img = Some t → rect R C t → co < C → h0 !! res = None →
  transpose_outer_inv h0 out res t co s →
  ∃ s', (row <~ new_list ;;
         for_range R (λ ro,
           r <~ list_get img ro ;; pixel <~ list_get r co ;;
           list_append row pixel) ;;
         list_append res row) s = Ok tt s'
        ∧ transpose_outer_inv h0 out res t (S co) s'.
Proof.
  intros Ht Hrect Hco Hres (Hout & Hsub & newrows & Hnew & Hall & Hfresh).
  set (row := fresh (dom (heap s))).
  pose proof (new_list_fresh s) as Hrow. fold row in Hrow.
  assert (Hrowres : row ≠ res).
  { intros ->. apply get_list_Some in Hnew. congruence. }
  assert (Hrow0 : h0 !! row = None).
  { destruct (h0 !! row) as [o|] eqn:Ho; [|done].
    pose proof (lookup_weaken _ _ _ _ Ho Hsub). congruence. }
  eexists. split.
  - unfold bind at 1. cbn. fold row.
    erewrite bind_Ok; [|by eapply transpose_inner].
    unfold list_append. erewrite list_update_Ok; [done|].
    by rewrite heap_set_heap, get_list_insert_ne.
  - unfold transpose_outer_inv. cbn [heap set_heap stdout].
    split; [done|]. split.
    { apply insert_subseteq_r; [done|]. by apply insert_subseteq_r. }
    exists (newrows ++ [row]). split; [apply get_list_insert|]. split.
    + rewrite columns_S. apply Forall2_app.
      * rewrite Forall_forall in Hfresh.
        apply Forall2_same_length_lookup. split; [by eapply Forall2_length|].
        intros i r xs Hr Hxs.
        pose proof (Forall2_lookup_lr _ _ _ _ _ _ Hall Hr Hxs) as Hget.
        destruct (Hfresh r (list_elem_of_lookup_2 _ _ _ Hr)) as [Hne _].
        cbn beta in *.
        rewrite !get_list_insert_ne; [done| |done].
        intros ->. apply get_list_Some in Hget. congruence.
      * constructor; [|constructor].
        rewrite get_list_insert_ne by done. apply get_list_insert.
    + apply Forall_app. split; [done|]. constructor; [|constructor]. done.
Qed.

Lemma append_loop img rows s :
  get_list (heap s) img = Some [] →
  for_each rows (λ row, list_append img row) s
  = Ok tt (set_heap s (<[img := OList rows]> (heap s))).
Proof.
  intros Himg.
  destruct (for_each_inv
    (λ k s1, s1 = set_heap s (<[img := OList (take k rows)]> (heap s)))
    rows (λ row, list_append img row) s) as (s' & Hrun & Hend).
  - rewrite take_0. apply get_list_Some in Himg.
    destruct s as [h out]. unfold set_heap. cbn in *. f_equal.
    by rewrite insert_id.
  - intros k row s1 Hrow ->. eexists. split.
    + unfold list_append. erewrite list_update_Ok; [done|].
      rewrite heap_set_heap. apply get_list_insert.
    + unfold set_heap. cbn. f_equal.
      by rewrite insert_insert_eq, (take_S_r _ _ _ Hrow).
  - rewrite Hrun, Hend. by rewrite take_ge.
Qed.

(** [transpose], run on an image buffer: the buffer object [img] ends up
    holding new row objects, one per former column, and no object that
    existed before, other than [img], is written. *)
Lemma transpose_run img R C t s :
  image_buffer (heap s) img R C t →
  ∃ s', transpose img s = Ok (VBool true) s'
    ∧ table_at (heap s') img = Some (transposed t)
    ∧ only_writes img (heap s) (heap s')
    ∧ stdout s' = stdout s.
Proof.
  intros Hbuf.
  destruct (image_buffer_first_row _ _ _ _ _ Hbuf)
    as (rows & r0 & xs0 & Hrows & HlenR & Hr0 & Hxs0 & HlenC).
  destruct Hbuf as [Ht Hrect HR0 HC0 Hpx].
  set (res := fresh (dom (heap s))).
  pose proof (new_list_fresh s) as Hres. fold res in Hres.
  destruct (for_range_inv
    (transpose_outer_inv (heap s) (stdout s) res t) C
    (λ co, row <~ new_list ;;
       for_range R (λ ro,
         r <~ list_get img ro ;; pixel <~ list_get r co ;;
         list_append row pixel) ;;
       list_append res row)
    (set_heap s (<[res := OList []]> (heap s))))
    as (s1 & Hrun & Hout & Hsub & newrows & Hnew & Hall & Hfresh).
  - split; [done|]. split; [by apply insert_subseteq|].
    exists []. rewrite heap_set_heap. split; [apply get_list_insert|].
    split; constructor.
  - intros co s1 Hco Hinv. by eapply transpose_outer_step.
  - assert (Himg1 : get_list (heap s1) img = Some rows)
      by by eapply get_list_weaken.
    assert (Hresimg : img ≠ res).
    { intros ->. apply get_list_Some in Hrows. congruence. }
    eexists. split; [|split; [|split]].
    + unfold transpose.
      rewrite (bind_Ok _ _ _ _ _ (py_len_Ok _ _ _ Hrows)), HlenR.
      rewrite (bind_Ok _ _ _ _ _ (list_get_Ok _ _ _ _ _ Hrows Hr0)).
      rewrite (bind_Ok _ _ _ _ _ (py_len_Ok _ _ _ Hxs0)), HlenC.
      unfold bind at 1. cbn [new_list]. fold res.
      rewrite (bind_Ok _ _ _ _ _ Hrun).
      unfold list_clear. erewrite bind_Ok; [|by eapply list_update_Ok].
      erewrite bind_Ok; [|eapply list_items_Ok;
        by rewrite heap_set_heap, get_list_insert_ne].
      erewrite bind_Ok; [done|].
      apply append_loop. rewrite heap_set_heap. apply get_list_insert.
    + cbn [heap set_heap]. rewrite insert_insert_eq.
      apply table_at_Some. exists newrows. split; [apply get_list_insert|].
      unfold transposed. rewrite (rect_width _ _ _ Hrect HR0).
      rewrite Forall_forall in Hfresh.
      apply Forall2_same_length_lookup. split; [by eapply Forall2_length|].
      intros i r xs Hr Hxs.
      pose proof (Forall2_lookup_lr _ _ _ _ _ _ Hall Hr Hxs) as Hget.
      destruct (Hfresh r (list_elem_of_lookup_2 _ _ _ Hr)) as [_ Hnone].
      cbn beta in *. rewrite get_list_insert_ne; [done|].
      intros ->. apply get_list_Some in Hrows. congruence.
    + intros l Hl [o Ho]. cbn [heap set_heap].
      rewrite insert_insert_eq, lookup_insert_ne by done.
      rewrite Ho. by eapply lookup_weaken.
    + done.
Qed.

Lemma image_buffer_frame (h h' : gmap loc obj) img R C R' C' t t' :
  image_buffer h img R C t →
  table_at h' img = Some t' → rect R' C' t' → 0 < R' → 0 < C' →
  (∀ p, p ∈ concat t' → p ∈ concat t) →
  (∀ p, p ∈ concat t → h' !! p = h !! p) →
  image_buffer h' img R' C' t'.
Proof.
  intros [Ht Hrect HR HC Hpx] Ht' Hrect' HR' HC' Hsub Hframe.
  split; try done.
  rewrite Forall_forall in Hpx. apply Forall_forall. intros p Hp.
  destruct (Hpx p (Hsub p Hp)) as [c Hc]. exists c.
  apply get_pixel_Some in Hc. apply get_pixel_Some.
  by rewrite Hframe by auto.
Qed.

Lemma pixel_frame (h h' : gmap loc obj) img R C t p :
  image_buffer h img R C t →
  only_writes img h h' →
  p ∈ concat t → h' !! p = h !! p.
Proof.
  intros [Ht Hrect HR HC Hpx] Hframe Hp.
  rewrite Forall_forall in Hpx. destruct (Hpx p Hp) as [c Hc%get_pixel_Some].
  apply Hframe; [|by eexists].
  intros ->. apply table_at_Some in Ht as (rows & Hrows%get_list_Some & _).
  congruence.
Qed.

(** [transpose] takes an image buffer to an image buffer. *)
Lemma transpose_spec img R C t s :
  image_buffer (heap s) img R C t →
  ∃ s', transpose img s = Ok (VBool true) s'
    ∧ image_buffer (heap s') img C R (transposed t)
    ∧ only_writes img (heap s) (heap s')
    ∧ stdout s' = stdout s.
Proof.
  intros Hbuf.
  destruct (transpose_run _ _ _ _ _ Hbuf) as (s' & Hrun & Ht' & Hframe & Hout).
  exists s'. split; [done|]. split; [|done].
  pose proof Hbuf as [Ht Hrect HR HC Hpx].
  apply (image_buffer_frame (heap s) (heap s') img R C C R t); try done.
  - by apply (rect_transposed R C).
  - intros p. by rewrite (concat_transposed _ _ _ Hrect HR).
  - intros p Hp. by eapply pixel_frame.
Qed.

(** ** Reversing the buffer and reversing its rows *)

Lemma list_reverse_spec img R C t s :
  image_buffer (heap s) img R C t →
  ∃ s', list_reverse img s = Ok tt s'
    ∧ image_buffer (heap s') img R C (reverse t)
    ∧ get_list (heap s') img = reverse <$> get_list (heap s) img
    ∧ (∀ l, l ≠ img → heap s' !! l = heap s !! l)
    ∧ stdout s' = stdout s.
Proof.
  intros Hbuf. pose proof Hbuf as [Ht Hrect HR HC Hpx].
  apply table_at_Some in Ht as (rows & Hrows & Hall).
  pose proof (image_not_row _ _ _ _ _ _ Hbuf Hrows) as Hnotin.
  eexists. split; [unfold list_reverse; by erewrite list_update_Ok|].
  cbn [heap set_heap stdout].
  assert (Hframe : ∀ l, l ≠ img →
            <[img := OList (reverse rows)]> (heap s) !! l = heap s !! l).
  { intros l Hl. by rewrite lookup_insert_ne. }
  split; [|split; [|done]].
  - apply (image_buffer_frame (heap s) _ img R C R C t); try done.
    + apply table_at_Some. exists (reverse rows).
      split; [apply get_list_insert|]. apply Forall2_reverse.
      apply Forall2_same_length_lookup. split; [by eapply Forall2_length|].
      intros i r xs Hr Hxs.
      pose proof (Forall2_lookup_lr _ _ _ _ _ _ Hall Hr Hxs) as Hget.
      cbn beta in *. rewrite get_list_insert_ne; [done|].
      intros ->. by apply Hnotin, list_elem_of_lookup_2 with i.
    + by apply rect_reverse.
    + intros p. by rewrite (reverse_Permutation t).
    + intros p Hp. eapply pixel_frame; [done| |done].
      intros l Hl _. by apply Hframe.
  - by rewrite get_list_insert, Hrows.
Qed.

Lemma get_list_alter_list f h l xs :
  get_list h l = Some xs →
  get_list (alter (on_list f) l h) l = Some (f xs).
Proof.
  intros Hl%get_list_Some. apply get_list_Some.
  by rewrite lookup_alter_eq, Hl.
Qed.

Lemma insert_list_alter f h l xs :
  get_list h l = Some xs → <[l := OList (f xs)]> h = alter (on_list f) l h.
Proof.
  intros Hl%get_list_Some. apply map_eq. intros l'.
  destruct (decide (l = l')) as [<-|].
  - by rewrite lookup_insert_eq, lookup_alter_eq, Hl.
  - by rewrite lookup_insert_ne, lookup_alter_ne.
Qed.

Lemma lookup_alter_list_pixel f (h : gmap loc obj) (l l' : loc) c :
  alter (on_list f) l h !! l' = Some (OPixel c) ↔ h !! l' = Some (OPixel c).
Proof.
  destruct (decide (l = l')) as [<-|]; [|by rewrite lookup_alter_ne].
  rewrite lookup_alter_eq. destruct (h !! l) as [[]|]; cbn; naive_solver.
Qed.

Lemma lookup_alter_all_list_pixel f ls (h : gmap loc obj) (l : loc) c :
  alter_all (on_list f) ls h !! l = Some (OPixel c) ↔ h !! l = Some (OPixel c).
Proof.
  revert h. induction ls as [|l' ls IH]; intros h; [done|].
  by rewrite alter_all_cons, IH, lookup_alter_list_pixel.
Qed.

(** Whatever number of times a list object is visited, its items stay a
    rearrangement of what they were. *)
Lemma get_list_alter_all_perm f ls h l xs :
  (∀ ys, f ys ≡ₚ ys) → get_list h l = Some xs →
  ∃ xs', get_list (alter_all (on_list f) ls h) l = Some xs' ∧ xs' ≡ₚ xs.
Proof.
  intros Hf. revert h xs. induction ls as [|l' ls IH]; intros h xs Hl.
  - by exists xs.
  - rewrite alter_all_cons. destruct (decide (l' = l)) as [->|Hne].
    + destruct (IH _ _ (get_list_alter_list f _ _ _ Hl)) as (xs' & Hxs' & Hp).
      exists xs'. split; [done|]. by rewrite Hp.
    + apply IH. unfold get_list. by rewrite lookup_alter_ne.
Qed.

Lemma flip_rows_loop img R C t rows s :
  image_buffer (heap s) img R C t →
  get_list (heap s) img = Some rows →
  for_range R (λ col, r <~ list_get img col ;; list_reverse r) s
  = Ok tt (set_heap s (alter_all (on_list reverse) rows (heap s))).
Proof.
  intros Hbuf Hrows. pose proof Hbuf as [Ht [HR HC] HR0 HC0 Hpx].
  pose proof (image_not_row _ _ _ _ _ _ Hbuf Hrows) as Hnotin.
  apply table_at_Some in Ht as (rows' & Hrows' & Hall).
  assert (rows' = rows) as -> by congruence.
  pose proof (Forall2_length _ _ _ Hall) as Hlen.
  destruct (for_range_inv
    (λ i s1, s1 = set_heap s (alter_all (on_list reverse) (take i rows) (heap s)))
    R (λ col, r <~ list_get img col ;; list_reverse r) s)
    as (s' & Hrun & Hend).
  - by destruct s.
  - intros i s1 Hi ->.
    destruct (lookup_lt_is_Some_2 rows i) as [r Hr]; [lia|].
    destruct (Forall2_lookup_l _ _ _ _ _ Hall Hr) as (xs & Hxs & Hget).
    cbn beta in Hget.
    destruct (get_list_alter_all_perm reverse (take i rows) _ _ _
                reverse_Permutation Hget) as (xs' & Hxs' & _).
    eexists. split.
    + erewrite bind_Ok; [|eapply list_get_Ok; [|exact Hr]].
      * unfold list_reverse. by erewrite list_update_Ok.
      * rewrite heap_set_heap. unfold get_list.
        rewrite lookup_alter_all_notin; [by apply get_list_Some in Hrows; rewrite Hrows|].
        intros Hin%elem_of_take. destruct Hin as (k & Hk & _).
        by apply Hnotin, list_elem_of_lookup_2 with k.
    + unfold set_heap. cbn. f_equal.
      rewrite (take_S_r _ _ _ Hr), alter_all_snoc.
      by apply insert_list_alter.
  - rewrite Hrun, Hend. by rewrite take_ge by lia.
Qed.

Lemma pixel_alter_all_list f (h : gmap loc obj) img R C t ls p :
  image_buffer h img R C t → p ∈ concat t →
  alter_all (on_list f) ls h !! p = h !! p.
Proof.
  intros [_ _ _ _ Hpx] Hp. rewrite Forall_forall in Hpx.
  destruct (Hpx p Hp) as [c Hc%get_pixel_Some]. rewrite Hc.
  by apply lookup_alter_all_list_pixel.
Qed.

Lemma flip_rows_post img R C t rows (h : gmap loc obj) :
  image_buffer h img R C t → get_list h img = Some rows → NoDup rows →
  image_buffer (alter_all (on_list reverse) rows h) img R C (reverse <$> t).
Proof.
  intros Hbuf Hrows Hnd. pose proof Hbuf as [Ht Hrect HR HC Hpx].
  pose proof (image_not_row _ _ _ _ _ _ Hbuf Hrows) as Hnotin.
  apply table_at_Some in Ht as (rows' & Hrows' & Hall).
  assert (rows' = rows) as -> by congruence.
  apply (image_buffer_frame h _ img R C R C t); try done.
  - apply table_at_Some. exists rows. split.
    + unfold get_list. rewrite lookup_alter_all_notin by done.
      apply get_list_Some in Hrows. by rewrite Hrows.
    + apply Forall2_fmap_r.
      apply Forall2_same_length_lookup. split; [by eapply Forall2_length|].
      intros i r xs Hr Hxs.
      pose proof (Forall2_lookup_lr _ _ _ _ _ _ Hall Hr Hxs) as Hget.
      cbn beta in *. apply get_list_Some in Hget. apply get_list_Some.
      rewrite lookup_alter_all_NoDup, Hget; [done|done|].
      by eapply list_elem_of_lookup_2.
  - by apply rect_fmap_reverse.
  - intros p. rewrite !elem_of_concat. intros (xs & Hxs & Hp).
    apply list_elem_of_fmap in Hxs as (ys & -> & Hys).
    exists ys. split; [done|]. by apply elem_of_reverse.
  - intros p Hp. by eapply pixel_alter_all_list.
Qed.

Lemma Forall2_perm_concat {A} (t' t : list (list A)) :
  Forall2 (≡ₚ) t' t → concat t' ≡ₚ concat t.
Proof. induction 1 as [|?????? IH]; [done|]. cbn. by f_equiv. Qed.

Lemma Forall2_perm_rect {A} R C (t' t : list (list A)) :
  Forall2 (≡ₚ) t' t → rect R C t → rect R C t'.
Proof.
  intros Hall [HR HC]. split; [by rewrite (Forall2_length _ _ _ Hall)|].
  clear HR. induction Hall as [|xs' xs t' t Hp Hall IH]; [done|].
  apply Forall_cons in HC as [Hlen HC]. constructor; [|by apply IH].
  by rewrite Hp.
Qed.

(** Without assuming that the rows are distinct objects, each row still
    holds the same pixels after the loop. *)
Lemma flip_rows_post_perm img R C t rows (h : gmap loc obj) :
  image_buffer h img R C t → get_list h img = Some rows →
  ∃ t', image_buffer (alter_all (on_list reverse) rows h) img R C t'
        ∧ Forall2 (≡ₚ) t' t.
Proof.
  intros Hbuf Hrows. pose proof Hbuf as [Ht Hrect HR HC Hpx].
  pose proof (image_not_row _ _ _ _ _ _ Hbuf Hrows) as Hnotin.
  apply table_at_Some in Ht as (rows' & Hrows' & Hall).
  assert (rows' = rows) as -> by congruence.
  assert (Hex : ∃ t', Forall2 (λ r xs,
              get_list (alter_all (on_list reverse) rows h) r = Some xs) rows t'
            ∧ Forall2 (≡ₚ) t' t).
  { clear Hrows Hrows' Hnotin Hbuf Hrect Hpx HR.
    generalize rows at 1 as ls. intros ls.
    induction Hall as [|r xs rs t Hget Hall IH].
    - exists []. by split.
    - destruct IH as (t' & Ht' & Hp).
      destruct (get_list_alter_all_perm reverse ls _ _ _
                  reverse_Permutation Hget) as (xs' & Hxs' & Hp').
      exists (xs' :: t'). split; by constructor. }
  destruct Hex as (t' & Ht' & Hperm). exists t'. split; [|done].
  apply (image_buffer_frame h _ img R C R C t); try done.
  - apply table_at_Some. exists rows. split; [|done].
    unfold get_list. rewrite lookup_alter_all_notin by done.
    apply get_list_Some in Hrows. by rewrite Hrows.
  - by eapply Forall2_perm_rect.
  - intros p. by rewrite (Forall2_perm_concat _ _ Hperm).
  - intros p Hp. by eapply pixel_alter_all_list.
Qed.

Lemma flip_horizontal_run img R C t rows s :
  image_buffer (heap s) img R C t → get_list (heap s) img = Some rows →
  flip img (VBool false) s
  = Ok (VBool true) (set_heap s (alter_all (on_list reverse) rows (heap s))).
Proof.
  intros Hbuf Hrows.
  destruct (image_buffer_first_row _ _ _ _ _ Hbuf)
    as (rows' & r0 & xs0 & Hrows' & HlenR & Hr0 & Hxs0 & HlenC).
  unfold flip. cbn [is_bool py_assert eq_bool Bool.eqb when].
  rewrite bind_ret.
  rewrite (bind_Ok _ _ _ _ _ (py_len_Ok _ _ _ Hrows')), HlenR.
  rewrite (bind_Ok _ _ _ _ _ (list_get_Ok _ _ _ _ _ Hrows' Hr0)).
  rewrite (bind_Ok _ _ _ _ _ (py_len_Ok _ _ _ Hxs0)).
  by rewrite (bind_Ok _ _ _ _ _ (flip_rows_loop _ _ _ _ _ _ Hbuf Hrows)).
Qed.

Lemma flip_vertical_run img R C t s :
  image_buffer (heap s) img R C t →
  flip img (VBool true) s
  = match list_reverse img s with
    | Ok _ s' => Ok (VBool true) s'
    | Raise e s' => Raise e s'
    end.
Proof.
  intros Hbuf.
  destruct (image_buffer_first_row _ _ _ _ _ Hbuf)
    as (rows' & r0 & xs0 & Hrows' & HlenR & Hr0 & Hxs0 & HlenC).
  unfold flip. cbn [is_bool py_assert eq_bool Bool.eqb when].
  rewrite bind_ret.
  rewrite (bind_Ok _ _ _ _ _ (py_len_Ok _ _ _ Hrows')).
  rewrite (bind_Ok _ _ _ _ _ (list_get_Ok _ _ _ _ _ Hrows' Hr0)).
  rewrite (bind_Ok _ _ _ _ _ (py_len_Ok _ _ _ Hxs0)).
  unfold bind, ret. by destruct (list_reverse img s).
Qed.


(** ** [rotate] *)

Lemma rotate_left_unfold img s :
  rotate img (VBool false) s
  = (transpose img ;; list_reverse img ;; ret (VBool true)) s.
Proof.
  unfold rotate. cbn [is_bool py_assert eq_bool Bool.eqb when].
  rewrite bind_ret. unfold bind, ret.
  destruct (transpose img s) as [v s1|]; [|done].
  by destruct (list_reverse img s1) as [[] s2|].
Qed.

Lemma rotate_right_unfold img s :
  rotate img (VBool true) s
  = (list_reverse img ;; transpose img ;; ret (VBool true)) s.
Proof.
  unfold rotate. cbn [is_bool py_assert eq_bool Bool.eqb when].
  rewrite !bind_ret. unfold bind, ret.
  destruct (list_reverse img s) as [[] s1|]; [|done].
  by destruct (transpose img s1) as [v s2|].
Qed.

Lemma rotate_spec img R C t s (right : bool) :
  image_buffer (heap s) img R C t →
  ∃ s', rotate img (VBool right) s = Ok (VBool true) s'
    ∧ image_buffer (heap s') img C R (rotated right t)
    ∧ only_writes img (heap s) (heap s')
    ∧ stdout s' = stdout s.
Proof.
  intros Hbuf. destruct right; cbn [rotated].
  - destruct (list_reverse_spec _ _ _ _ _ Hbuf)
      as (s1 & Hrun1 & Hbuf1 & _ & Hframe1 & Hout1).
    destruct (transpose_spec _ _ _ _ _ Hbuf1)
      as (s2 & Hrun2 & Hbuf2 & Hframe2 & Hout2).
    exists s2. rewrite rotate_right_unfold.
    rewrite (bind_Ok _ _ _ _ _ Hrun1), (bind_Ok _ _ _ _ _ Hrun2).
    split; [done|]. split; [done|]. split; [|congruence].
    intros l Hl Hsome.
    rewrite Hframe2; [by apply Hframe1|done|by rewrite Hframe1].
  - destruct (transpose_spec _ _ _ _ _ Hbuf)
      as (s1 & Hrun1 & Hbuf1 & Hframe1 & Hout1).
    destruct (list_reverse_spec _ _ _ _ _ Hbuf1)
      as (s2 & Hrun2 & Hbuf2 & _ & Hframe2 & Hout2).
    exists s2. rewrite rotate_left_unfold.
    rewrite (bind_Ok _ _ _ _ _ Hrun1), (bind_Ok _ _ _ _ _ Hrun2).
    split; [done|]. split; [done|]. split; [|congruence].
    intros l Hl Hsome. by rewrite Hframe2, Hframe1.
Qed.

(** ** Algebra of the quarter turns *)

Section Turns.

Context {A : Type}.
Implicit Types t : list (list A).

Lemma rect_rotated R C t right :
  rect R C t → 0 < R → rect C R (rotated right t).
Proof.
  intros Hr HR. destruct right; unfold rotated.
  - apply rect_transposed; [by apply rect_reverse|done].
  - apply rect_reverse. by apply rect_transposed.
Qed.

Lemma rotated_twice R C t right :
  rect R C t → 0 < R → 0 < C →
  rotated right (rotated right t) = reverse (reverse <$> t).
Proof.
  intros Hr HR HC. destruct right; unfold rotated.
  - rewrite (transposed_reverse C R (transposed (reverse t))) by
      (try apply rect_transposed; try apply rect_reverse; done).
    rewrite (transposed_involutive R C) by (try apply rect_reverse; done).
    by rewrite fmap_reverse.
  - rewrite (transposed_reverse C R (transposed t)) by
      (try apply rect_transposed; done).
    by rewrite (transposed_involutive R C).
Qed.

Lemma half_turn_twice t : reverse (reverse <$> reverse (reverse <$> t)) = t.
Proof.
  rewrite fmap_reverse, reverse_involutive, <- list_fmap_compose.
  rewrite <- (list_fmap_id t) at 2. apply list_fmap_ext.
  intros _ r _. cbn. apply reverse_involutive.
Qed.

Lemma rotated_four_times R C t right :
  rect R C t → 0 < R → 0 < C →
  rotated right (rotated right (rotated right (rotated right t))) = t.
Proof.
  intros Hr HR HC.
  assert (Hr2 : rect R C (rotated right (rotated right t))).
  { apply (rect_rotated C R); [|done]. by apply (rect_rotated R C). }
  rewrite (rotated_twice R C _ _ Hr2 HR HC).
  rewrite (rotated_twice R C _ _ Hr HR HC).
  apply half_turn_twice.
Qed.

Lemma concat_rotated R C t right :
  rect R C t → 0 < R → concat (rotated right t) ≡ₚ concat t.
Proof.
  intros Hr HR. destruct right; unfold rotated.
  - rewrite (concat_transposed R C) by (try apply rect_reverse; done).
    by rewrite reverse_Permutation.
  - rewrite reverse_Permutation. by apply concat_transposed with R C.
Qed.
End Turns.

(** ** Following pixels from one store to the next *)

Lemma only_writes_trans img (h1 h2 h3 : gmap loc obj) :
  only_writes img h1 h2 → only_writes img h2 h3 → only_writes img h1 h3.
Proof.
  intros H12 H23 l Hl Hsome. rewrite H23, H12; try done. by rewrite H12.
Qed.

Lemma pixel_at_relocated (h h' : gmap loc obj) img R C t t' i j i0 j0 :
  image_buffer h img R C t → table_at h' img = Some t' →
  cell t' i j = cell t i0 j0 → i0 < R → j0 < C →
  (∀ p, p ∈ concat t → h' !! p = h !! p) →
  pixel_at h' img i j = pixel_at h img i0 j0.
Proof.
  intros Hbuf Ht' Hcell Hi Hj Hframe. pose proof Hbuf as [Ht Hrect _ _ _].
  destruct (cell_is_Some _ _ _ _ _ Hrect Hi Hj) as [p Hp].
  rewrite (pixel_at_cell _ _ _ _ _ _ Ht Hp).
  rewrite Hp in Hcell. rewrite (pixel_at_cell _ _ _ _ _ _ Ht' Hcell).
  unfold get_pixel. rewrite Hframe; [done|]. by eapply cell_elem_of_concat.
Qed.

Lemma pixel_at_same_table (h h' : gmap loc obj) img t i j :
  table_at h img = Some t → table_at h' img = Some t →
  (∀ p, p ∈ concat t → h' !! p = h !! p) →
  pixel_at h' img i j = pixel_at h img i j.
Proof.
  intros Ht Ht' Hframe. unfold pixel_at. rewrite Ht, Ht'. cbn.
  destruct (cell t i j) as [p|] eqn:Hp; [|done]. cbn.
  unfold get_pixel. rewrite Hframe; [done|]. by eapply cell_elem_of_concat.
Qed.

Lemma pixel_values_relocated (h h' : gmap loc obj) t t' :
  concat t' ≡ₚ concat t → (∀ p, p ∈ concat t → h' !! p = h !! p) →
  pixel_values h' t' ≡ₚ pixel_values h t.
Proof.
  intros Hperm Hframe. unfold pixel_values. rewrite Hperm.
  assert (Heq : omap (get_pixel h') (concat t) = omap (get_pixel h) (concat t));
    [|by rewrite Heq].
  clear Hperm. induction (concat t) as [|p ps IH]; [done|].
  assert (Hp : get_pixel h' p = get_pixel h p)
    by (unfold get_pixel; rewrite Hframe by set_solver; done).
  cbn. rewrite Hp. rewrite IH; [done|].
  intros q Hq. apply Hframe. set_solver.
Qed.







(** ** [display] *)

Lemma py_repr_Ok repr p c s :
  get_pixel (heap s) p = Some c → py_repr repr p s = Ok (repr c) s.
Proof. unfold py_repr. by intros ->. Qed.

(** The first pair of loops only reads. *)
Lemma display_maxsize_loop repr img R C t rows s :
  image_buffer (heap s) img R C t → get_list (heap s) img = Some rows →
  ∃ maxsize,
    for_acc rows 0%Z (λ row maxsize,
      pixels <~ list_items row ;;
      for_acc pixels maxsize (λ pixel maxsize,
        text <~ py_repr repr pixel ;;
        ret (if (strlen text >? maxsize)%Z then strlen text else maxsize))) s
    = Ok maxsize s.
Proof.
  intros [Ht Hrect HR HC Hpx] Hrows.
  apply table_at_Some in Ht as (rows' & Hrows' & Hall).
  assert (rows' = rows) as -> by congruence.
  rewrite Forall_forall in Hpx.
  destruct (for_acc_inv (λ _ _ s1, s1 = s) rows
    (λ row maxsize,
      pixels <~ list_items row ;;
      for_acc pixels maxsize (λ pixel maxsize,
        text <~ py_repr repr pixel ;;
        ret (if (strlen text >? maxsize)%Z then strlen text else maxsize)))
    0%Z s eq_refl) as (maxsize & s' & Hrun & ->); [|by exists maxsize].
  intros i r a1 s1 Hr ->.
  destruct (Forall2_lookup_l _ _ _ _ _ Hall Hr) as (xs & Hxs & Hget).
  cbn beta in Hget.
  destruct (for_acc_inv (λ _ _ s1, s1 = s) xs
    (λ pixel maxsize,
        text <~ py_repr repr pixel ;;
        ret (if (strlen text >? maxsize)%Z then strlen text else maxsize))
    a1 s eq_refl) as (a2 & s2 & Hrun2 & ->).
  - intros j p a s1 Hp ->.
    destruct (Hpx p) as [c Hc].
    { apply elem_of_concat. exists xs.
      split; by eapply list_elem_of_lookup_2. }
    eexists _, s. split; [|done].
    by rewrite (bind_Ok _ _ _ _ _ (py_repr_Ok repr _ _ _ Hc)).
  - exists a2, s. split; [|done].
    by rewrite (bind_Ok _ _ _ _ _ (list_items_Ok _ _ _ Hget)).
Qed.

(** The second pair of loops prints one line per pixel. *)
Lemma display_print_loop repr img R C t maxsize height width s h out :
  image_buffer h img R C t → heap s = h → stdout s = out →
  ∃ lines, length lines = R * C ∧
    for_range R (λ pos1,
      row <~ list_get img pos1 ;;
      for_range C (λ pos2,
        pixel <~ list_get row pos2 ;;
        middle <~ py_repr repr pixel ;;
        let padding := (maxsize - strlen middle)%Z in
        let prefix :=
          if (pos1 =? 0) && (pos2 =? 0) then "[  [  "%string
          else if (pos2 =? 0) then "   [  "%string
          else "      "%string in
        let suffix :=
          if (Z.of_nat pos1 =? Z.of_nat height - 1)%Z
             && (Z.of_nat pos2 =? Z.of_nat width - 1)%Z
          then spaces padding +:+ " ]  ]"%string
          else if (Z.of_nat pos2 =? Z.of_nat width - 1)%Z
          then spaces padding +:+ " ],"%string
          else ","%string in
        print (prefix +:+ middle +:+ suffix))) s
    = Ok tt (mkState h (out ++ lines)).
Proof.
  intros [Ht Hrect HR HC Hpx] Hs Hout.
  apply table_at_Some in Ht as (rows & Hrows & Hall).
  rewrite Forall_forall in Hpx.
  pose proof (Forall2_length _ _ _ Hall) as Hlen.
  edestruct (for_range_inv
    (λ i s1, ∃ lines, length lines = i * C ∧ s1 = mkState h (out ++ lines)) R)
    as (s' & Hrun & lines & Hlines & ->);
    [| |exists lines; split; [exact Hlines|exact Hrun]].
  - exists []. split; [done|]. rewrite (right_id_L [] (++)).
    destruct s. cbn in *. by subst.
  - intros i s1 Hi (lines & Hlines & ->).
    destruct (lookup_lt_is_Some_2 t i) as [xs Hxs]; [destruct Hrect; lia|].
    destruct (Forall2_lookup_r _ _ _ _ _ Hall Hxs) as (r & Hr & Hget).
    cbn beta in Hget.
    erewrite bind_Ok; [|by eapply list_get_Ok].
    edestruct (for_range_inv
      (λ j s2, ∃ lines', length lines' = i * C + j
                 ∧ s2 = mkState h (out ++ lines')) C)
      as (s2 & Hrun2 & lines2 & Hlines2 & ->);
      [| |exists (mkState h (out ++ lines2)); split; [exact Hrun2|]].
    + exists lines. split; [lia|done].
    + intros j s2 Hj (lines' & Hlines' & ->).
      destruct (lookup_lt_is_Some_2 xs j) as [p Hp];
        [by rewrite (rect_row _ _ _ _ _ Hrect Hxs)|].
      destruct (Hpx p) as [c Hc].
      { apply elem_of_concat. exists xs.
        split; by eapply list_elem_of_lookup_2. }
      erewrite bind_Ok; [|by eapply list_get_Ok].
      erewrite bind_Ok; [|by eapply py_repr_Ok].
      eexists. split; [cbv zeta; unfold print; reflexivity|].
      cbn [heap stdout].
      eexists. split; [|by rewrite <- (assoc_L (++))].
      rewrite length_app. cbn. lia.
    + exists lines2. split; [lia|done].
Qed.

(** [display], run on an image buffer: it prints an empty line and one line
    per pixel, writes to no object, and returns [None]. *)
Lemma display_run repr img R C t s :
  image_buffer (heap s) img R C t →
  ∃ lines, length lines = R * C ∧
    display repr img s
    = Ok VNone (mkState (heap s) (stdout s ++ ""%string :: lines)).
Proof.
  intros Hbuf.
  destruct (image_buffer_first_row _ _ _ _ _ Hbuf)
    as (rows & r0 & xs0 & Hrows & HlenR & Hr0 & Hxs0 & HlenC).
  destruct (display_maxsize_loop repr _ _ _ _ _ _ Hbuf Hrows)
    as (maxsize & Hmax).
  destruct (display_print_loop repr img R C t maxsize R C
    (mkState (heap s) (stdout s ++ [""%string])) (heap s)
    (stdout s ++ [""%string]) Hbuf eq_refl eq_refl) as (lines & Hlines & Hrun).
  exists lines. split; [done|]. unfold display.
  rewrite (bind_Ok _ _ _ _ _ (py_len_Ok _ _ _ Hrows)), HlenR.
  rewrite (bind_Ok _ _ _ _ _ (list_get_Ok _ _ _ _ _ Hrows Hr0)).
  rewrite (bind_Ok _ _ _ _ _ (py_len_Ok _ _ _ Hxs0)), HlenC.
  rewrite (bind_Ok _ _ _ _ _ (list_items_Ok _ _ _ Hrows)).
  rewrite (bind_Ok _ _ _ _ _ Hmax).
  unfold bind at 1. cbn [print].
  rewrite (bind_Ok _ _ _ _ _ Hrun). unfold ret.
  by rewrite <- (assoc_L (++)).
Qed.

(** ** [mono] *)

Lemma int_times_float_Ok z k c s :
  (0 ≤ z < 2 ^ k)%Z → (0 ≤ k ≤ 971)%Z →
  int_times_float z c s = Ok (F64.mul c (F64.of_Z z)) s.
Proof.
  intros Hz Hk. unfold int_times_float.
  destruct (F64_facts.of_int_bounded z k Hz Hk) as [-> _].
  by rewrite F64_facts.mul_comm.
Qed.

Lemma py_int_Ok K x s : F64.bounded_by K x → py_int x s = Ok (F64.floor x) s.
Proof.
  intros Hx. unfold py_int. by rewrite (F64_facts.to_int_floor K x Hx).
Qed.

Lemma channel_product_bounded z c K :
  channel_ok z → F64.bounded_by K c → (-10 ≤ K ≤ 0)%Z →
  F64.bounded_by 10 (F64.mul c (F64.of_Z z)).
Proof.
  intros Hz Hc HK.
  assert (Hb : F64.bounded_by (8 + 1) (F64.of_Z z)).
  { apply F64_facts.of_Z_bounded; [|lia]. unfold channel_ok in Hz.
    change (2 ^ 8)%Z with 256%Z. lia. }
  apply F64_facts.bounded_by_mono with (K + (8 + 1) + 1)%Z; [lia|].
  apply F64_facts.mul_bounded; [done|done|lia].
Qed.

Lemma brightness_bounded c :
  channels_ok c → F64.bounded_by 14 (brightness c).
Proof.
  intros (Hr & Hg & Hb). unfold brightness.
  assert (H3 : F64.bounded_by (-1) F64.c0_3) by (split; [done|by vm_compute]).
  assert (H6 : F64.bounded_by 0 F64.c0_6) by (split; [done|by vm_compute]).
  assert (H1 : F64.bounded_by (-3) F64.c0_1) by (split; [done|by vm_compute]).
  pose proof (channel_product_bounded _ _ _ Hr H3 ltac:(lia)) as Hx1.
  pose proof (channel_product_bounded _ _ _ Hg H6 ltac:(lia)) as Hx2.
  pose proof (channel_product_bounded _ _ _ Hb H1 ltac:(lia)) as Hx3.
  change 14%Z with (12 + 2)%Z. apply F64_facts.add_bounded; [| |lia].
  - change 12%Z with (10 + 2)%Z. by apply F64_facts.add_bounded; [| |lia].
  - by apply F64_facts.bounded_by_mono with 10%Z; [lia|].
Qed.

Lemma get_pixel_insert h p c : get_pixel (<[p := OPixel c]> h) p = Some c.
Proof. apply get_pixel_Some, lookup_insert_eq. Qed.

(** One pixel of [mono]: the loop body agrees with [mono_pixel]. *)
Lemma mono_body_Ok (sepia : bool) pixel c s :
  get_pixel (heap s) pixel = Some c → channels_ok c →
  (pr <~ get_attr red pixel ;;
   x1 <~ int_times_float pr F64.c0_3 ;;
   pg <~ get_attr green pixel ;;
   x2 <~ int_times_float pg F64.c0_6 ;;
   pb <~ get_attr blue pixel ;;
   x3 <~ int_times_float pb F64.c0_1 ;;
   let brightness := F64.add (F64.add x1 x2) x3 in
   when (eq_bool (VBool sepia) false) (
     v <~ py_int brightness ;; set_attr with_red pixel v ;;
     v <~ py_int brightness ;; set_attr with_green pixel v ;;
     v <~ py_int brightness ;; set_attr with_blue pixel v) ;;
   when (eq_bool (VBool sepia) true) (
     v <~ py_int brightness ;; set_attr with_red pixel v ;;
     v <~ py_int (F64.mul F64.c0_6 brightness) ;; set_attr with_green pixel v ;;
     v <~ py_int (F64.mul F64.c0_4 brightness) ;; set_attr with_blue pixel v)) s
  = Ok tt (set_heap s (<[pixel := OPixel (mono_pixel sepia c)]> (heap s))).
Proof.
  intros Hc Hok. pose proof Hok as (Hr & Hg & Hb).
  assert (H8 : (0 ≤ 8 ≤ 971)%Z) by lia.
  assert (Hch : ∀ z, channel_ok z → (0 ≤ z < 2 ^ 8)%Z).
  { intros z Hz. unfold channel_ok in Hz. change (2 ^ 8)%Z with 256%Z. lia. }
  pose proof (brightness_bounded c Hok) as HB.
  rewrite (bind_Ok _ _ _ _ _ (get_attr_Ok red _ _ _ Hc)).
  rewrite (bind_Ok _ _ _ _ _ (int_times_float_Ok _ 8 _ _ (Hch _ Hr) H8)).
  rewrite (bind_Ok _ _ _ _ _ (get_attr_Ok green _ _ _ Hc)).
  rewrite (bind_Ok _ _ _ _ _ (int_times_float_Ok _ 8 _ _ (Hch _ Hg) H8)).
  rewrite (bind_Ok _ _ _ _ _ (get_attr_Ok blue _ _ _ Hc)).
  rewrite (bind_Ok _ _ _ _ _ (int_times_float_Ok _ 8 _ _ (Hch _ Hb) H8)).
  cbv zeta. fold (brightness c).
  destruct sepia; cbn [eq_bool Bool.eqb when mono_pixel].
  - assert (H6 : F64.bounded_by 15 (F64.mul F64.c0_6 (brightness c))).
    { change 15%Z with (0 + 14 + 1)%Z.
      apply F64_facts.mul_bounded; [split; [done|by vm_compute]|done|lia]. }
    assert (H4 : F64.bounded_by 14 (F64.mul F64.c0_4 (brightness c))).
    { change 14%Z with (-1 + 14 + 1)%Z at 1.
      apply F64_facts.mul_bounded; [split; [done|by vm_compute]|done|lia]. }
    rewrite bind_ret.
    rewrite (bind_Ok _ _ _ _ _ (py_int_Ok _ _ _ HB)).
    rewrite (bind_Ok _ _ _ _ _ (set_attr_Ok with_red _ _ _ _ Hc)).
    rewrite (bind_Ok _ _ _ _ _ (py_int_Ok _ _ _ H6)).
    erewrite bind_Ok;
      [|apply set_attr_Ok; rewrite heap_set_heap; apply get_pixel_insert].
    rewrite (bind_Ok _ _ _ _ _ (py_int_Ok _ _ _ H4)).
    erewrite set_attr_Ok; [|rewrite heap_set_heap; apply get_pixel_insert].
    unfold set_heap. cbn. by rewrite !insert_insert_eq.
  - match goal with |- bind ?grey _ _ = _ =>
      assert (Hgrey : grey s
        = Ok tt (set_heap s (<[pixel := OPixel (greyscale c)]> (heap s))));
      [|by rewrite (bind_Ok _ _ _ _ _ Hgrey)] end.
    rewrite (bind_Ok _ _ _ _ _ (py_int_Ok _ _ _ HB)).
    rewrite (bind_Ok _ _ _ _ _ (set_attr_Ok with_red _ _ _ _ Hc)).
    rewrite (bind_Ok _ _ _ _ _ (py_int_Ok _ _ _ HB)).
    erewrite bind_Ok;
      [|apply set_attr_Ok; rewrite heap_set_heap; apply get_pixel_insert].
    rewrite (bind_Ok _ _ _ _ _ (py_int_Ok _ _ _ HB)).
    erewrite set_attr_Ok; [|rewrite heap_set_heap; apply get_pixel_insert].
    unfold set_heap. cbn. by rewrite !insert_insert_eq.
Qed.

(** [mono], run on an image buffer whose pixels are distinct objects with
    channels in range. *)
Lemma mono_run img R C t s (sepia : bool) :
  image_buffer (heap s) img R C t →
  NoDup (concat t) → pixels_in_range (heap s) t →
  mono img (VBool sepia) s
  = Ok (VBool true)
       (set_heap s (alter_all (on_pixel (mono_pixel sepia)) (concat t) (heap s))).
Proof.
  intros Hbuf Hnd Hrange.
  destruct (image_buffer_first_row _ _ _ _ _ Hbuf)
    as (rows & r0 & xs0 & Hrows & HlenR & Hr0 & Hxs0 & HlenC).
  unfold mono. cbn [is_bool py_assert]. rewrite bind_ret.
  rewrite (bind_Ok _ _ _ _ _ (py_len_Ok _ _ _ Hrows)), HlenR.
  rewrite (bind_Ok _ _ _ _ _ (list_get_Ok _ _ _ _ _ Hrows Hr0)).
  rewrite (bind_Ok _ _ _ _ _ (py_len_Ok _ _ _ Hxs0)), HlenC.
  erewrite bind_Ok; [done|].
  eapply (pixel_loop (mono_pixel sepia)); [exact Hbuf| |done].
  intros pre p post s1 Hsplit Hs1.
  assert (Hin : p ∈ concat t) by (rewrite Hsplit; set_solver).
  assert (Hpre : p ∉ pre).
  { rewrite Hsplit in Hnd. apply NoDup_app in Hnd as (_ & Hdis & _).
    intros Hp. apply (Hdis p Hp). apply list_elem_of_here. }
  unfold pixels_in_range in Hrange. rewrite Forall_forall in Hrange.
  destruct (Hrange p Hin) as (c & Hc & Hok).
  assert (Hc1 : get_pixel (heap s1) p = Some c).
  { rewrite Hs1. unfold get_pixel. rewrite lookup_alter_all_notin by done.
    done. }
  etrans; [exact (mono_body_Ok sepia p c s1 Hc1 Hok)|].
  by rewrite (insert_pixel_alter (mono_pixel sepia) _ _ _ Hc1).
Qed.


(** Truncation is visible: for the pixel (0, 3, 2) the binary64 sum
    [0*0.3 + 3*0.6 + 2*0.1] is 1.9999999999999998, and the channels
    become 1. *)
Example greyscale_truncates :
  brightness (mkRGB 0 3 2 255) = S754_finite false 9007199254740991 (-52)
  ∧ greyscale (mkRGB 0 3 2 255) = mkRGB 1 1 1 255.
Proof. split; by vm_compute. Qed.

(** ** The demonstration image *)

Lemma demo_image : image_buffer (heap demo_state) 1%positive 2 3 demo_table.
Proof.
  split; [by vm_compute| |lia|lia|].
  - split; [done|]. by repeat constructor.
  - repeat (constructor; [by eexists|]). constructor.
Qed.

Lemma demo_distinct_pixels : NoDup (concat demo_table).
Proof. compute_done. Qed.

Lemma demo_in_range : pixels_in_range (heap demo_state) demo_table.
Proof.
  unfold pixels_in_range.
  repeat (constructor; [eexists; split; [by vm_compute|];
                        unfold channels_ok, channel_ok; cbn; lia|]).
  constructor.
Qed.

Lemma demo_rows : get_list (heap demo_state) 1%positive = Some [2; 3]%positive.
Proof. by vm_compute. Qed.

Lemma demo_distinct_rows : NoDup [2; 3]%positive.
Proof. compute_done. Qed.

(** ** Shared objects

    The loops of [flip] and [mono] visit positions, not objects.  An
    object listed at two positions is therefore visited twice, which is
    why the statements on these two functions ask for distinct objects. *)

Example shared_row_reversed_twice :
  ∃ s', flip 1%positive (VBool false) shared_row_state = Ok (VBool true) s'
    ∧ table_at (heap s') 1%positive = table_at (heap shared_row_state) 1%positive.
Proof. eexists. split; by vm_compute. Qed.

Example shared_pixel_converted_twice :
  ∃ s', mono 1%positive (VBool false) shared_pixel_state = Ok (VBool true) s'
    ∧ pixel_at (heap s') 1%positive 0 0 = Some (mkRGB 0 0 0 255)
    ∧ greyscale (mkRGB 0 3 2 255) = mkRGB 1 1 1 255.
Proof. eexists. split; [by vm_compute|]. split; by vm_compute. Qed.

(** ** The documented behaviour of the plug-ins *)

(** C1.  [transpose] on a non-empty [R]×[C] image buffer returns [True] and
    leaves the same buffer object [img] holding a [C]×[R] image whose
    pixel at [(i, j)] is the pixel object, and so the pixel value, that was
    at [(j, i)]; no object other than the buffer is written. *)
Theorem transpose_swaps_rows_and_columns img R C t s :
  image_buffer (heap s) img R C t →
  ∃ s' t',
    transpose img s = Ok (VBool true) s'
    ∧ image_buffer (heap s') img C R t'
    ∧ (∀ i j, i < C → j < R → cell t' i j = cell t j i)
    ∧ (∀ i j, i < C → j < R →
         pixel_at (heap s') img i j = pixel_at (heap s) img j i)
    ∧ only_writes img (heap s) (heap s')
    ∧ stdout s' = stdout s.
Proof.
  intros Hbuf. pose proof Hbuf as [Ht Hrect HR HC Hpx].
  destruct (transpose_spec _ _ _ _ _ Hbuf) as (s' & Hrun & Hbuf' & Hw & Hout).
  exists s', (transposed t). split; [done|]. split; [done|].
  assert (Hcell : ∀ i j, i < C → j < R → cell (transposed t) i j = cell t j i).
  { intros i j Hi Hj. by apply cell_transposed with R C. }
  split; [done|]. split; [|done].
  intros i j Hi Hj. eapply pixel_at_relocated; try done.
  - by destruct Hbuf'.
  - by apply Hcell.
  - intros p Hp. by eapply pixel_frame.
Qed.

Lemma transpose_swaps_rows_and_columns_witness :
  image_buffer (heap demo_state) 1%positive 2 3 demo_table
  ∧ ∃ s' t',
      transpose 1%positive demo_state = Ok (VBool true) s'
      ∧ image_buffer (heap s') 1%positive 3 2 t'
      ∧ (∀ i j, i < 3 → j < 2 → cell t' i j = cell demo_table j i)
      ∧ (∀ i j, i < 3 → j < 2 →
           pixel_at (heap s') 1%positive i j
           = pixel_at (heap demo_state) 1%positive j i)
      ∧ only_writes 1%positive (heap demo_state) (heap s')
      ∧ stdout s' = stdout demo_state.
Proof.
  split; [exact demo_image|].
  exact (transpose_swaps_rows_and_columns 1%positive 2 3 demo_table
           demo_state demo_image).
Defined.

(** C2.  [mono] on a non-empty rectangular image buffer, whose pixels are
    distinct objects with red, green and blue in 0..255, returns [True]
    and sets every pixel to [floor(B), floor(B), floor(B)] in greyscale
    mode and to [floor(B), floor(0.6*B), floor(0.4*B)] in sepia mode, where
    [B = 0.3*r0 + 0.6*g0 + 0.1*b0] is computed in binary64 from the
    channels before the call; alpha, the arrangement and every other
    object are unchanged. *)
Theorem mono_converts_every_pixel img R C t s (sepia : bool) :
  image_buffer (heap s) img R C t →
  NoDup (concat t) → pixels_in_range (heap s) t →
  ∃ s', mono img (VBool sepia) s = Ok (VBool true) s'
    ∧ image_buffer (heap s') img R C t
    ∧ (∀ i j, i < R → j < C →
         ∃ c, pixel_at (heap s) img i j = Some c
           ∧ pixel_at (heap s') img i j
             = Some (if sepia
                     then mkRGB (F64.floor (brightness c))
                                (F64.floor (F64.mul F64.c0_6 (brightness c)))
                                (F64.floor (F64.mul F64.c0_4 (brightness c)))
                                (alpha c)
                     else mkRGB (F64.floor (brightness c))
                                (F64.floor (brightness c))
                                (F64.floor (brightness c))
                                (alpha c)))
    ∧ (∀ l, l ∉ concat t → heap s' !! l = heap s !! l)
    ∧ stdout s' = stdout s.
Proof.
  intros Hbuf Hnd Hrange. eexists. split; [by apply mono_run with R C|].
  destruct (pixel_map_post (mono_pixel sepia) _ _ _ _ _ Hbuf) as (H1 & H2 & H3);
    [by left|].
  cbn [heap set_heap stdout]. split; [done|]. split; [|done].
  intros i j Hi Hj. destruct (H2 i j Hi Hj) as (c & Hc & Hc').
  exists c. split; [done|]. rewrite Hc'. by destruct sepia.
Qed.

Lemma mono_converts_every_pixel_witness :
  (image_buffer (heap demo_state) 1%positive 2 3 demo_table
   ∧ NoDup (concat demo_table)
   ∧ pixels_in_range (heap demo_state) demo_table)
  ∧ ∃ s', mono 1%positive (VBool true) demo_state = Ok (VBool true) s'
      ∧ image_buffer (heap s') 1%positive 2 3 demo_table
      ∧ (∀ i j, i < 2 → j < 3 →
           ∃ c, pixel_at (heap demo_state) 1%positive i j = Some c
             ∧ pixel_at (heap s') 1%positive i j
               = Some (mkRGB (F64.floor (brightness c))
                             (F64.floor (F64.mul F64.c0_6 (brightness c)))
                             (F64.floor (F64.mul F64.c0_4 (brightness c)))
                             (alpha c)))
      ∧ (∀ l, l ∉ concat demo_table → heap s' !! l = heap demo_state !! l)
      ∧ stdout s' = stdout demo_state.
Proof.
  split; [exact (conj demo_image (conj demo_distinct_pixels demo_in_range))|].
  exact (mono_converts_every_pixel 1%positive 2 3 demo_table demo_state true
           demo_image demo_distinct_pixels demo_in_range).
Defined.

(** C2 as it is worded, for every non-empty rectangular image and with the
    brightness a real number, fails twice.  On the 1×2 image whose two
    positions hold one pixel object (0, 3, 2) the pixel is converted
    twice and ends as (0, 0, 0), which is neither the binary64 level 1
    nor the exact level 2.  On the 2×3 image of distinct pixels the pixel
    (0, 3, 2) ends at level 1, where the floor of the exact brightness
    is 2. *)
Lemma mono_converts_every_pixel_counterexample :
  (image_buffer (heap shared_pixel_state) 1%positive 1 2 [[10; 10]]%positive
   ∧ ¬ greyscale_as_claimed (λ c, F64.floor (brightness c))
         1%positive 1 2 shared_pixel_state
   ∧ ¬ greyscale_as_claimed floor_of_exact_brightness
         1%positive 1 2 shared_pixel_state)
  ∧ (image_buffer (heap demo_state) 1%positive 2 3 demo_table
     ∧ NoDup (concat demo_table)
     ∧ ¬ greyscale_as_claimed floor_of_exact_brightness
           1%positive 2 3 demo_state).
Proof.
  assert (Hshared : pixel_at (heap (final (mono 1%positive (VBool false)
            shared_pixel_state))) 1%positive 0 0 = Some (mkRGB 0 0 0 255))
    by by vm_compute.
  assert (Hdemo : pixel_at (heap (final (mono 1%positive (VBool false)
            demo_state))) 1%positive 1 0 = Some (mkRGB 1 1 1 128))
    by by vm_compute.
  split; [split; [|split]|split; [exact demo_image|split]].
  - split; [by vm_compute| |lia|lia|].
    + split; [done|]. by repeat constructor.
    + repeat (constructor; [by eexists|]). constructor.
  - intros (s' & Hrun & Hpx). rewrite Hrun in Hshared. cbn [final] in Hshared.
    destruct (Hpx 0 0) as (c & Hc & Hc'); [lia|lia|].
    vm_compute in Hc. injection Hc as <-.
    rewrite Hshared in Hc'. vm_compute in Hc'. discriminate.
  - intros (s' & Hrun & Hpx). rewrite Hrun in Hshared. cbn [final] in Hshared.
    destruct (Hpx 0 0) as (c & Hc & Hc'); [lia|lia|].
    vm_compute in Hc. injection Hc as <-.
    rewrite Hshared in Hc'. vm_compute in Hc'. discriminate.
  - exact demo_distinct_pixels.
  - intros (s' & Hrun & Hpx). rewrite Hrun in Hdemo. cbn [final] in Hdemo.
    destruct (Hpx 1 0) as (c & Hc & Hc'); [lia|lia|].
    vm_compute in Hc. injection Hc as <-.
    rewrite Hdemo in Hc'. vm_compute in Hc'. discriminate.
Qed.

(** C3.  On a non-empty rectangular image buffer, [rotate] with
    [right=False] is [transpose] followed by a reversal of the buffer's
    rows, and with [right=True] it is the reversal followed by
    [transpose]; both return [True], and the image becomes the reversed
    transpose, respectively the transpose of the reversal. *)
Theorem rotate_composes_transpose_and_reverse img R C t s :
  image_buffer (heap s) img R C t →
  (rotate img (VBool false) s
   = (transpose img ;; list_reverse img ;; ret (VBool true)) s
   ∧ ∃ s', rotate img (VBool false) s = Ok (VBool true) s'
       ∧ image_buffer (heap s') img C R (reverse (transposed t)))
  ∧ (rotate img (VBool true) s
     = (list_reverse img ;; transpose img ;; ret (VBool true)) s
     ∧ ∃ s', rotate img (VBool true) s = Ok (VBool true) s'
         ∧ image_buffer (heap s') img C R (transposed (reverse t))).
Proof.
  intros Hbuf.
  split; (split; [by rewrite ?rotate_left_unfold, ?rotate_right_unfold|]).
  - destruct (rotate_spec _ _ _ _ _ false Hbuf) as (s' & Hrun & Hbuf' & _).
    by exists s'.
  - destruct (rotate_spec _ _ _ _ _ true Hbuf) as (s' & Hrun & Hbuf' & _).
    by exists s'.
Qed.

Lemma rotate_composes_transpose_and_reverse_witness :
  image_buffer (heap demo_state) 1%positive 2 3 demo_table
  ∧ (rotate 1%positive (VBool false) demo_state
     = (transpose 1%positive ;; list_reverse 1%positive ;;
        ret (VBool true)) demo_state
     ∧ ∃ s', rotate 1%positive (VBool false) demo_state = Ok (VBool true) s'
         ∧ image_buffer (heap s') 1%positive 3 2
             (reverse (transposed demo_table)))
  ∧ (rotate 1%positive (VBool true) demo_state
     = (list_reverse 1%positive ;; transpose 1%positive ;;
        ret (VBool true)) demo_state
     ∧ ∃ s', rotate 1%positive (VBool true) demo_state = Ok (VBool true) s'
         ∧ image_buffer (heap s') 1%positive 3 2
             (transposed (reverse demo_table))).
Proof.
  split; [exact demo_image|].
  exact (rotate_composes_transpose_and_reverse 1%positive 2 3 demo_table
           demo_state demo_image).
Defined.

(** C4.  On a non-empty rectangular image buffer, [flip] with
    [vertical=False] reverses every row and keeps the order of the rows
    (the rows being distinct list objects), and with [vertical=True] it
    reverses the order of the rows and writes to no row; either way only
    that one reversal happens and the call returns [True]. *)
Theorem flip_mirrors img R C t rows s :
  image_buffer (heap s) img R C t →
  get_list (heap s) img = Some rows →
  (NoDup rows →
   ∃ s', flip img (VBool false) s = Ok (VBool true) s'
     ∧ image_buffer (heap s') img R C (reverse <$> t)
     ∧ get_list (heap s') img = Some rows
     ∧ (∀ p, p ∈ concat t → heap s' !! p = heap s !! p)
     ∧ stdout s' = stdout s)
  ∧ (∃ s', flip img (VBool true) s = Ok (VBool true) s'
     ∧ image_buffer (heap s') img R C (reverse t)
     ∧ get_list (heap s') img = Some (reverse rows)
     ∧ (∀ l, l ≠ img → heap s' !! l = heap s !! l)
     ∧ stdout s' = stdout s).
Proof.
  intros Hbuf Hrows. split.
  - intros Hnd. eexists. split; [by eapply flip_horizontal_run|].
    cbn [heap set_heap stdout]. split; [by apply flip_rows_post|].
    split; [|split; [|done]].
    + unfold get_list. rewrite lookup_alter_all_notin
        by by eapply image_not_row.
      apply get_list_Some in Hrows. by rewrite Hrows.
    + intros p Hp. by eapply pixel_alter_all_list.
  - destruct (list_reverse_spec _ _ _ _ _ Hbuf)
      as (s' & Hrun & Hbuf' & Hget & Hframe & Hout).
    exists s'. rewrite (flip_vertical_run _ _ _ _ _ Hbuf), Hrun.
    rewrite Hrows in Hget. done.
Qed.

Lemma flip_mirrors_witness :
  (image_buffer (heap demo_state) 1%positive 2 3 demo_table
   ∧ get_list (heap demo_state) 1%positive = Some [2; 3]%positive
   ∧ NoDup [2; 3]%positive)
  ∧ (∃ s', flip 1%positive (VBool false) demo_state = Ok (VBool true) s'
       ∧ image_buffer (heap s') 1%positive 2 3 (reverse <$> demo_table)
       ∧ get_list (heap s') 1%positive = Some [2; 3]%positive
       ∧ (∀ p, p ∈ concat demo_table → heap s' !! p = heap demo_state !! p)
       ∧ stdout s' = stdout demo_state)
  ∧ (∃ s', flip 1%positive (VBool true) demo_state = Ok (VBool true) s'
       ∧ image_buffer (heap s') 1%positive 2 3 (reverse demo_table)
       ∧ get_list (heap s') 1%positive = Some (reverse [2; 3]%positive)
       ∧ (∀ l, l ≠ 1%positive → heap s' !! l = heap demo_state !! l)
       ∧ stdout s' = stdout demo_state).
Proof.
  split; [exact (conj demo_image (conj demo_rows demo_distinct_rows))|].
  exact (conj
    (proj1 (flip_mirrors 1%positive 2 3 demo_table [2; 3]%positive demo_state
              demo_image demo_rows) demo_distinct_rows)
    (proj2 (flip_mirrors 1%positive 2 3 demo_table [2; 3]%positive demo_state
              demo_image demo_rows))).
Defined.

(** C4 as it is worded, for every non-empty rectangular image, fails on
    the 2×2 image whose two rows are one list object: the row is reversed
    twice, and the call returns [True] with every row as it was. *)
Lemma flip_mirrors_counterexample :
  image_buffer (heap shared_row_state) 1%positive 2 2
    [[10; 11]; [10; 11]]%positive
  ∧ ¬ horizontal_flip_as_claimed 1%positive [[10; 11]; [10; 11]]%positive
        shared_row_state.
Proof.
  assert (Hsame : table_at (heap (final (flip 1%positive (VBool false)
            shared_row_state))) 1%positive
          = Some [[10; 11]; [10; 11]]%positive) by by vm_compute.
  split.
  - split; [by vm_compute| |lia|lia|].
    + split; [done|]. by repeat constructor.
    + repeat (constructor; [by eexists|]). constructor.
  - intros (s' & Hrun & Ht). rewrite Hrun in Hsame. cbn [final] in Hsame.
    rewrite Hsame in Ht. vm_compute in Ht. discriminate.
Qed.

(** C5.  [display] on a non-empty rectangular image buffer writes to no
    object: it prints an empty line and one line per pixel.  What it
    returns is [None], the value of a bare [return], and not the boolean
    [False] its documentation announces. *)
Theorem display_returns_None repr img R C t s :
  image_buffer (heap s) img R C t →
  ∃ lines, length lines = R * C
    ∧ display repr img s
      = Ok VNone (mkState (heap s) (stdout s ++ ""%string :: lines))
    ∧ VNone ≠ VBool false.
Proof.
  intros Hbuf. destruct (display_run repr _ _ _ _ _ Hbuf) as (lines & Hlen & Hrun).
  by exists lines.
Qed.

Lemma display_returns_None_witness :
  image_buffer (heap demo_state) 1%positive 2 3 demo_table
  ∧ ∃ lines, length lines = 2 * 3
      ∧ display (λ _, "RGB"%string) 1%positive demo_state
        = Ok VNone (mkState (heap demo_state)
                      (stdout demo_state ++ ""%string :: lines))
      ∧ VNone ≠ VBool false.
Proof.
  split; [exact demo_image|].
  exact (display_returns_None (λ _, "RGB"%string) 1%positive 2 3 demo_table
           demo_state demo_image).
Defined.

(** C6.  [dered] on a non-empty rectangular image buffer returns [True];
    afterwards every pixel has red 0 and the green, blue and alpha it had,
    the arrangement is the same, and nothing but the pixels of the image
    is written. *)
Theorem dered_zeroes_red img R C t s :
  image_buffer (heap s) img R C t →
  ∃ s', dered img s = Ok (VBool true) s'
    ∧ image_buffer (heap s') img R C t
    ∧ (∀ i j, i < R → j < C →
         ∃ c, pixel_at (heap s) img i j = Some c
              ∧ pixel_at (heap s') img i j
                = Some (mkRGB 0 (green c) (blue c) (alpha c)))
    ∧ (∀ l, l ∉ concat t → heap s' !! l = heap s !! l)
    ∧ stdout s' = stdout s.
Proof.
  intros Hbuf. eexists. split; [by apply dered_run with R C|].
  destruct (pixel_map_post (with_red 0) _ _ _ _ _ Hbuf) as (H1 & H2 & H3);
    [by right|].
  cbn. done.
Qed.

Lemma dered_zeroes_red_witness :
  image_buffer (heap demo_state) 1%positive 2 3 demo_table
  ∧ ∃ s', dered 1%positive demo_state = Ok (VBool true) s'
      ∧ image_buffer (heap s') 1%positive 2 3 demo_table
      ∧ (∀ i j, i < 2 → j < 3 →
           ∃ c, pixel_at (heap demo_state) 1%positive i j = Some c
                ∧ pixel_at (heap s') 1%positive i j
                  = Some (mkRGB 0 (green c) (blue c) (alpha c)))
      ∧ (∀ l, l ∉ concat demo_table → heap s' !! l = heap demo_state !! l)
      ∧ stdout s' = stdout demo_state.
Proof.
  split; [exact demo_image|].
  exact (dered_zeroes_red 1%positive 2 3 demo_table demo_state demo_image).
Defined.

(** C7.  With a flag that is not a [bool], each of [mono], [flip] and
    [rotate] raises [AssertionError] on any store whatsoever, and the
    store at the time of the exception is the store of the call. *)
Theorem non_boolean_flag_aborts img v s :
  is_bool v = false →
  mono img v s = Raise AssertionError s
  ∧ flip img v s = Raise AssertionError s
  ∧ rotate img v s = Raise AssertionError s.
Proof.
  intros Hv. unfold mono, flip, rotate, bind, py_assert. by rewrite Hv.
Qed.

Lemma non_boolean_flag_aborts_witness :
  is_bool (VInt 1) = false
  ∧ mono 1%positive (VInt 1) demo_state = Raise AssertionError demo_state
  ∧ flip 1%positive (VInt 1) demo_state = Raise AssertionError demo_state
  ∧ rotate 1%positive (VInt 1) demo_state = Raise AssertionError demo_state.
Proof.
  split; [reflexivity|].
  exact (non_boolean_flag_aborts 1%positive (VInt 1) demo_state eq_refl).
Defined.

(** C8.  Two calls of [transpose] in a row on a non-empty rectangular
    image buffer both return [True] and give back the [R]×[C] image with
    every pixel object where it was. *)
Theorem transpose_involution img R C t s :
  image_buffer (heap s) img R C t →
  ∃ s1 s2,
    transpose img s = Ok (VBool true) s1
    ∧ transpose img s1 = Ok (VBool true) s2
    ∧ image_buffer (heap s2) img R C t
    ∧ (∀ i j, pixel_at (heap s2) img i j = pixel_at (heap s) img i j)
    ∧ only_writes img (heap s) (heap s2)
    ∧ stdout s2 = stdout s.
Proof.
  intros Hbuf. pose proof Hbuf as [Ht Hrect HR HC Hpx].
  destruct (transpose_spec _ _ _ _ _ Hbuf) as (s1 & Hrun1 & Hbuf1 & Hw1 & Hout1).
  destruct (transpose_spec _ _ _ _ _ Hbuf1) as (s2 & Hrun2 & Hbuf2 & Hw2 & Hout2).
  rewrite (transposed_involutive R C) in Hbuf2 by done.
  pose proof (only_writes_trans _ _ _ _ Hw1 Hw2) as Hw.
  exists s1, s2. repeat (split; [done|]). split; [|split; [done|congruence]].
  intros i j. apply pixel_at_same_table with t; [done|by destruct Hbuf2|].
  intros p Hp. by eapply pixel_frame.
Qed.

Lemma transpose_involution_witness :
  image_buffer (heap demo_state) 1%positive 2 3 demo_table
  ∧ ∃ s1 s2,
      transpose 1%positive demo_state = Ok (VBool true) s1
      ∧ transpose 1%positive s1 = Ok (VBool true) s2
      ∧ image_buffer (heap s2) 1%positive 2 3 demo_table
      ∧ (∀ i j, pixel_at (heap s2) 1%positive i j
                = pixel_at (heap demo_state) 1%positive i j)
      ∧ only_writes 1%positive (heap demo_state) (heap s2)
      ∧ stdout s2 = stdout demo_state.
Proof.
  split; [exact demo_image|].
  exact (transpose_involution 1%positive 2 3 demo_table demo_state demo_image).
Defined.

(** C9.  Four calls of [rotate] in a row with the same flag, left or
    right, on a non-empty rectangular image buffer all return [True] and
    give back the [R]×[C] image with every pixel object where it was. *)
Theorem four_rotations_identity img R C t s (right : bool) :
  image_buffer (heap s) img R C t →
  ∃ s1 s2 s3 s4,
    rotate img (VBool right) s = Ok (VBool true) s1
    ∧ rotate img (VBool right) s1 = Ok (VBool true) s2
    ∧ rotate img (VBool right) s2 = Ok (VBool true) s3
    ∧ rotate img (VBool right) s3 = Ok (VBool true) s4
    ∧ image_buffer (heap s4) img R C t
    ∧ (∀ i j, pixel_at (heap s4) img i j = pixel_at (heap s) img i j)
    ∧ only_writes img (heap s) (heap s4)
    ∧ stdout s4 = stdout s.
Proof.
  intros Hbuf. pose proof Hbuf as [Ht Hrect HR HC Hpx].
  destruct (rotate_spec _ _ _ _ _ right Hbuf) as (s1 & Hrun1 & Hbuf1 & Hw1 & Hout1).
  destruct (rotate_spec _ _ _ _ _ right Hbuf1) as (s2 & Hrun2 & Hbuf2 & Hw2 & Hout2).
  destruct (rotate_spec _ _ _ _ _ right Hbuf2) as (s3 & Hrun3 & Hbuf3 & Hw3 & Hout3).
  destruct (rotate_spec _ _ _ _ _ right Hbuf3) as (s4 & Hrun4 & Hbuf4 & Hw4 & Hout4).
  rewrite (rotated_four_times R C) in Hbuf4 by done.
  pose proof (only_writes_trans _ _ _ _
    (only_writes_trans _ _ _ _ (only_writes_trans _ _ _ _ Hw1 Hw2) Hw3) Hw4) as Hw.
  exists s1, s2, s3, s4. repeat (split; [done|]).
  split; [|split; [done|congruence]].
  intros i j. apply pixel_at_same_table with t; [done|by destruct Hbuf4|].
  intros p Hp. by eapply pixel_frame.
Qed.

Lemma four_rotations_identity_witness :
  image_buffer (heap demo_state) 1%positive 2 3 demo_table
  ∧ ∃ s1 s2 s3 s4,
      rotate 1%positive (VBool false) demo_state = Ok (VBool true) s1
      ∧ rotate 1%positive (VBool false) s1 = Ok (VBool true) s2
      ∧ rotate 1%positive (VBool false) s2 = Ok (VBool true) s3
      ∧ rotate 1%positive (VBool false) s3 = Ok (VBool true) s4
      ∧ image_buffer (heap s4) 1%positive 2 3 demo_table
      ∧ (∀ i j, pixel_at (heap s4) 1%positive i j
                = pixel_at (heap demo_state) 1%positive i j)
      ∧ only_writes 1%positive (heap demo_state) (heap s4)
      ∧ stdout s4 = stdout demo_state.
Proof.
  split; [exact demo_image|].
  exact (four_rotations_identity 1%positive 2 3 demo_table demo_state false
           demo_image).
Defined.

(** C10.  On a non-empty rectangular image buffer and for either value of
    the flag, [flip], [transpose] and [rotate] each return [True] without
    writing to any pixel object, and the image afterwards holds the same
    pixel objects, so the same multiset of pixel values, as before. *)
Theorem relocation_preserves_pixels img R C t s (flag : bool) :
  image_buffer (heap s) img R C t →
  relocates img t s (flip img (VBool flag))
  ∧ relocates img t s (transpose img)
  ∧ relocates img t s (rotate img (VBool flag)).
Proof.
  intros Hbuf. pose proof Hbuf as [Ht Hrect HR HC Hpx].
  assert (Hvalues : ∀ call s' R' C' t',
            call s = Ok (VBool true) s' →
            image_buffer (heap s') img R' C' t' →
            (∀ p, p ∈ concat t → heap s' !! p = heap s !! p) →
            concat t' ≡ₚ concat t → relocates img t s call).
  { intros call s' R' C' t' Hrun Hbuf' Hframe Hperm.
    exists s', R', C', t'. repeat (split; [done|]).
    by apply pixel_values_relocated. }
  split; [|split].
  - destruct flag.
    + destruct (list_reverse_spec _ _ _ _ _ Hbuf)
        as (s' & Hrun & Hbuf' & _ & Hframe & _).
      apply (Hvalues _ s' R C (reverse t)); [|done| |].
      * by rewrite (flip_vertical_run _ _ _ _ _ Hbuf), Hrun.
      * intros p Hp. eapply pixel_frame; [done| |done].
        intros l Hl _. by apply Hframe.
      * by rewrite reverse_Permutation.
    + apply table_at_Some in Ht as (rows & Hrows & _).
      destruct (flip_rows_post_perm _ _ _ _ _ _ Hbuf Hrows)
        as (t' & Hbuf' & Hperm).
      eapply (Hvalues _ _ R C t'); [by eapply flip_horizontal_run|done| |].
      * intros p Hp. by eapply pixel_alter_all_list.
      * by apply Forall2_perm_concat.
  - destruct (transpose_spec _ _ _ _ _ Hbuf) as (s' & Hrun & Hbuf' & Hw & _).
    apply (Hvalues _ s' C R (transposed t)); [done|done| |].
    + intros p Hp. by eapply pixel_frame.
    + by apply concat_transposed with R C.
  - destruct (rotate_spec _ _ _ _ _ flag Hbuf) as (s' & Hrun & Hbuf' & Hw & _).
    apply (Hvalues _ s' C R (rotated flag t)); [done|done| |].
    + intros p Hp. by eapply pixel_frame.
    + by apply concat_rotated with R C.
Qed.

Lemma relocation_preserves_pixels_witness :
  image_buffer (heap demo_state) 1%positive 2 3 demo_table
  ∧ relocates 1%positive demo_table demo_state (flip 1%positive (VBool false))
  ∧ relocates 1%positive demo_table demo_state (transpose 1%positive)
  ∧ relocates 1%positive demo_table demo_state (rotate 1%positive (VBool false)).
Proof.
  split; [exact demo_image|].
  exact (relocation_preserves_pixels 1%positive 2 3 demo_table demo_state
           false demo_image).
Defined.

(** * Further properties of the plug-ins *)

(** ** The buffers that are not images, evaluated *)

Lemma long_row_table_at :
  table_at (heap long_row_state) 1%positive = Some long_row_table.
Proof. by vm_compute. Qed.

Lemma long_row_wide : wide 2 long_row_table.
Proof. repeat constructor. Qed.

Lemma short_row_table_at :
  table_at (heap short_row_state) 1%positive = Some short_row_table.
Proof. by vm_compute. Qed.

Lemma short_row_not_wide : ¬ wide 3 short_row_table.
Proof.
  intros Hw. apply Forall_cons in Hw as [_ Hw].
  apply Forall_cons in Hw as [Hlen _]. cbn in Hlen. lia.
Qed.

Lemma short_row_transpose_raises :
  transpose 1%positive short_row_state
  = Raise IndexError (final (transpose 1%positive short_row_state)).
Proof. by vm_compute. Qed.

Lemma short_row_rotate_left_raises :
  rotate 1%positive (VBool false) short_row_state
  = Raise IndexError (final (rotate 1%positive (VBool false) short_row_state)).
Proof. by vm_compute. Qed.

Lemma long_row_rotate_right_raises :
  rotate 1%positive (VBool true) long_row_state
  = Raise IndexError (final (rotate 1%positive (VBool true) long_row_state)).
Proof. by vm_compute. Qed.

Lemma empty_rows_table_at :
  table_at (heap empty_rows_state) 1%positive = Some [[]; []].
Proof. by vm_compute. Qed.

(** ** Reflecting twice *)

Lemma set_heap_set_heap s h1 h2 : set_heap (set_heap s h1) h2 = set_heap s h2.
Proof. done. Qed.

Lemma set_heap_id s : set_heap s (heap s) = s.
Proof. by destruct s. Qed.

Lemma alter_alter_all g l ls (h : gmap loc obj) :
  alter g l (alter_all g ls h) = alter_all g ls (alter g l h).
Proof.
  revert h. induction ls as [|l' ls IH]; intros h; [done|].
  rewrite !alter_all_cons, IH. f_equal.
  destruct (decide (l = l')) as [->|Hne]; [done|].
  by apply alter_alter_ne.
Qed.

Lemma alter_all_twice g ls (h : gmap loc obj) :
  (∀ o, g (g o) = o) → alter_all g ls (alter_all g ls h) = h.
Proof.
  intros Hg. revert h. induction ls as [|l ls IH]; intros h; [done|].
  rewrite !alter_all_cons, <- alter_alter_all.
  rewrite IH. rewrite alter_alter_eq. apply alter_id.
  intros o _. cbn. apply Hg.
Qed.

Lemma alter_all_idemp g ls (h : gmap loc obj) :
  (∀ o, g (g o) = g o) →
  alter_all g ls (alter_all g ls h) = alter_all g ls h.
Proof.
  intros Hg. apply map_eq. intros l.
  destruct (decide (l ∈ ls)) as [Hin|Hnotin].
  - rewrite !(lookup_alter_all_idemp g ls _ l Hg Hin).
    destruct (h !! l) as [o|]; cbn; [|done]. by rewrite Hg.
  - by rewrite !lookup_alter_all_notin.
Qed.

Lemma on_list_reverse_involutive o :
  on_list reverse (on_list reverse o) = o.
Proof. destruct o as [xs|c]; cbn; [|done]. by rewrite reverse_involutive. Qed.

(** X1.  On a non-empty rectangular image buffer, [flip] without the
    [vertical] flag run twice gives the very state it started from: every
    row object is reversed and reversed again.  Rows may be shared. *)
Theorem flip_horizontal_twice img R C t s :
  image_buffer (heap s) img R C t →
  ∃ s1, flip img (VBool false) s = Ok (VBool true) s1
    ∧ flip img (VBool false) s1 = Ok (VBool true) s.
Proof.
  intros Hbuf. pose proof Hbuf as [Ht _ _ _ _].
  apply table_at_Some in Ht as (rows & Hrows & _).
  destruct (flip_rows_post_perm _ _ _ _ _ _ Hbuf Hrows) as (t' & Hbuf' & _).
  eexists. split; [by eapply flip_horizontal_run|].
  assert (Hrows' : get_list (alter_all (on_list reverse) rows (heap s)) img
                   = Some rows).
  { unfold get_list.
    rewrite lookup_alter_all_notin
      by exact (image_not_row _ _ _ _ _ _ Hbuf Hrows).
    apply get_list_Some in Hrows. by rewrite Hrows. }
  erewrite flip_horizontal_run; [|exact Hbuf'|exact Hrows'].
  rewrite heap_set_heap, set_heap_set_heap.
  rewrite alter_all_twice by apply on_list_reverse_involutive.
  by rewrite set_heap_id.
Qed.

Lemma flip_horizontal_twice_witness :
  image_buffer (heap demo_state) 1%positive 2 3 demo_table
  ∧ ∃ s1, flip 1%positive (VBool false) demo_state = Ok (VBool true) s1
      ∧ flip 1%positive (VBool false) s1 = Ok (VBool true) demo_state.
Proof.
  split; [exact demo_image|].
  exact (flip_horizontal_twice 1%positive 2 3 demo_table demo_state demo_image).
Defined.

(** X2.  On a non-empty rectangular image buffer, [flip] with
    [vertical=True] run twice gives the very state it started from. *)
Theorem flip_vertical_twice img R C t s :
  image_buffer (heap s) img R C t →
  ∃ s1, flip img (VBool true) s = Ok (VBool true) s1
    ∧ flip img (VBool true) s1 = Ok (VBool true) s.
Proof.
  intros Hbuf. pose proof Hbuf as [Ht _ _ _ _].
  apply table_at_Some in Ht as (rows & Hrows & _).
  destruct (list_reverse_spec _ _ _ _ _ Hbuf)
    as (s1 & Hrun & Hbuf1 & _ & _ & _).
  exists s1. rewrite (flip_vertical_run _ _ _ _ _ Hbuf), Hrun.
  split; [done|]. rewrite (flip_vertical_run _ _ _ _ _ Hbuf1).
  unfold list_reverse in Hrun. rewrite (list_update_Ok _ _ _ _ Hrows) in Hrun.
  injection Hrun as <-.
  unfold list_reverse. erewrite list_update_Ok;
    [|rewrite heap_set_heap; apply get_list_insert].
  rewrite heap_set_heap, set_heap_set_heap, insert_insert_eq.
  rewrite reverse_involutive, insert_id by by apply get_list_Some.
  by rewrite set_heap_id.
Qed.

Lemma flip_vertical_twice_witness :
  image_buffer (heap demo_state) 1%positive 2 3 demo_table
  ∧ ∃ s1, flip 1%positive (VBool true) demo_state = Ok (VBool true) s1
      ∧ flip 1%positive (VBool true) s1 = Ok (VBool true) demo_state.
Proof.
  split; [exact demo_image|].
  exact (flip_vertical_twice 1%positive 2 3 demo_table demo_state demo_image).
Defined.

(** ** The two reflections commute *)

Lemma alter_all_reverse g ls (h : gmap loc obj) :
  alter_all g (reverse ls) h = alter_all g ls h.
Proof.
  revert h. induction ls as [|l ls IH]; intros h; [done|].
  rewrite reverse_cons, alter_all_snoc, IH, alter_all_cons.
  apply alter_alter_all.
Qed.

Lemma alter_all_insert_notin g ls l o (h : gmap loc obj) :
  l ∉ ls → alter_all g ls (<[l := o]> h) = <[l := o]> (alter_all g ls h).
Proof.
  revert h. induction ls as [|l' ls IH]; intros h Hl; [done|].
  apply not_elem_of_cons in Hl as [Hne Hl].
  rewrite !alter_all_cons, <- IH by done. f_equal.
  apply map_eq. intros k.
  destruct (decide (k = l')) as [->|Hk].
  - by rewrite lookup_alter_eq, !lookup_insert_ne, lookup_alter_eq by done.
  - rewrite lookup_alter_ne by done.
    destruct (decide (k = l)) as [->|Hkl].
    + by rewrite !lookup_insert_eq.
    + by rewrite !lookup_insert_ne, lookup_alter_ne by done.
Qed.

(** X3.  The two reflections commute: on a non-empty rectangular image
    buffer, a horizontal flip followed by a vertical one and a vertical
    flip followed by a horizontal one both return [True] and end in the
    same state. *)
Theorem flips_commute img R C t s :
  image_buffer (heap s) img R C t →
  ∃ s', (flip img (VBool false) ;; flip img (VBool true)) s
        = Ok (VBool true) s'
      ∧ (flip img (VBool true) ;; flip img (VBool false)) s
        = Ok (VBool true) s'.
Proof.
  intros Hbuf. pose proof Hbuf as [Ht _ _ _ _].
  apply table_at_Some in Ht as (rows & Hrows & _).
  pose proof (image_not_row _ _ _ _ _ _ Hbuf Hrows) as Hnotin.
  destruct (flip_rows_post_perm _ _ _ _ _ _ Hbuf Hrows) as (t1 & Hbuf1 & _).
  assert (Hrows1 : get_list (alter_all (on_list reverse) rows (heap s)) img
                   = Some rows).
  { unfold get_list. rewrite lookup_alter_all_notin by done. exact Hrows. }
  destruct (list_reverse_spec _ _ _ _ _ Hbuf) as (s2 & Hrun2 & Hbuf2 & _).
  unfold list_reverse in Hrun2. rewrite (list_update_Ok _ _ _ _ Hrows) in Hrun2.
  injection Hrun2 as <-.
  assert (Hrows2 : get_list (heap (set_heap s
                     (<[img := OList (reverse rows)]> (heap s)))) img
                   = Some (reverse rows)).
  { cbn [heap set_heap]. apply get_list_Some, lookup_insert_eq. }
  exists (set_heap s (<[img := OList (reverse rows)]>
            (alter_all (on_list reverse) rows (heap s)))).
  split.
  - rewrite (bind_Ok _ _ _ _ _ (flip_horizontal_run _ _ _ _ _ _ Hbuf Hrows)).
    rewrite (flip_vertical_run img R C t1) by exact Hbuf1.
    unfold list_reverse. by erewrite list_update_Ok by exact Hrows1.
  - rewrite (bind_Ok (flip img (VBool true)) _ s (VBool true)
               (set_heap s (<[img := OList (reverse rows)]> (heap s)))).
    + rewrite (flip_horizontal_run _ _ _ _ _ _ Hbuf2 Hrows2).
      cbn [heap set_heap].
      by rewrite alter_all_reverse, alter_all_insert_notin by done.
    + rewrite (flip_vertical_run _ _ _ _ _ Hbuf).
      unfold list_reverse. by rewrite (list_update_Ok _ _ _ _ Hrows).
Qed.

Lemma flips_commute_witness :
  image_buffer (heap demo_state) 1%positive 2 3 demo_table
  ∧ ∃ s', (flip 1%positive (VBool false) ;; flip 1%positive (VBool true))
            demo_state = Ok (VBool true) s'
        ∧ (flip 1%positive (VBool true) ;; flip 1%positive (VBool false))
            demo_state = Ok (VBool true) s'.
Proof.
  split; [exact demo_image|].
  exact (flips_commute 1%positive 2 3 demo_table demo_state demo_image).
Defined.

(** ** Rotations undone and repeated, empty buffers, [dered] twice *)

Lemma rotated_opposite {A} R C (t : list (list A)) (right : bool) :
  rect R C t → 0 < R → 0 < C → rotated (negb right) (rotated right t) = t.
Proof.
  intros Hr HR HC. destruct right; unfold rotated; cbn [negb].
  - rewrite (transposed_involutive R C) by (try apply rect_reverse; done).
    apply reverse_involutive.
  - rewrite reverse_involutive. by apply transposed_involutive with R C.
Qed.

(** X4.  A rotation followed by the rotation the other way returns
    [True] twice and gives back the image: the same dimensions, the same
    pixel at every position, no object other than the buffer written,
    nothing printed. *)
Theorem opposite_rotations_cancel img R C t s (right : bool) :
  image_buffer (heap s) img R C t →
  ∃ s1 s2,
    rotate img (VBool right) s = Ok (VBool true) s1
    ∧ rotate img (VBool (negb right)) s1 = Ok (VBool true) s2
    ∧ image_buffer (heap s2) img R C t
    ∧ (∀ i j, pixel_at (heap s2) img i j = pixel_at (heap s) img i j)
    ∧ only_writes img (heap s) (heap s2)
    ∧ stdout s2 = stdout s.
Proof.
  intros Hbuf. pose proof Hbuf as [Ht Hrect HR HC Hpx].
  destruct (rotate_spec _ _ _ _ _ right Hbuf)
    as (s1 & Hrun1 & Hbuf1 & Hw1 & Hout1).
  destruct (rotate_spec _ _ _ _ _ (negb right) Hbuf1)
    as (s2 & Hrun2 & Hbuf2 & Hw2 & Hout2).
  rewrite (rotated_opposite R C) in Hbuf2 by done.
  pose proof (only_writes_trans _ _ _ _ Hw1 Hw2) as Hw.
  exists s1, s2. repeat (split; [done|]). split; [|split; [done|congruence]].
  intros i j. apply pixel_at_same_table with t; [done|by destruct Hbuf2|].
  intros p Hp. by eapply pixel_frame.
Qed.

Lemma opposite_rotations_cancel_witness :
  image_buffer (heap demo_state) 1%positive 2 3 demo_table
  ∧ ∃ s1 s2,
      rotate 1%positive (VBool true) demo_state = Ok (VBool true) s1
      ∧ rotate 1%positive (VBool (negb true)) s1 = Ok (VBool true) s2
      ∧ image_buffer (heap s2) 1%positive 2 3 demo_table
      ∧ (∀ i j, pixel_at (heap s2) 1%positive i j
                = pixel_at (heap demo_state) 1%positive i j)
      ∧ only_writes 1%positive (heap demo_state) (heap s2)
      ∧ stdout s2 = stdout demo_state.
Proof.
  split; [exact demo_image|].
  exact (opposite_rotations_cancel 1%positive 2 3 demo_table demo_state true
           demo_image).
Defined.

Lemma cell_half_turn {A} R C (t : list (list A)) i j :
  rect R C t → i < R → j < C →
  cell (reverse (reverse <$> t)) i j = cell t (R - S i) (C - S j).
Proof.
  intros Hr Hi Hj.
  rewrite (cell_reverse R C) by (try apply rect_fmap_reverse; done).
  apply (cell_fmap_reverse R C); [done|lia|done].
Qed.

(** X5.  Two rotations the same way are a half turn: the pixel at row
    [i], column [j] is afterwards the one that was at row [R-1-i], column
    [C-1-j], whichever way the image was rotated. *)
Theorem two_rotations_half_turn img R C t s (right : bool) :
  image_buffer (heap s) img R C t →
  ∃ s1 s2,
    rotate img (VBool right) s = Ok (VBool true) s1
    ∧ rotate img (VBool right) s1 = Ok (VBool true) s2
    ∧ image_buffer (heap s2) img R C (reverse (reverse <$> t))
    ∧ (∀ i j, i < R → j < C →
         pixel_at (heap s2) img i j
         = pixel_at (heap s) img (R - S i) (C - S j)).
Proof.
  intros Hbuf. pose proof Hbuf as [Ht Hrect HR HC Hpx].
  destruct (rotate_spec _ _ _ _ _ right Hbuf)
    as (s1 & Hrun1 & Hbuf1 & Hw1 & Hout1).
  destruct (rotate_spec _ _ _ _ _ right Hbuf1)
    as (s2 & Hrun2 & Hbuf2 & Hw2 & Hout2).
  rewrite (rotated_twice R C) in Hbuf2 by done.
  pose proof (only_writes_trans _ _ _ _ Hw1 Hw2) as Hw.
  exists s1, s2. repeat (split; [done|]).
  intros i j Hi Hj.
  apply (pixel_at_relocated _ _ _ R C t (reverse (reverse <$> t)));
    [done|by destruct Hbuf2|by apply cell_half_turn|lia|lia|].
  intros p Hp. by eapply pixel_frame.
Qed.

Lemma two_rotations_half_turn_witness :
  image_buffer (heap demo_state) 1%positive 2 3 demo_table
  ∧ ∃ s1 s2,
      rotate 1%positive (VBool false) demo_state = Ok (VBool true) s1
      ∧ rotate 1%positive (VBool false) s1 = Ok (VBool true) s2
      ∧ image_buffer (heap s2) 1%positive 2 3
          (reverse (reverse <$> demo_table))
      ∧ (∀ i j, i < 2 → j < 3 →
           pixel_at (heap s2) 1%positive i j
           = pixel_at (heap demo_state) 1%positive (2 - S i) (3 - S j)).
Proof.
  split; [exact demo_image|].
  exact (two_rotations_half_turn 1%positive 2 3 demo_table demo_state false
           demo_image).
Defined.

Lemma list_get_empty img i s :
  get_list (heap s) img = Some [] → list_get img i s = Raise IndexError s.
Proof. unfold list_get. by intros ->. Qed.

(** X6.  On an empty buffer every plug-in raises [IndexError] at
    [image[0]] and leaves the state as it was. *)
Theorem empty_buffer_raises repr img s (flag : bool) :
  get_list (heap s) img = Some [] →
  display repr img s = Raise IndexError s
  ∧ dered img s = Raise IndexError s
  ∧ mono img (VBool flag) s = Raise IndexError s
  ∧ flip img (VBool flag) s = Raise IndexError s
  ∧ transpose img s = Raise IndexError s
  ∧ rotate img (VBool flag) s = Raise IndexError s.
Proof.
  intros Himg. pose proof (py_len_Ok _ _ _ Himg) as Hlen.
  pose proof (list_get_empty img 0 s Himg) as Hget.
  assert (Htr : transpose img s = Raise IndexError s).
  { unfold transpose. rewrite (bind_Ok _ _ _ _ _ Hlen).
    unfold bind at 1. by rewrite Hget. }
  repeat split; try done.
  - unfold display. rewrite (bind_Ok _ _ _ _ _ Hlen).
    unfold bind at 1. by rewrite Hget.
  - unfold dered. rewrite (bind_Ok _ _ _ _ _ Hlen).
    unfold bind at 1. by rewrite Hget.
  - unfold mono. cbn [is_bool py_assert]. rewrite bind_ret.
    rewrite (bind_Ok _ _ _ _ _ Hlen). unfold bind at 1. by rewrite Hget.
  - unfold flip. cbn [is_bool py_assert]. rewrite bind_ret.
    rewrite (bind_Ok _ _ _ _ _ Hlen). unfold bind at 1. by rewrite Hget.
  - destruct flag.
    + rewrite rotate_right_unfold.
      assert (Hrev : list_reverse img s = Ok tt s).
      { unfold list_reverse. rewrite (list_update_Ok _ _ _ _ Himg).
        rewrite insert_id by by apply get_list_Some. by rewrite set_heap_id. }
      rewrite (bind_Ok _ _ _ _ _ Hrev). unfold bind. by rewrite Htr.
    + rewrite rotate_left_unfold. unfold bind at 1. by rewrite Htr.
Qed.

Lemma empty_buffer_raises_witness :
  get_list (heap empty_state) 1%positive = Some []
  ∧ display (λ _, "RGB"%string) 1%positive empty_state
    = Raise IndexError empty_state
  ∧ dered 1%positive empty_state = Raise IndexError empty_state
  ∧ mono 1%positive (VBool true) empty_state = Raise IndexError empty_state
  ∧ flip 1%positive (VBool true) empty_state = Raise IndexError empty_state
  ∧ transpose 1%positive empty_state = Raise IndexError empty_state
  ∧ rotate 1%positive (VBool true) empty_state = Raise IndexError empty_state.
Proof.
  split; [reflexivity|].
  exact (empty_buffer_raises (λ _, "RGB"%string) 1%positive empty_state true
           eq_refl).
Defined.

(** X7.  [dered] is idempotent: on a non-empty rectangular image buffer a
    second call returns [True] and leaves the state of the first call as
    it is. *)
Theorem dered_twice img R C t s :
  image_buffer (heap s) img R C t →
  ∃ s1, dered img s = Ok (VBool true) s1
    ∧ dered img s1 = Ok (VBool true) s1.
Proof.
  intros Hbuf. eexists. split; [by apply dered_run with R C|].
  destruct (pixel_map_post (with_red 0) _ _ _ _ _ Hbuf) as (Hbuf1 & _ & _);
    [by right|].
  erewrite dered_run; [|rewrite heap_set_heap; exact Hbuf1].
  rewrite heap_set_heap, set_heap_set_heap.
  rewrite alter_all_idemp; [done|]. by apply on_pixel_idemp.
Qed.

Lemma dered_twice_witness :
  image_buffer (heap demo_state) 1%positive 2 3 demo_table
  ∧ ∃ s1, dered 1%positive demo_state = Ok (VBool true) s1
      ∧ dered 1%positive s1 = Ok (VBool true) s1.
Proof.
  split; [exact demo_image|].
  exact (dered_twice 1%positive 2 3 demo_table demo_state demo_image).
Defined.

(** X8.  On a non-empty rectangular image buffer, rotating right is a
    vertical flip followed by a transposition, and rotating left is a
    transposition followed by a vertical flip: the outcomes are equal. *)
Theorem rotate_is_flip_and_transpose img R C t s :
  image_buffer (heap s) img R C t →
  rotate img (VBool true) s = (flip img (VBool true) ;; transpose img) s
  ∧ rotate img (VBool false) s = (transpose img ;; flip img (VBool true)) s.
Proof.
  intros Hbuf. split.
  - destruct (list_reverse_spec _ _ _ _ _ Hbuf)
      as (s1 & Hrun1 & Hbuf1 & _).
    destruct (transpose_spec _ _ _ _ _ Hbuf1) as (s2 & Hrun2 & _).
    rewrite rotate_right_unfold.
    rewrite (bind_Ok _ _ _ _ _ Hrun1), (bind_Ok _ _ _ _ _ Hrun2).
    unfold bind at 1. rewrite (flip_vertical_run _ _ _ _ _ Hbuf), Hrun1.
    by rewrite Hrun2.
  - destruct (transpose_spec _ _ _ _ _ Hbuf) as (s1 & Hrun1 & Hbuf1 & _).
    destruct (list_reverse_spec _ _ _ _ _ Hbuf1) as (s2 & Hrun2 & _).
    rewrite rotate_left_unfold.
    rewrite !(bind_Ok _ _ _ _ _ Hrun1), (bind_Ok _ _ _ _ _ Hrun2).
    by rewrite (flip_vertical_run _ _ _ _ _ Hbuf1), Hrun2.
Qed.

Lemma rotate_is_flip_and_transpose_witness :
  image_buffer (heap demo_state) 1%positive 2 3 demo_table
  ∧ rotate 1%positive (VBool true) demo_state
    = (flip 1%positive (VBool true) ;; transpose 1%positive) demo_state
  ∧ rotate 1%positive (VBool false) demo_state
    = (transpose 1%positive ;; flip 1%positive (VBool true)) demo_state.
Proof.
  split; [exact demo_image|].
  exact (rotate_is_flip_and_transpose 1%positive 2 3 demo_table demo_state
           demo_image).
Defined.

(** ** What a call leaves behind when it raises *)

Lemma for_acc_outcome {A B} (I : nat → B → state → Prop)
    (E : exn → state → Prop) (xs : list A) (body : A → B → M B) acc s :
  I 0 acc s →
  (∀ i x a s1, xs !! i = Some x → I i a s1 →
     match body x a s1 with
     | Ok a2 s2 => I (S i) a2 s2
     | Raise e s2 => E e s2
     end) →
  match for_acc xs acc body s with
  | Ok acc' s' => I (length xs) acc' s'
  | Raise e s' => E e s'
  end.
Proof.
  revert I acc s. induction xs as [|x xs IH]; intros I acc s H0 Hstep; [done|].
  cbn [for_acc]. unfold bind.
  pose proof (Hstep 0 x acc s eq_refl H0) as Hx.
  destruct (body x acc s) as [a2 s2|e s2]; [|done].
  apply (IH (λ i, I (S i))); [done|].
  intros i y a1 s1 Hy. by apply (Hstep (S i)).
Qed.

Lemma for_range_outcome (I : nat → state → Prop) (E : exn → state → Prop)
    (n : nat) (body : nat → M unit) s :
  I 0 s →
  (∀ i s1, i < n → I i s1 →
     match body i s1 with
     | Ok _ s2 => I (S i) s2
     | Raise e s2 => E e s2
     end) →
  match for_range n body s with
  | Ok _ s' => I n s'
  | Raise e s' => E e s'
  end.
Proof.
  intros H0 Hstep. unfold for_range, for_each.
  pose proof (for_acc_outcome (λ i _, I i) E (seq 0 n) (λ x _, body x) tt s H0)
    as Hloop.
  rewrite length_seq in Hloop. apply Hloop.
  intros i x [] s1 Hx. apply lookup_seq in Hx as [-> Hi]. by apply Hstep.
Qed.

(** Reading never changes the store, whether it succeeds or raises. *)
Lemma list_get_outcome l i s :
  match list_get l i s with
  | Ok v s' => s' = s ∧ ∃ xs, get_list (heap s) l = Some xs ∧ xs !! i = Some v
  | Raise e s' =>
      s' = s ∧ (e = TypeError ∧ get_list (heap s) l = None
                ∨ e = IndexError ∧ ∃ xs, get_list (heap s) l = Some xs
                                        ∧ xs !! i = None)
  end.
Proof.
  unfold list_get. destruct (get_list (heap s) l) as [xs|]; [|by auto].
  destruct (xs !! i) as [v|] eqn:Hv; [by eauto|]. split; [done|]. right. eauto.
Qed.

Lemma list_append_Ok l v xs s :
  get_list (heap s) l = Some xs →
  list_append l v s = Ok tt (set_heap s (<[l := OList (xs ++ [v])]> (heap s))).
Proof. intros Hl. unfold list_append. by rewrite (list_update_Ok _ _ _ _ Hl). Qed.

Lemma building_insert_fresh h0 out res l o s :
  building h0 out res s → h0 !! l = None → l ≠ res →
  building h0 out res (set_heap s (<[l := o]> (heap s))).
Proof.
  intros (Hsub & Hout & Hres) Hl Hne. split; [|split; [done|]].
  - rewrite heap_set_heap. by apply insert_subseteq_r.
  - by rewrite heap_set_heap, get_list_insert_ne.
Qed.

Lemma building_insert_res h0 out res xs s :
  building h0 out res s → h0 !! res = None →
  building h0 out res (set_heap s (<[res := OList xs]> (heap s))).
Proof.
  intros (Hsub & Hout & Hres) Hl. split; [|split; [done|]].
  - rewrite heap_set_heap. by apply insert_subseteq_r.
  - rewrite heap_set_heap, get_list_insert. by eexists.
Qed.

Lemma transpose_inner_outcome h0 out res row img co n s :
  building h0 out res s → is_Some (get_list (heap s) row) →
  h0 !! row = None → row ≠ res →
  match for_range n (λ ro,
          r <~ list_get img ro ;; pixel <~ list_get r co ;;
          list_append row pixel) s with
  | Ok _ s' => building h0 out res s' ∧ is_Some (get_list (heap s') row)
  | Raise e s' => building h0 out res s'
  end.
Proof.
  intros Hb Hrow Hfresh Hne.
  apply (for_range_outcome
    (λ _ s1, building h0 out res s1 ∧ is_Some (get_list (heap s1) row))
    (λ _ s1, building h0 out res s1)); [done|].
  intros ro s1 _ [Hb1 [xs Hxs]]. unfold bind.
  pose proof (list_get_outcome img ro s1) as H1.
  destruct (list_get img ro s1) as [r s2|e s2]; destruct H1 as [-> H1]; [|done].
  pose proof (list_get_outcome r co s1) as H2.
  destruct (list_get r co s1) as [p s2|e s2]; destruct H2 as [-> H2]; [|done].
  rewrite (list_append_Ok _ _ _ _ Hxs). split.
  - by apply building_insert_fresh.
  - rewrite heap_set_heap, get_list_insert. by eexists.
Qed.

Lemma transpose_outer_outcome h0 out res img co n s :
  h0 !! res = None → building h0 out res s →
  match (row <~ new_list ;;
         for_range n (λ ro,
           r <~ list_get img ro ;; pixel <~ list_get r co ;;
           list_append row pixel) ;;
         list_append res row) s with
  | Ok _ s' => building h0 out res s'
  | Raise e s' => building h0 out res s'
  end.
Proof.
  intros Hres Hb. pose proof Hb as (Hsub & Hout & Hreslist).
  set (row := fresh (dom (heap s))).
  pose proof (new_list_fresh s) as Hrow. fold row in Hrow.
  assert (Hrowres : row ≠ res).
  { intros ->. destruct Hreslist as [xs Hxs%get_list_Some]. congruence. }
  assert (Hrow0 : h0 !! row = None).
  { destruct (h0 !! row) as [o|] eqn:Ho; [|done].
    pose proof (lookup_weaken _ _ _ _ Ho Hsub). congruence. }
  unfold bind at 1. cbn [new_list]. fold row.
  pose proof (transpose_inner_outcome h0 out res row img co n
    (set_heap s (<[row := OList []]> (heap s)))) as Hinner.
  unfold bind at 1.
  destruct (for_range n _ _) as [[] s1|e s1].
  - destruct Hinner as [Hb1 Hrow1]; try done.
    { by apply building_insert_fresh. }
    { rewrite heap_set_heap, get_list_insert. by eexists. }
    destruct Hb1 as (Hsub1 & Hout1 & [ys Hys]).
    rewrite (list_append_Ok _ _ _ _ Hys).
    by apply building_insert_res.
  - apply Hinner; try done.
    { by apply building_insert_fresh. }
    { rewrite heap_set_heap, get_list_insert. by eexists. }
Qed.

(** [transpose] on any store at all: it returns nothing but [True], and if
    it raises, every object that existed at the call is as it was. *)
Lemma transpose_outcome img s :
  match transpose img s with
  | Ok v s' =>
      v = VBool true ∧ is_Some (get_list (heap s') img) ∧ stdout s' = stdout s
  | Raise e s' => heap s ⊆ heap s' ∧ stdout s' = stdout s
  end.
Proof.
  unfold transpose. unfold bind at 1. unfold py_len at 1.
  destruct (get_list (heap s) img) as [rows|] eqn:Hrows; [|done].
  unfold bind at 1. pose proof (list_get_outcome img 0 s) as H0.
  destruct (list_get img 0 s) as [r0 s0|e s0]; destruct H0 as [-> H0]; [|done].
  unfold bind at 1. unfold py_len at 1.
  destruct (get_list (heap s) r0) as [xs0|] eqn:Hxs0; [|done].
  unfold bind at 1. cbn [new_list].
  set (res := fresh (dom (heap s))).
  pose proof (new_list_fresh s) as Hres. fold res in Hres.
  assert (Hb0 : building (heap s) (stdout s) res
                  (set_heap s (<[res := OList []]> (heap s)))).
  { split; [by apply insert_subseteq|]. split; [done|].
    rewrite heap_set_heap, get_list_insert. by eexists. }
  pose proof (for_range_outcome
    (λ _ s1, building (heap s) (stdout s) res s1)
    (λ _ s1, building (heap s) (stdout s) res s1)
    (length xs0)
    (λ co, row <~ new_list ;;
       for_range (length rows) (λ ro,
         r <~ list_get img ro ;; pixel <~ list_get r co ;;
         list_append row pixel) ;;
       list_append res row)
    _ Hb0) as Hloop.
  unfold bind at 1.
  destruct (for_range (length xs0) _ _) as [[] s1|e s1].
  - destruct Hloop as (Hsub & Hout & [newrows Hnew]).
    { intros co s1' _ Hb. by apply transpose_outer_outcome. }
    assert (Himg1 : get_list (heap s1) img = Some rows)
      by by eapply get_list_weaken.
    assert (Hne : img ≠ res).
    { intros ->. apply get_list_Some in Hrows. congruence. }
    unfold list_clear. erewrite bind_Ok; [|by eapply list_update_Ok].
    erewrite bind_Ok; [|eapply list_items_Ok;
      by rewrite heap_set_heap, get_list_insert_ne].
    erewrite bind_Ok;
      [|apply append_loop; rewrite heap_set_heap; apply get_list_insert].
    unfold ret. split; [done|]. split; [|done].
    rewrite heap_set_heap, get_list_insert. by eexists.
  - destruct Hloop as (Hsub & Hout & _); [|done].
    intros co s1' _ Hb. by apply transpose_outer_outcome.
Qed.

(** X9.  When [transpose] raises, on whatever store, every object that
    existed at the call is as it was, the buffer included, and nothing has
    been printed: the exception comes before [image.clear()]. *)
Theorem transpose_failure_leaves_store img s e s' :
  transpose img s = Raise e s' →
  heap s ⊆ heap s' ∧ stdout s' = stdout s.
Proof.
  intros Hrun. pose proof (transpose_outcome img s) as H. by rewrite Hrun in H.
Qed.

Lemma transpose_failure_leaves_store_witness :
  transpose 1%positive short_row_state
  = Raise IndexError (final (transpose 1%positive short_row_state))
  ∧ heap short_row_state
    ⊆ heap (final (transpose 1%positive short_row_state))
  ∧ stdout (final (transpose 1%positive short_row_state))
    = stdout short_row_state.
Proof.
  split; [exact short_row_transpose_raises|].
  exact (transpose_failure_leaves_store 1%positive short_row_state IndexError
           _ short_row_transpose_raises).
Defined.

(** X10.  When a rotation to the left raises, on whatever store, every
    object that existed at the call is as it was and nothing has been
    printed. *)
Theorem rotate_left_failure_leaves_store img s e s' :
  rotate img (VBool false) s = Raise e s' →
  heap s ⊆ heap s' ∧ stdout s' = stdout s.
Proof.
  rewrite rotate_left_unfold. unfold bind at 1.
  pose proof (transpose_outcome img s) as H.
  destruct (transpose img s) as [v s1|e1 s1].
  - destruct H as (_ & [xs Hxs] & _). unfold list_reverse.
    by rewrite (bind_Ok _ _ _ _ _ (list_update_Ok _ _ _ _ Hxs)).
  - by intros [= <- <-].
Qed.

Lemma rotate_left_failure_leaves_store_witness :
  rotate 1%positive (VBool false) short_row_state
  = Raise IndexError (final (rotate 1%positive (VBool false) short_row_state))
  ∧ heap short_row_state
    ⊆ heap (final (rotate 1%positive (VBool false) short_row_state))
  ∧ stdout (final (rotate 1%positive (VBool false) short_row_state))
    = stdout short_row_state.
Proof.
  split; [exact short_row_rotate_left_raises|].
  exact (rotate_left_failure_leaves_store 1%positive short_row_state
           IndexError _ short_row_rotate_left_raises).
Defined.

(** X11.  When a rotation to the right raises, either the buffer was no
    list and nothing happened, or the buffer is left with its rows in
    reverse order: the failure of the transposition does not undo
    [image.reverse()].  Everything else is as it was. *)
Theorem rotate_right_failure_leaves_reversed img s e s' :
  rotate img (VBool true) s = Raise e s' →
  (get_list (heap s) img = None ∧ s' = s)
  ∨ ∃ rows, get_list (heap s) img = Some rows
      ∧ <[img := OList (reverse rows)]> (heap s) ⊆ heap s'
      ∧ stdout s' = stdout s.
Proof.
  rewrite rotate_right_unfold. unfold bind at 1. unfold list_reverse, list_update.
  destruct (get_list (heap s) img) as [rows|] eqn:Hrows.
  - intros Hrun. right. exists rows. split; [done|].
    unfold bind in Hrun.
    pose proof (transpose_outcome img
      (set_heap s (<[img := OList (reverse rows)]> (heap s)))) as H.
    destruct (transpose img _) as [v s1|e1 s1]; [done|].
    by injection Hrun as <- <-.
  - intros [= <- <-]. by left.
Qed.

Lemma rotate_right_failure_leaves_reversed_witness :
  rotate 1%positive (VBool true) long_row_state
  = Raise IndexError (final (rotate 1%positive (VBool true) long_row_state))
  ∧ ((get_list (heap long_row_state) 1%positive = None
      ∧ final (rotate 1%positive (VBool true) long_row_state)
        = long_row_state)
     ∨ ∃ rows, get_list (heap long_row_state) 1%positive = Some rows
         ∧ <[1%positive := OList (reverse rows)]> (heap long_row_state)
           ⊆ heap (final (rotate 1%positive (VBool true) long_row_state))
         ∧ stdout (final (rotate 1%positive (VBool true) long_row_state))
           = stdout long_row_state).
Proof.
  split; [exact long_row_rotate_right_raises|].
  exact (rotate_right_failure_leaves_reversed 1%positive long_row_state
           IndexError _ long_row_rotate_right_raises).
Defined.

(** ** [transpose] on buffers that are not rectangular *)

Lemma wide_mono {A} C C' (t : list (list A)) : C' ≤ C → wide C t → wide C' t.
Proof.
  intros HC Hw. eapply Forall_impl; [exact Hw|]. intros r Hr. cbn in *. lia.
Qed.

Lemma wide_row {A} C (t : list (list A)) i r :
  wide C t → t !! i = Some r → C ≤ length r.
Proof. intros Hw Hi. exact (Forall_lookup_1 _ _ _ _ Hw Hi). Qed.

Lemma column_lookup_wide {A} (t : list (list A)) co i :
  wide (S co) t → column co t !! i = cell t i co.
Proof.
  intros Hw. unfold cell, column. revert i.
  induction Hw as [|r t Hr Hw IH]; intros i; [done|].
  destruct (lookup_lt_is_Some_2 r co) as [x Hx]; [lia|].
  cbn. rewrite Hx. destruct i as [|i]; cbn; [done|]. apply IH.
Qed.

Lemma length_column_wide {A} (t : list (list A)) co :
  wide (S co) t → length (column co t) = length t.
Proof.
  intros Hw. unfold column. induction Hw as [|r t Hr Hw IH]; [done|].
  destruct (lookup_lt_is_Some_2 r co) as [x Hx]; [lia|].
  cbn. rewrite Hx. cbn. by rewrite IH.
Qed.

Lemma cell_columns_wide {A} C (t : list (list A)) i j :
  wide C t → i < C → cell (columns C t) i j = cell t j i.
Proof.
  intros Hw Hi. unfold cell at 1, columns.
  rewrite list_lookup_fmap, lookup_seq_lt by done. cbn.
  apply column_lookup_wide. eapply wide_mono; [|done]. lia.
Qed.

Lemma transpose_inner_wide h img t co row s :
  table_at h img = Some t → wide (S co) t →
  h ⊆ heap s → heap s !! row = None →
  for_range (length t) (λ ro,
    r <~ list_get img ro ;; pixel <~ list_get r co ;; list_append row pixel)
    (set_heap s (<[row := OList []]> (heap s)))
  = Ok tt (set_heap s (<[row := OList (column co t)]> (heap s))).
Proof.
  intros Ht Hw Hsub Hrow.
  apply table_at_Some in Ht as (rows & Hrows & Hall).
  pose proof (Forall2_length _ _ _ Hall) as Hlen.
  pose proof (length_column_wide _ _ Hw) as Hcol.
  assert (Hne : ∀ l xs, get_list h l = Some xs → row ≠ l).
  { intros l xs Hl%(get_list_weaken _ _ _ _ Hsub)%get_list_Some ->. congruence. }
  destruct (for_range_inv
    (λ ro s1, s1 = set_heap s (<[row := OList (take ro (column co t))]> (heap s)))
    (length t) (λ ro, r <~ list_get img ro ;; pixel <~ list_get r co ;;
             list_append row pixel)
    (set_heap s (<[row := OList []]> (heap s)))) as (s' & Hrun & Hend).
  - by rewrite take_0.
  - intros ro s1 Hro ->.
    destruct (lookup_lt_is_Some_2 t ro) as [xs Hxs]; [lia|].
    destruct (Forall2_lookup_r _ _ _ _ _ Hall Hxs) as (r & Hr & Hget).
    cbn beta in Hget.
    destruct (lookup_lt_is_Some_2 xs co) as [p Hp];
      [pose proof (wide_row _ _ _ _ Hw Hxs); lia|].
    assert (Hcell : column co t !! ro = Some p).
    { rewrite (column_lookup_wide _ _ _ Hw). unfold cell. by rewrite Hxs. }
    eexists. split.
    + erewrite bind_Ok; [|eapply list_get_Ok; [|exact Hr]];
        [|rewrite heap_set_heap, get_list_insert_ne by eauto;
          by eapply get_list_weaken].
      erewrite bind_Ok; [|eapply list_get_Ok; [|exact Hp]];
        [|rewrite heap_set_heap, get_list_insert_ne by (eapply Hne; exact Hget);
          by eapply get_list_weaken].
      rewrite (list_append_Ok _ _ (take ro (column co t)));
        [done|rewrite heap_set_heap; apply get_list_insert].
    + unfold set_heap. cbn. f_equal.
      by rewrite insert_insert_eq, (take_S_r _ _ _ Hcell).
  - rewrite Hrun, Hend. by rewrite take_ge by lia.
Qed.

Lemma transpose_outer_step_wide h0 out res img t co s :
  table_at h0 img = Some t → wide (S co) t → h0 !! res = None →
  transpose_outer_inv h0 out res t co s →
  ∃ s', (row <~ new_list ;;
         for_range (length t) (λ ro,
           r <~ list_get img ro ;; pixel <~ list_get r co ;;
           list_append row pixel) ;;
         list_append res row) s = Ok tt s'
        ∧ transpose_outer_inv h0 out res t (S co) s'.
Proof.
  intros Ht Hw Hres (Hout & Hsub & newrows & Hnew & Hall & Hfresh).
  set (row := fresh (dom (heap s))).
  pose proof (new_list_fresh s) as Hrow. fold row in Hrow.
  assert (Hrowres : row ≠ res).
  { intros ->. apply get_list_Some in Hnew. congruence. }
  assert (Hrow0 : h0 !! row = None).
  { destruct (h0 !! row) as [o|] eqn:Ho; [|done].
    pose proof (lookup_weaken _ _ _ _ Ho Hsub). congruence. }
  eexists. split.
  - unfold bind at 1. cbn. fold row.
    erewrite bind_Ok; [|by eapply transpose_inner_wide].
    unfold list_append. erewrite list_update_Ok; [done|].
    by rewrite heap_set_heap, get_list_insert_ne.
  - unfold transpose_outer_inv. cbn [heap set_heap stdout].
    split; [done|]. split.
    { apply insert_subseteq_r; [done|]. by apply insert_subseteq_r. }
    exists (newrows ++ [row]). split; [apply get_list_insert|]. split.
    + rewrite columns_S. apply Forall2_app.
      * rewrite Forall_forall in Hfresh.
        apply Forall2_same_length_lookup. split; [by eapply Forall2_length|].
        intros i r xs Hr Hxs.
        pose proof (Forall2_lookup_lr _ _ _ _ _ _ Hall Hr Hxs) as Hget.
        destruct (Hfresh r (list_elem_of_lookup_2 _ _ _ Hr)) as [Hne _].
        cbn beta in *.
        rewrite !get_list_insert_ne; [done| |done].
        intros ->. apply get_list_Some in Hget. congruence.
      * constructor; [|constructor].
        rewrite get_list_insert_ne by done. apply get_list_insert.
    + apply Forall_app. split; [done|]. constructor; [|constructor]. done.
Qed.

(** X12.  [transpose] needs no rectangle: when every row is at least as
    long as the first, it returns [True] and the buffer becomes the
    transposition of the first [len(image[0])] columns; what the longer
    rows hold beyond that width is dropped.  No object other than the
    buffer is written and nothing is printed. *)
Theorem transpose_keeps_first_row_width img t r0 s :
  table_at (heap s) img = Some t → t !! 0 = Some r0 →
  wide (length r0) t →
  ∃ s' t',
    transpose img s = Ok (VBool true) s'
    ∧ table_at (heap s') img = Some t'
    ∧ rect (length r0) (length t) t'
    ∧ (∀ i j, i < length r0 → cell t' i j = cell t j i)
    ∧ only_writes img (heap s) (heap s')
    ∧ stdout s' = stdout s.
Proof.
  intros Ht Hr0 Hw. pose proof Ht as Ht0.
  apply table_at_Some in Ht as (rows & Hrows & Hall0).
  pose proof (Forall2_length _ _ _ Hall0) as Hlen.
  destruct (Forall2_lookup_r _ _ _ _ _ Hall0 Hr0) as (l0 & Hl0 & Hget0).
  cbn beta in Hget0.
  set (res := fresh (dom (heap s))).
  pose proof (new_list_fresh s) as Hres. fold res in Hres.
  destruct (for_range_inv
    (transpose_outer_inv (heap s) (stdout s) res t) (length r0)
    (λ co, row <~ new_list ;;
       for_range (length t) (λ ro,
         r <~ list_get img ro ;; pixel <~ list_get r co ;;
         list_append row pixel) ;;
       list_append res row)
    (set_heap s (<[res := OList []]> (heap s))))
    as (s1 & Hrun & Hout & Hsub & newrows & Hnew & Hall & Hfresh).
  - split; [done|]. split; [by apply insert_subseteq|].
    exists []. rewrite heap_set_heap. split; [apply get_list_insert|].
    split; constructor.
  - intros co s1 Hco Hinv. eapply transpose_outer_step_wide; try done.
    eapply wide_mono; [|done]. lia.
  - assert (Himg1 : get_list (heap s1) img = Some rows)
      by by eapply get_list_weaken.
    assert (Hresimg : img ≠ res).
    { intros ->. apply get_list_Some in Hrows. congruence. }
    eexists _, (columns (length r0) t). split; [|split; [|split; [|split; [|split]]]].
    + unfold transpose.
      rewrite (bind_Ok _ _ _ _ _ (py_len_Ok _ _ _ Hrows)), Hlen.
      rewrite (bind_Ok _ _ _ _ _ (list_get_Ok _ _ _ _ _ Hrows Hl0)).
      rewrite (bind_Ok _ _ _ _ _ (py_len_Ok _ _ _ Hget0)).
      unfold bind at 1. cbn [new_list]. fold res.
      rewrite (bind_Ok _ _ _ _ _ Hrun).
      unfold list_clear. erewrite bind_Ok; [|by eapply list_update_Ok].
      erewrite bind_Ok; [|eapply list_items_Ok;
        by rewrite heap_set_heap, get_list_insert_ne].
      erewrite bind_Ok; [done|].
      apply append_loop. rewrite heap_set_heap. apply get_list_insert.
    + cbn [heap set_heap]. rewrite insert_insert_eq.
      apply table_at_Some. exists newrows. split; [apply get_list_insert|].
      rewrite Forall_forall in Hfresh.
      apply Forall2_same_length_lookup. split; [by eapply Forall2_length|].
      intros i r xs Hr Hxs.
      pose proof (Forall2_lookup_lr _ _ _ _ _ _ Hall Hr Hxs) as Hget.
      destruct (Hfresh r (list_elem_of_lookup_2 _ _ _ Hr)) as [_ Hnone].
      cbn beta in *. rewrite get_list_insert_ne; [done|].
      intros ->. apply get_list_Some in Hrows. congruence.
    + split; [unfold columns; by rewrite length_fmap, length_seq|].
      apply Forall_forall. intros r Hin. unfold columns in Hin.
      apply list_elem_of_fmap in Hin as (co & -> & Hco).
      apply elem_of_seq in Hco. apply length_column_wide.
      eapply wide_mono; [|done]. lia.
    + intros i j Hi. by apply cell_columns_wide.
    + intros l Hl [o Ho]. cbn [heap set_heap].
      rewrite insert_insert_eq, lookup_insert_ne by done.
      rewrite Ho. by eapply lookup_weaken.
    + done.
Qed.

Lemma transpose_keeps_first_row_width_witness :
  (table_at (heap long_row_state) 1%positive = Some long_row_table
   ∧ long_row_table !! 0 = Some [10; 11]%positive
   ∧ wide (length [10; 11]%positive) long_row_table)
  ∧ ∃ s' t',
      transpose 1%positive long_row_state = Ok (VBool true) s'
      ∧ table_at (heap s') 1%positive = Some t'
      ∧ rect (length [10; 11]%positive) (length long_row_table) t'
      ∧ (∀ i j, i < length [10; 11]%positive →
           cell t' i j = cell long_row_table j i)
      ∧ only_writes 1%positive (heap long_row_state) (heap s')
      ∧ stdout s' = stdout long_row_state.
Proof.
  split; [exact (conj long_row_table_at (conj eq_refl long_row_wide))|].
  exact (transpose_keeps_first_row_width 1%positive long_row_table
           [10; 11]%positive long_row_state long_row_table_at eq_refl
           long_row_wide).
Defined.

(** X13.  When the first row is empty, [transpose] returns [True] and
    leaves the buffer empty, so that a second call raises
    [IndexError]. *)
Theorem transpose_of_empty_rows img t s :
  table_at (heap s) img = Some t → t !! 0 = Some [] →
  ∃ s', transpose img s = Ok (VBool true) s'
    ∧ get_list (heap s') img = Some []
    ∧ transpose img s' = Raise IndexError s'.
Proof.
  intros Ht H0.
  apply table_at_Some in Ht as (rows & Hrows & Hall).
  destruct (Forall2_lookup_r _ _ _ _ _ Hall H0) as (l0 & Hl0 & Hget0).
  cbn beta in Hget0.
  set (res := fresh (dom (heap s))).
  pose proof (new_list_fresh s) as Hres. fold res in Hres.
  assert (Hresimg : img ≠ res).
  { intros ->. apply get_list_Some in Hrows. congruence. }
  set (s' := set_heap s (<[img := OList []]> (<[res := OList []]> (heap s)))).
  assert (Himg' : get_list (heap s') img = Some []) by apply get_list_insert.
  exists s'. split; [|split; [done|]].
  - unfold transpose.
    rewrite (bind_Ok _ _ _ _ _ (py_len_Ok _ _ _ Hrows)).
    rewrite (bind_Ok _ _ _ _ _ (list_get_Ok _ _ _ _ _ Hrows Hl0)).
    rewrite (bind_Ok _ _ _ _ _ (py_len_Ok _ _ _ Hget0)).
    unfold bind at 1. cbn [new_list]. fold res.
    cbn [length for_range seq for_each for_acc]. rewrite bind_ret.
    unfold list_clear.
    erewrite bind_Ok;
      [|eapply list_update_Ok; by rewrite heap_set_heap, get_list_insert_ne].
    erewrite bind_Ok;
      [|eapply list_items_Ok;
        rewrite !heap_set_heap, get_list_insert_ne by done;
        apply get_list_insert].
    done.
  - unfold transpose. rewrite (bind_Ok _ _ _ _ _ (py_len_Ok _ _ _ Himg')).
    unfold bind at 1. by rewrite (list_get_empty img 0 _ Himg').
Qed.

Lemma transpose_of_empty_rows_witness :
  (table_at (heap empty_rows_state) 1%positive = Some [[]; []]
   ∧ [[]; []] !! 0 = Some ([] : list loc))
  ∧ ∃ s', transpose 1%positive empty_rows_state = Ok (VBool true) s'
      ∧ get_list (heap s') 1%positive = Some []
      ∧ transpose 1%positive s' = Raise IndexError s'.
Proof.
  split; [exact (conj empty_rows_table_at eq_refl)|].
  exact (transpose_of_empty_rows 1%positive [[]; []] empty_rows_state
           empty_rows_table_at eq_refl).
Defined.

Lemma transpose_inner_outcome_table h0 out res row img rows t co s :
  get_list h0 img = Some rows →
  Forall2 (λ r xs, get_list h0 r = Some xs) rows t →
  building h0 out res s → is_Some (get_list (heap s) row) →
  h0 !! row = None → row ≠ res →
  match for_range (length rows) (λ ro,
          r <~ list_get img ro ;; pixel <~ list_get r co ;;
          list_append row pixel) s with
  | Ok _ s' => building h0 out res s' ∧ wide (S co) t
  | Raise e _ => e = IndexError
  end.
Proof.
  intros Hrows Hall Hb Hrow Hfresh Hne.
  pose proof (Forall2_length _ _ _ Hall) as Hlen.
  pose proof (for_range_outcome
    (λ ro s1, building h0 out res s1 ∧ is_Some (get_list (heap s1) row)
              ∧ ∀ ro' xs, ro' < ro → t !! ro' = Some xs → co < length xs)
    (λ e _, e = IndexError) (length rows)
    (λ ro, r <~ list_get img ro ;; pixel <~ list_get r co ;;
           list_append row pixel) s) as Hloop.
  destruct (for_range (length rows) _ s) as [[] s1|e s1].
  - destruct Hloop as (Hb1 & _ & Hwide).
    + split; [done|]. split; [done|]. intros ro' xs Hlt. lia.
    + intros ro s1' Hro (Hb1 & [ys Hys] & Hprev).
      pose proof Hb1 as (Hsub & _ & _).
      destruct (lookup_lt_is_Some_2 rows ro) as [r Hr]; [done|].
      destruct (Forall2_lookup_l _ _ _ _ _ Hall Hr) as (xs & Hxs & Hget).
      cbn beta in Hget.
      rewrite (bind_Ok _ _ _ _ _
        (list_get_Ok _ _ _ _ _ (get_list_weaken _ _ _ _ Hsub Hrows) Hr)).
      unfold bind at 1, list_get.
      rewrite (get_list_weaken _ _ _ _ Hsub Hget).
      destruct (xs !! co) as [p|] eqn:Hp; [|done].
      rewrite (list_append_Ok _ _ _ _ Hys).
      split; [by apply building_insert_fresh|]. split.
      * rewrite heap_set_heap, get_list_insert. by eexists.
      * intros ro' xs' Hlt Hxs'. destruct (decide (ro' = ro)) as [->|].
        -- assert (xs' = xs) as -> by congruence. by eapply lookup_lt_Some.
        -- apply (Hprev ro'); [lia|done].
    + split; [done|]. apply Forall_lookup. intros i xs Hxs.
      apply (Hwide i xs); [|done]. rewrite Hlen. by eapply lookup_lt_Some.
  - apply Hloop.
    + split; [done|]. split; [done|]. intros ro' xs Hlt. lia.
    + intros ro s1' Hro (Hb1 & [ys Hys] & Hprev).
      pose proof Hb1 as (Hsub & _ & _).
      destruct (lookup_lt_is_Some_2 rows ro) as [r Hr]; [done|].
      destruct (Forall2_lookup_l _ _ _ _ _ Hall Hr) as (xs & Hxs & Hget).
      cbn beta in Hget.
      rewrite (bind_Ok _ _ _ _ _
        (list_get_Ok _ _ _ _ _ (get_list_weaken _ _ _ _ Hsub Hrows) Hr)).
      unfold bind at 1, list_get.
      rewrite (get_list_weaken _ _ _ _ Hsub Hget).
      destruct (xs !! co) as [p|] eqn:Hp; [|done].
      rewrite (list_append_Ok _ _ _ _ Hys).
      split; [by apply building_insert_fresh|]. split.
      * rewrite heap_set_heap, get_list_insert. by eexists.
      * intros ro' xs' Hlt Hxs'. destruct (decide (ro' = ro)) as [->|].
        -- assert (xs' = xs) as -> by congruence. by eapply lookup_lt_Some.
        -- apply (Hprev ro'); [lia|done].
Qed.

Lemma transpose_outer_outcome_table h0 out res img rows t co s :
  get_list h0 img = Some rows →
  Forall2 (λ r xs, get_list h0 r = Some xs) rows t →
  h0 !! res = None → building h0 out res s →
  match (row <~ new_list ;;
         for_range (length rows) (λ ro,
           r <~ list_get img ro ;; pixel <~ list_get r co ;;
           list_append row pixel) ;;
         list_append res row) s with
  | Ok _ s' => building h0 out res s' ∧ wide (S co) t
  | Raise e _ => e = IndexError
  end.
Proof.
  intros Hrows Hall Hres Hb. pose proof Hb as (Hsub & Hout & Hreslist).
  set (row := fresh (dom (heap s))).
  pose proof (new_list_fresh s) as Hrow. fold row in Hrow.
  assert (Hrowres : row ≠ res).
  { intros ->. destruct Hreslist as [xs Hxs%get_list_Some]. congruence. }
  assert (Hrow0 : h0 !! row = None).
  { destruct (h0 !! row) as [o|] eqn:Ho; [|done].
    pose proof (lookup_weaken _ _ _ _ Ho Hsub). congruence. }
  unfold bind at 1. cbn [new_list]. fold row.
  pose proof (transpose_inner_outcome_table h0 out res row img rows t co
    (set_heap s (<[row := OList []]> (heap s))) Hrows Hall) as Hinner.
  unfold bind at 1.
  destruct (for_range (length rows) _ _) as [[] s1|e s1].
  - destruct Hinner as [Hb1 Hw]; try done.
    { by apply building_insert_fresh. }
    { rewrite heap_set_heap, get_list_insert. by eexists. }
    pose proof Hb1 as (Hsub1 & Hout1 & [ys Hys]).
    rewrite (list_append_Ok _ _ _ _ Hys).
    split; [by apply building_insert_res|done].
  - apply Hinner; try done.
    { by apply building_insert_fresh. }
    { rewrite heap_set_heap, get_list_insert. by eexists. }
Qed.

(** The outcome of [transpose] on a table of lists: success means that no
    row was shorter than the first, and the only exception is an
    [IndexError]. *)
Lemma transpose_outcome_table img t r0 s :
  table_at (heap s) img = Some t → t !! 0 = Some r0 →
  match transpose img s with
  | Ok _ _ => wide (length r0) t
  | Raise e _ => e = IndexError
  end.
Proof.
  intros Ht Hr0.
  apply table_at_Some in Ht as (rows & Hrows & Hall0).
  pose proof (Forall2_length _ _ _ Hall0) as Hlen.
  destruct (Forall2_lookup_r _ _ _ _ _ Hall0 Hr0) as (l0 & Hl0 & Hget0).
  cbn beta in Hget0.
  set (res := fresh (dom (heap s))).
  pose proof (new_list_fresh s) as Hres. fold res in Hres.
  unfold transpose.
  rewrite (bind_Ok _ _ _ _ _ (py_len_Ok _ _ _ Hrows)).
  rewrite (bind_Ok _ _ _ _ _ (list_get_Ok _ _ _ _ _ Hrows Hl0)).
  rewrite (bind_Ok _ _ _ _ _ (py_len_Ok _ _ _ Hget0)).
  unfold bind at 1. cbn [new_list]. fold res.
  assert (Hb0 : building (heap s) (stdout s) res
                  (set_heap s (<[res := OList []]> (heap s)))).
  { split; [by apply insert_subseteq|]. split; [done|].
    rewrite heap_set_heap, get_list_insert. by eexists. }
  assert (Hw0 : wide 0 t).
  { apply Forall_forall. intros r _. cbn. lia. }
  pose proof (for_range_outcome
    (λ co s1, building (heap s) (stdout s) res s1 ∧ wide co t)
    (λ e _, e = IndexError)
    (length r0)
    (λ co, row <~ new_list ;;
       for_range (length rows) (λ ro,
         r <~ list_get img ro ;; pixel <~ list_get r co ;;
         list_append row pixel) ;;
       list_append res row)
    (set_heap s (<[res := OList []]> (heap s))) (conj Hb0 Hw0)) as Hloop.
  assert (Hstep : ∀ co s1, co < length r0 →
    building (heap s) (stdout s) res s1 ∧ wide co t →
    match (row <~ new_list ;;
           for_range (length rows) (λ ro,
             r <~ list_get img ro ;; pixel <~ list_get r co ;;
             list_append row pixel) ;;
           list_append res row) s1 with
    | Ok _ s2 => building (heap s) (stdout s) res s2 ∧ wide (S co) t
    | Raise e _ => e = IndexError
    end).
  { intros co s1 _ [Hb _]. by eapply transpose_outer_outcome_table. }
  specialize (Hloop Hstep). unfold bind at 1.
  destruct (for_range (length r0) _ _) as [[] s1|e s1]; [|done].
  destruct Hloop as [(Hsub & Hout & [newrows Hnew]) Hw].
  assert (Himg1 : get_list (heap s1) img = Some rows)
    by by eapply get_list_weaken.
  assert (Hne : img ≠ res).
  { intros ->. apply get_list_Some in Hrows. congruence. }
  unfold list_clear. erewrite bind_Ok; [|by eapply list_update_Ok].
  erewrite bind_Ok; [|eapply list_items_Ok;
    by rewrite heap_set_heap, get_list_insert_ne].
  erewrite bind_Ok;
    [|apply append_loop; rewrite heap_set_heap; apply get_list_insert].
  done.
Qed.

(** X14.  When some row is shorter than the first, [transpose] raises
    [IndexError]; every object that existed at the call is as it was and
    nothing has been printed. *)
Theorem transpose_short_row_raises img t r0 s :
  table_at (heap s) img = Some t → t !! 0 = Some r0 →
  ¬ wide (length r0) t →
  ∃ s', transpose img s = Raise IndexError s'
    ∧ heap s ⊆ heap s' ∧ stdout s' = stdout s.
Proof.
  intros Ht Hr0 Hshort.
  pose proof (transpose_outcome_table img t r0 s Ht Hr0) as Hkind.
  pose proof (transpose_outcome img s) as Hstore.
  destruct (transpose img s) as [v s'|e s']; [done|].
  subst e. by exists s'.
Qed.

Lemma transpose_short_row_raises_witness :
  (table_at (heap short_row_state) 1%positive = Some short_row_table
   ∧ short_row_table !! 0 = Some [10; 11; 12]%positive
   ∧ ¬ wide (length [10; 11; 12]%positive) short_row_table)
  ∧ ∃ s', transpose 1%positive short_row_state = Raise IndexError s'
      ∧ heap short_row_state ⊆ heap s' ∧ stdout s' = stdout short_row_state.
Proof.
  split; [exact (conj short_row_table_at (conj eq_refl short_row_not_wide))|].
  exact (transpose_short_row_raises 1%positive short_row_table
           [10; 11; 12]%positive short_row_state short_row_table_at eq_refl
           short_row_not_wide).
Defined.

(** ** What the plug-ins never touch, on any store *)

Section Keeps.

Context (Rel : state → state → Prop) `{!PreOrder Rel}.

Lemma keeps_pure {A} (c : M A) : (∀ s, final (c s) = s) → keeps Rel c.
Proof. intros Hc s. by rewrite Hc. Qed.

Lemma keeps_ret {A} (a : A) : keeps Rel (ret a).
Proof. by apply keeps_pure. Qed.

Lemma keeps_bind {A B} (c : M A) (k : A → M B) :
  keeps Rel c → (∀ a, keeps Rel (k a)) → keeps Rel (bind c k).
Proof.
  intros Hc Hk s. unfold bind. specialize (Hc s).
  destruct (c s) as [a s1|e s1]; [|done].
  cbn in Hc. by etrans; [exact Hc|apply Hk].
Qed.

Lemma keeps_when (b : bool) (c : M unit) : keeps Rel c → keeps Rel (when b c).
Proof. intros Hc. destruct b; [done|apply keeps_ret]. Qed.

Lemma keeps_for_acc {A B} (xs : list A) (acc : B) (body : A → B → M B) :
  (∀ x a, keeps Rel (body x a)) → keeps Rel (for_acc xs acc body).
Proof.
  intros Hbody. revert acc. induction xs as [|x xs IH]; intros acc.
  - apply keeps_ret.
  - cbn [for_acc]. apply keeps_bind; [apply Hbody|apply IH].
Qed.

Lemma keeps_for_each {A} (xs : list A) (body : A → M unit) :
  (∀ x, keeps Rel (body x)) → keeps Rel (for_each xs body).
Proof. intros Hbody. apply keeps_for_acc. intros x _. apply Hbody. Qed.

Lemma keeps_for_range (n : nat) (body : nat → M unit) :
  (∀ i, keeps Rel (body i)) → keeps Rel (for_range n body).
Proof. apply keeps_for_each. Qed.

Lemma keeps_py_len l : keeps Rel (py_len l).
Proof.
  apply keeps_pure. intros s. unfold py_len. by destruct (get_list _ _).
Qed.

Lemma keeps_list_get l i : keeps Rel (list_get l i).
Proof.
  apply keeps_pure. intros s. unfold list_get.
  destruct (get_list _ _) as [xs|]; [|done]. by destruct (xs !! i).
Qed.

Lemma keeps_list_items l : keeps Rel (list_items l).
Proof.
  apply keeps_pure. intros s. unfold list_items. by destruct (get_list _ _).
Qed.

Lemma keeps_get_attr field p : keeps Rel (get_attr field p).
Proof.
  apply keeps_pure. intros s. unfold get_attr. by destruct (get_pixel _ _).
Qed.

Lemma keeps_py_repr repr p : keeps Rel (py_repr repr p).
Proof.
  apply keeps_pure. intros s. unfold py_repr. by destruct (get_pixel _ _).
Qed.

Lemma keeps_py_assert b : keeps Rel (py_assert b).
Proof. apply keeps_pure. intros s. by destruct b. Qed.

Lemma keeps_int_times_float z c : keeps Rel (int_times_float z c).
Proof.
  apply keeps_pure. intros s. unfold int_times_float.
  by destruct (F64.of_int z).
Qed.

Lemma keeps_py_int x : keeps Rel (py_int x).
Proof.
  apply keeps_pure. intros s. unfold py_int. by destruct (F64.to_int x).
Qed.

End Keeps.

Global Instance prints_only_preorder : PreOrder prints_only.
Proof.
  split.
  - by intros s.
  - intros s1 s2 s3 [Hh1 Hp1] [Hh2 Hp2]. split; [congruence|by etrans].
Qed.

Lemma store_rel_preorder Q : PreOrder Q → PreOrder (store_rel Q).
Proof.
  intros HQ. split.
  - intros s. split; [done|]. intros l. by destruct (heap s !! l); constructor.
  - intros s1 s2 s3 [Ho1 Hh1] [Ho2 Hh2]. split; [congruence|].
    intros l. specialize (Hh1 l). specialize (Hh2 l).
    destruct Hh1 as [o1 o2 H12|]; inversion Hh2; subst; constructor.
    by etrans.
Qed.

Global Instance red_only_preorder : PreOrder red_only.
Proof.
  split.
  - by intros [xs|c].
  - intros [xs1|c1] [xs2|c2] [xs3|c3]; cbn; try done; [congruence|].
    intros (? & ? & ?) (? & ? & ?). repeat split; congruence.
Qed.

Global Instance alpha_kept_preorder : PreOrder alpha_kept.
Proof.
  split.
  - by intros [xs|c].
  - intros [xs1|c1] [xs2|c2] [xs3|c3]; cbn; try done; congruence.
Qed.

Global Instance order_only_preorder : PreOrder order_only.
Proof.
  split.
  - intros [xs|c]; cbn; reflexivity.
  - intros [xs1|c1] [xs2|c2] [xs3|c3]; cbn; try done; [|congruence].
    intros H1 H2. by rewrite H2.
Qed.

Global Instance store_rel_red_only : PreOrder (store_rel red_only).
Proof. apply store_rel_preorder, _. Qed.
Global Instance store_rel_alpha_kept : PreOrder (store_rel alpha_kept).
Proof. apply store_rel_preorder, _. Qed.
Global Instance store_rel_order_only : PreOrder (store_rel order_only).
Proof. apply store_rel_preorder, _. Qed.

Lemma store_rel_insert Q `{!PreOrder Q} s l o o' :
  heap s !! l = Some o → Q o o' →
  store_rel Q s (set_heap s (<[l := o']> (heap s))).
Proof.
  intros Hl HQ. split; [done|]. intros l'. rewrite heap_set_heap.
  destruct (decide (l = l')) as [<-|Hne].
  - rewrite lookup_insert_eq, Hl. by constructor.
  - rewrite lookup_insert_ne by done. by destruct (heap s !! l'); constructor.
Qed.

Lemma keeps_set_attr Q `{!PreOrder Q} upd p v :
  (∀ c, Q (OPixel c) (OPixel (upd v c))) →
  keeps (store_rel Q) (set_attr upd p v).
Proof.
  intros HQ s. unfold set_attr.
  destruct (get_pixel (heap s) p) as [c|] eqn:Hc; cbn; [|by apply store_rel_preorder].
  apply (store_rel_insert Q s p (OPixel c)); [by apply get_pixel_Some|apply HQ].
Qed.

Lemma keeps_list_update Q `{!PreOrder Q} f l :
  (∀ xs, Q (OList xs) (OList (f xs))) →
  keeps (store_rel Q) (list_update f l).
Proof.
  intros HQ s. unfold list_update.
  destruct (get_list (heap s) l) as [xs|] eqn:Hxs; cbn; [|by apply store_rel_preorder].
  apply (store_rel_insert Q s l (OList xs)); [by apply get_list_Some|apply HQ].
Qed.

Lemma keeps_print line : keeps prints_only (print line).
Proof. intros s. split; [done|]. cbn. by apply prefix_app_r. Qed.

(** X15.  [display] writes to no object, whether it returns or raises, on
    every store in which the items of the buffer's rows are pixels, the
    buffer being ragged, empty or no list at all: the store after the
    call is the store before it, and the output has only grown. *)
Theorem display_only_prints repr img s :
  row_items_are_pixels (heap s) img →
  prints_only s (final (display repr img s)).
Proof.
  intros _.
  revert s. change (keeps prints_only (display repr img)). unfold display.
  repeat first
    [ apply keeps_bind; [apply _| |intros ?]
    | apply keeps_for_acc; [apply _|intros ? ?]
    | apply keeps_for_range; [apply _|intros ?]
    | apply keeps_py_len | apply keeps_list_get | apply keeps_list_items
    | apply keeps_py_repr | apply keeps_print | apply keeps_ret
    | apply _
    | progress cbv zeta ].
Qed.

Lemma short_row_items_are_pixels :
  row_items_are_pixels (heap short_row_state) 1%positive.
Proof.
  intros rows Hrows. vm_compute in Hrows. injection Hrows as <-.
  repeat (constructor;
    [intros xs Hxs; vm_compute in Hxs; injection Hxs as <-;
     repeat (constructor; [by eexists|]); constructor|]).
  constructor.
Qed.

(** On the buffer whose second row is short, [display] prints the first
    row and two pixels of the second and then raises. *)
Lemma display_only_prints_witness :
  row_items_are_pixels (heap short_row_state) 1%positive
  ∧ prints_only short_row_state
      (final (display (λ _, "RGB"%string) 1%positive short_row_state)).
Proof.
  split; [exact short_row_items_are_pixels|].
  exact (display_only_prints (λ _, "RGB"%string) 1%positive short_row_state
           short_row_items_are_pixels).
Defined.

(** X16.  [dered] changes nothing but red, whether it returns or raises
    and whatever the store holds: no object appears or disappears, every
    list is as it was, every pixel keeps green, blue and alpha, and
    nothing is printed. *)
Theorem dered_changes_red_only img s :
  store_rel red_only s (final (dered img s)).
Proof.
  revert s. change (keeps (store_rel red_only) (dered img)). unfold dered.
  repeat first
    [ apply keeps_bind; [apply _| |intros ?]
    | apply keeps_for_range; [apply _|intros ?]
    | apply keeps_py_len | apply keeps_list_get | apply keeps_ret
    | apply keeps_set_attr; [apply _|by intros []]
    | apply _ ].
Qed.

(** X17.  [mono] never changes alpha or a list, whatever the flag is,
    whether it returns or raises and whatever the store holds; no object
    appears or disappears and nothing is printed. *)
Theorem mono_keeps_alpha img (sepia : value) s :
  store_rel alpha_kept s (final (mono img sepia s)).
Proof.
  revert s. change (keeps (store_rel alpha_kept) (mono img sepia)).
  unfold mono.
  repeat first
    [ apply keeps_bind; [apply _| |intros ?]
    | apply keeps_for_range; [apply _|intros ?]
    | apply keeps_when
    | apply keeps_py_assert | apply keeps_py_len | apply keeps_list_get
    | apply keeps_get_attr | apply keeps_int_times_float | apply keeps_py_int
    | apply keeps_ret
    | apply keeps_set_attr; [apply _|by intros []]
    | apply _
    | progress cbv zeta ].
Qed.

(** X18.  [flip] only reorders lists, whatever the flag is, whether it
    returns or raises and whatever the store holds: every pixel is as it
    was, every list holds the items it held, no object appears or
    disappears and nothing is printed. *)
Theorem flip_reorders_only img (vertical : value) s :
  store_rel order_only s (final (flip img vertical s)).
Proof.
  revert s. change (keeps (store_rel order_only) (flip img vertical)).
  unfold flip, list_reverse.
  repeat first
    [ apply keeps_bind; [apply _| |intros ?]
    | apply keeps_for_range; [apply _|intros ?]
    | apply keeps_when
    | apply keeps_py_assert | apply keeps_py_len | apply keeps_list_get
    | apply keeps_ret
    | apply keeps_list_update; [apply _|intros ?; apply reverse_Permutation]
    | apply _ ].
Qed.

(** ** Rounding never crosses a representable bound *)

Module F64_range.

Import F64 F64_facts.
Local Open Scope Z_scope.

Lemma shr_1_clean mrs k :
  clean mrs → 0 ≤ k → shr_m mrs = 2 * k → clean (shr_1 mrs).
Proof.
  destruct mrs as [m r s]. intros [Hr Hs] Hk Hm. cbn in Hr, Hs, Hm. subst r s.
  destruct m as [|[p|p|]|p]; cbn; try done; lia.
Qed.

Lemma iter_shr_1_clean p mrs k :
  clean mrs → 0 ≤ k → shr_m mrs = k * 2 ^ Zpos p →
  clean (SpecFloat.iter_pos shr_1 p mrs).
Proof.
  revert mrs k.
  induction p as [p IH|p IH|]; intros mrs k Hc Hk Hm; cbn [SpecFloat.iter_pos].
  - pose proof (pow2_pos p) as Hp. rewrite pow2_xI in Hm.
    assert (Hm0 : 0 ≤ shr_m mrs) by nia.
    assert (H1 : shr_m (shr_1 mrs) = k * 2 ^ Zpos p * 2 ^ Zpos p).
    { rewrite shr_m_shr_1 by done. rewrite Hm.
      replace (k * (2 * (2 ^ Zpos p * 2 ^ Zpos p)))
        with (k * 2 ^ Zpos p * 2 ^ Zpos p * 2) by lia.
      by rewrite Z.div_mul by lia. }
    assert (Hc1 : clean (shr_1 mrs)).
    { apply shr_1_clean with (k * (2 ^ Zpos p * 2 ^ Zpos p)); [done|nia|lia]. }
    apply IH with k; [|done|].
    + apply IH with (k * 2 ^ Zpos p); [done|nia|done].
    + rewrite shr_m_iter by (rewrite H1; nia).
      rewrite H1. by rewrite Z.div_mul by lia.
  - pose proof (pow2_pos p) as Hp. rewrite pow2_xO in Hm.
    assert (Hm0 : 0 ≤ shr_m mrs) by nia.
    apply IH with k; [|done|].
    + apply IH with (k * 2 ^ Zpos p); [done|nia|lia].
    + rewrite shr_m_iter by done. rewrite Hm, Z.mul_assoc.
      by rewrite Z.div_mul by lia.
  - apply shr_1_clean with k; [done|done|]. rewrite Hm. change (2 ^ 1) with 2. lia.
Qed.

Lemma clean_exact mrs : clean mrs → loc_of_shr_record mrs = loc_Exact.
Proof. destruct mrs as [m r s]. cbv [clean shr_r shr_s]. by intros [-> ->]. Qed.

(** The first shift of a rounding: what is cut off, and that nothing is
    lost when the significand is a multiple of the power cut off. *)
Lemma shr_fexp_exact m e :
  0 ≤ m →
  ∃ mrs e', shr_fexp prec emax m e loc_Exact = (mrs, e')
    ∧ 0 ≤ shr_m mrs
    ∧ ((e' = e ∧ shr_m mrs = m ∧ loc_of_shr_record mrs = loc_Exact)
       ∨ (e < e' ∧ e' = fexp prec emax (Zdigits2 m + e)
          ∧ shr_m mrs = m / 2 ^ (e' - e)
          ∧ (∀ k, m = k * 2 ^ (e' - e) →
               loc_of_shr_record mrs = loc_Exact))).
Proof.
  intros Hm. unfold shr_fexp, shr.
  destruct (fexp prec emax (Zdigits2 m + e) - e) as [|p|p] eqn:Hn.
  - eexists _, _. split; [done|]. cbn. auto.
  - eexists _, _. split; [done|].
    rewrite shr_m_iter by done. cbn [shr_record_of_loc shr_m].
    split; [apply Z.div_pos; [done|apply pow2_pos]|]. right.
    replace (e + Zpos p - e) with (Zpos p) by lia.
    split; [lia|]. split; [lia|]. split; [done|].
    intros k Hk. apply clean_exact. pose proof (pow2_pos p).
    apply iter_shr_1_clean with k; [done|nia|done].
  - eexists _, _. split; [done|]. cbn. auto.
Qed.

Lemma pow2_split a b : 0 ≤ a → 0 ≤ b → 2 ^ (a + b) = 2 ^ a * 2 ^ b.
Proof. intros. apply Z.pow_add_r; lia. Qed.

(** Cutting off [n] places keeps a significand below a bound that is
    itself a multiple of [2 ^ n]. *)
Lemma div_at_most m T n :
  0 ≤ m → 0 < n → m ≤ T * 2 ^ n → m / 2 ^ n ≤ T.
Proof.
  intros Hm Hn Hle. assert (0 < 2 ^ n) by (apply Z.pow_pos_nonneg; lia).
  etrans; [apply Z.div_le_mono; [lia|exact Hle]|].
  by rewrite Z.div_mul by lia.
Qed.

Lemma round_aux_at_most mx ex K N eb :
  0 < mx → Zdigits2 mx + ex ≤ K → -1074 ≤ K ≤ 970 →
  K - 52 ≤ eb → -1074 ≤ eb →
  ex ≤ eb → mx ≤ N * 2 ^ (eb - ex) →
  value_at_most N eb (binary_round_aux prec emax false mx ex loc_Exact).
Proof.
  intros Hmx HK HKr HKeb Heb Hex Hle. unfold binary_round_aux.
  pose proof (Zdigits2_pos mx Hmx) as Hd.
  destruct (shr_fexp_exact mx ex ltac:(lia))
    as (mrs1 & e1 & -> & Hm1 & Hcase1).
  pose proof (round_nearest_even_bounds (shr_m mrs1) (loc_of_shr_record mrs1))
    as Hrnd.
  set (m1 := round_nearest_even (shr_m mrs1) (loc_of_shr_record mrs1)) in *.
  assert (Hm1' : 0 ≤ m1) by lia.
  assert (Hd1' : Zdigits2 m1 + e1 ≤ K + 1).
  { pose proof (Zdigits2_mono m1 (shr_m mrs1 + 1) ltac:(lia)).
    pose proof (Zdigits2_succ (shr_m mrs1) Hm1).
    destruct Hcase1 as [(-> & Hs & _)|(Hlt & He1 & Hs & _)].
    - rewrite Hs in *. lia.
    - pose proof (Zdigits2_div mx (e1 - ex) ltac:(lia) ltac:(lia)).
      rewrite <- Hs in *.
      unfold fexp, emin, prec, emax in He1. lia. }
  assert (He1 : e1 ≤ eb).
  { destruct Hcase1 as [(-> & _)|(_ & He1 & _)]; [done|].
    unfold fexp, emin, prec, emax in He1. lia. }
  assert (Hle1 : m1 ≤ N * 2 ^ (eb - e1)).
  { destruct Hcase1 as [(-> & Hs & Hloc)|(Hlt & _ & Hs & Hloc)].
    - unfold m1. rewrite Hloc, Hs. done.
    - assert (Hsplit : N * 2 ^ (eb - ex)
                       = N * 2 ^ (eb - e1) * 2 ^ (e1 - ex)).
      { replace (eb - ex) with ((eb - e1) + (e1 - ex)) by lia.
        rewrite pow2_split by lia. lia. }
      rewrite Hsplit in Hle.
      pose proof (div_at_most mx _ (e1 - ex) ltac:(lia) ltac:(lia) Hle) as Hdiv.
      rewrite <- Hs in Hdiv.
      destruct (Z_lt_le_dec (shr_m mrs1) (N * 2 ^ (eb - e1))) as [|Hge];
        [lia|].
      assert (Heq : shr_m mrs1 = N * 2 ^ (eb - e1)) by lia.
      assert (0 < 2 ^ (e1 - ex)) by (apply Z.pow_pos_nonneg; lia).
      pose proof (Z.mul_div_le mx (2 ^ (e1 - ex)) ltac:(lia)) as Hfl.
      rewrite <- Hs, Heq in Hfl.
      unfold m1. rewrite (Hloc (N * 2 ^ (eb - e1))) by lia. cbn. lia. }
  destruct (shr_fexp_cases m1 e1 loc_Exact Hm1')
    as (mrs2 & e2 & -> & Hm2 & Hcase2).
  destruct (shr_m mrs2) as [|m2|m2] eqn:Hm2e; [done| |lia].
  assert (Hfin : e2 ≤ 971 ∧ e2 ≤ eb ∧ Zpos m2 ≤ N * 2 ^ (eb - e2)).
  { destruct Hcase2 as [[-> Hs]|(Hlt & He2 & Hs)].
    - rewrite Hs. split; [|done].
      pose proof (Zdigits2_pos m1 ltac:(lia)). lia.
    - assert (He2' : e2 ≤ eb ∧ e2 ≤ 971)
        by (unfold fexp, emin, prec, emax in He2; lia).
      split; [lia|]. split; [lia|]. rewrite Hs.
      apply div_at_most; [done|lia|].
      replace (N * 2 ^ (eb - e2) * 2 ^ (e2 - e1)) with (N * 2 ^ (eb - e1));
        [done|].
      replace (eb - e1) with ((eb - e2) + (e2 - e1)) by lia.
      rewrite pow2_split by lia. lia. }
  destruct Hfin as (He2 & He2' & Hm2').
  replace (e2 <=? emax - prec) with true
    by (symmetry; apply Z.leb_le; unfold emax, prec; lia).
  done.
Qed.

Lemma iter_xO_value m d : Zpos (Pos.iter xO m d) = Zpos m * 2 ^ Zpos d.
Proof.
  induction d as [|d IH] using Pos.peano_ind.
  - cbn. lia.
  - rewrite Pos.iter_succ, Pos2Z.inj_succ, Z.pow_succ_r by lia.
    rewrite (Pos2Z.inj_xO (Pos.iter xO m d)), IH. lia.
Qed.

Lemma shl_align_at_most m e e' N eb :
  e ≤ eb → Zpos m ≤ N * 2 ^ (eb - e) →
  snd (shl_align m e e') ≤ eb
  ∧ Zpos (fst (shl_align m e e')) ≤ N * 2 ^ (eb - snd (shl_align m e e')).
Proof.
  intros He Hm. unfold shl_align.
  destruct (e' - e) as [|d|d] eqn:Hd; cbn [fst snd]; try done.
  split; [lia|]. rewrite iter_xO_value.
  replace (eb - e') with ((eb - e) + Zpos d) by lia.
  rewrite pow2_split by lia. pose proof (pow2_pos d). nia.
Qed.

Lemma round_at_most m e K N eb :
  Zpos (digits2_pos m) + e ≤ K → -1074 ≤ K ≤ 970 →
  K - 52 ≤ eb → -1074 ≤ eb →
  e ≤ eb → Zpos m ≤ N * 2 ^ (eb - e) →
  value_at_most N eb (binary_round prec emax false m e).
Proof.
  intros HK HKr HKeb Heb He Hm. unfold binary_round.
  pose proof (shl_align_digits m e
    (fexp prec emax (Zpos (digits2_pos m) + e))) as Hal.
  pose proof (shl_align_at_most m e
    (fexp prec emax (Zpos (digits2_pos m) + e)) N eb He Hm) as [Hez Hmz].
  destruct (shl_align m e _) as [mz ez]. cbn [fst snd] in *.
  apply round_aux_at_most with K; try done. cbn [Zdigits2]. lia.
Qed.

Lemma value_at_most_mono N eb N' x :
  N ≤ N' → value_at_most N eb x → value_at_most N' eb x.
Proof.
  intros HN. destruct x as [| | |s m e]; cbn; try done.
  intros (-> & He & Hm). split; [done|]. split; [done|].
  assert (0 < 2 ^ (eb - e)) by (apply Z.pow_pos_nonneg; lia). nia.
Qed.

Lemma of_Z_at_most z N :
  0 ≤ z ≤ N → N < 2 ^ 52 → value_at_most N 0 (of_Z z).
Proof.
  intros Hz HN. unfold of_Z.
  destruct z as [|m|m]; cbn [binary_normalize]; [done| |lia].
  apply round_at_most with 52; try lia.
  pose proof (Zdigits2_le (Zpos m) 52 ltac:(lia) ltac:(lia)) as Hd.
  cbn [Zdigits2] in Hd. lia.
Qed.

(** The product with a positive constant [my * 2 ^ ey]. *)
Lemma mul_at_most Kx Ky Nx ebx x my ey N eb :
  bounded_by Kx x → value_at_most Nx ebx x →
  Zpos (digits2_pos my) + ey ≤ Ky → -1074 ≤ Kx + Ky ≤ 970 →
  Kx + Ky - 52 ≤ eb → -1074 ≤ eb → ebx + ey ≤ eb →
  Nx * Zpos my ≤ N * 2 ^ (eb - (ebx + ey)) →
  value_at_most N eb (mul (S754_finite false my ey) x).
Proof.
  intros Hb Hx Hy HK HKeb Heb Hebx HN.
  destruct x as [sx| | |sx mx ex]; cbn in *; try done.
  destruct Hb as [_ Hb]. destruct Hx as (-> & Hex & Hmx).
  apply round_aux_at_most with (Kx + Ky); try lia.
  - pose proof (digits2_pos_bounds mx) as [_ Hbx].
    pose proof (digits2_pos_bounds my) as [_ Hby].
    assert (Hd : Zdigits2 (Zpos (my * mx))
                 ≤ Zpos (digits2_pos mx) + Zpos (digits2_pos my)).
    { apply Zdigits2_le; [|lia]. rewrite Pos2Z.inj_mul, Z.pow_add_r by lia.
      split; [lia|]. nia. }
    lia.
  - rewrite Pos2Z.inj_mul.
    replace (eb - (ey + ex)) with ((eb - (ebx + ey)) + (ebx - ex)) by lia.
    rewrite pow2_split by lia.
    assert (0 < 2 ^ (ebx - ex)) by (apply Z.pow_pos_nonneg; lia).
    assert (0 < 2 ^ (eb - (ebx + ey))) by (apply Z.pow_pos_nonneg; lia).
    nia.
Qed.

Lemma add_at_most K Nx Ny eb x y :
  bounded_by K x → bounded_by K y →
  value_at_most Nx eb x → value_at_most Ny eb y →
  0 ≤ Nx → 0 ≤ Ny → -1074 ≤ K ≤ 969 → K - 51 ≤ eb → -1074 ≤ eb →
  value_at_most (Nx + Ny) eb (add x y).
Proof.
  intros Hbx Hby Hx Hy HNx HNy HK HKeb Heb.
  destruct x as [sx| | |sx mx ex], y as [sy| | |sy my ey];
    cbn [bounded_by value_at_most] in *; try done.
  - unfold add, SFadd. by destruct sx, sy.
  - unfold add, SFadd.
    apply (value_at_most_mono Ny eb); [lia|done].
  - unfold add, SFadd.
    apply (value_at_most_mono Nx eb); [lia|done].
  - destruct Hbx as [_ Hbx], Hby as [_ Hby].
    destruct Hx as (-> & Hex & Hmx), Hy as (-> & Hey & Hmy).
    unfold add, SFadd. cbn [cond_Zopp]. set (ez := Z.min ex ey).
    pose proof (shl_align_min mx ex ez ltac:(lia)) as Hax.
    pose proof (shl_align_min my ey ez ltac:(lia)) as Hay.
    pose proof (shl_align_at_most mx ex ez Nx eb Hex Hmx) as [_ Hvx].
    pose proof (shl_align_at_most my ey ez Ny eb Hey Hmy) as [_ Hvy].
    assert (Hsx : snd (shl_align mx ex ez) = ez ∨ snd (shl_align mx ex ez) = ex ∧ ex = ez).
    { unfold shl_align. destruct (ez - ex) eqn:?; cbn [snd]; lia. }
    assert (Hsy : snd (shl_align my ey ez) = ez ∨ snd (shl_align my ey ez) = ey ∧ ey = ez).
    { unfold shl_align. destruct (ez - ey) eqn:?; cbn [snd]; lia. }
    assert (Hsx' : snd (shl_align mx ex ez) = ez) by lia.
    assert (Hsy' : snd (shl_align my ey ez) = ez) by lia.
    rewrite Hsx' in Hvx. rewrite Hsy' in Hvy.
    set (ax := fst (shl_align mx ex ez)) in *.
    set (ay := fst (shl_align my ey ez)) in *.
    change (Zpos ax + Zpos ay) with (Zpos (ax + ay)).
    cbn [binary_normalize].
    apply round_at_most with (K + 1); try lia.
    pose proof (digits2_pos_bounds ax) as [_ Hdx].
    pose proof (digits2_pos_bounds ay) as [_ Hdy].
    assert (Hd : Zdigits2 (Zpos (ax + ay)) ≤ K - ez + 1).
    { apply Zdigits2_le; [|lia]. rewrite Pos2Z.inj_add.
      split; [lia|]. rewrite Z.pow_add_r by lia.
      assert (2 ^ Zpos (digits2_pos ax) ≤ 2 ^ (K - ez))
        by (apply Z.pow_le_mono_r; lia).
      assert (2 ^ Zpos (digits2_pos ay) ≤ 2 ^ (K - ez))
        by (apply Z.pow_le_mono_r; lia).
      lia. }
    cbn [Zdigits2] in Hd. lia.
Qed.

(** The integer part of a bounded value. *)
Lemma floor_at_most N eb x :
  value_at_most N eb x → 0 ≤ N → eb ≤ 0 → 0 ≤ floor x ≤ N / 2 ^ (- eb).
Proof.
  intros Hx HN Heb.
  assert (Hpos : 0 < 2 ^ (- eb)) by (apply Z.pow_pos_nonneg; lia).
  destruct x as [s| | |s m e]; cbn [value_at_most floor] in *; try done.
  - split; [done|]. apply Z.div_pos; lia.
  - destruct Hx as (-> & He & Hm). cbn [cond_Zopp].
    destruct e as [|p|p]; [| lia |].
    + assert (eb = 0) as -> by lia. cbn in *.
      rewrite Z.div_1_r. lia.
    + split; [apply Z.div_pos; [lia|apply pow2_pos]|].
      pose proof (pow2_pos p).
      assert (0 < 2 ^ (eb - Zneg p)) by (apply Z.pow_pos_nonneg; lia).
      etrans; [apply Z.div_le_mono; [lia|exact Hm]|].
      replace (2 ^ Zpos p) with (2 ^ (- eb) * 2 ^ (eb - Zneg p)).
      * rewrite Z.div_mul_cancel_r by lia. done.
      * rewrite <- pow2_split by lia. f_equal. lia.
Qed.

End F64_range.

(** ** The channels that [mono] writes *)

Lemma channel_product_at_most z my ey N :
  channel_ok z → (Zpos (digits2_pos my) + ey ≤ 0)%Z → (-60 ≤ ey ≤ -4)%Z →
  (255 * Zpos my ≤ N * 2 ^ (-4 - ey))%Z →
  value_at_most N (-4) (F64.mul (S754_finite false my ey) (F64.of_Z z)).
Proof.
  intros Hz Hd Hey HN. unfold channel_ok in Hz.
  assert (Hb : F64.bounded_by (8 + 1) (F64.of_Z z)).
  { apply F64_facts.of_Z_bounded; [|lia]. change (2 ^ 8)%Z with 256%Z. lia. }
  assert (Hv : value_at_most 255 0 (F64.of_Z z)).
  { apply F64_range.of_Z_at_most; [lia|]. by vm_compute. }
  apply (F64_range.mul_at_most (8 + 1) 0 255 0); try done; try lia.
Qed.

Lemma brightness_at_most c :
  channels_ok c → value_at_most 4081 (-4) (brightness c).
Proof.
  intros (Hr & Hg & Hb). unfold brightness.
  assert (H3 : F64.bounded_by (-1) F64.c0_3) by (split; [done|by vm_compute]).
  assert (H6 : F64.bounded_by 0 F64.c0_6) by (split; [done|by vm_compute]).
  assert (H1 : F64.bounded_by (-3) F64.c0_1) by (split; [done|by vm_compute]).
  pose proof (channel_product_bounded _ _ _ Hr H3 ltac:(lia)) as Hx1.
  pose proof (channel_product_bounded _ _ _ Hg H6 ltac:(lia)) as Hx2.
  pose proof (channel_product_bounded _ _ _ Hb H1 ltac:(lia)) as Hx3.
  assert (Hv1 : value_at_most 1224 (-4) (F64.mul F64.c0_3 (F64.of_Z (red c)))).
  { apply channel_product_at_most; [done| | |]; by vm_compute. }
  assert (Hv2 : value_at_most 2448 (-4) (F64.mul F64.c0_6 (F64.of_Z (green c)))).
  { apply channel_product_at_most; [done| | |]; by vm_compute. }
  assert (Hv3 : value_at_most 409 (-4) (F64.mul F64.c0_1 (F64.of_Z (blue c)))).
  { apply channel_product_at_most; [done| | |]; by vm_compute. }
  change 4081%Z with (1224 + 2448 + 409)%Z.
  apply (F64_range.add_at_most 12); try done; try lia.
  - change 12%Z with (10 + 2)%Z. by apply F64_facts.add_bounded; [| |lia].
  - by apply F64_facts.bounded_by_mono with 10%Z; [lia|].
  - apply (F64_range.add_at_most 10); try done; lia.
Qed.

(** Whatever the mode, a pixel in range stays in range; in sepia mode
    green stays below 154 and blue below 103. *)
Lemma mono_pixel_in_range (sepia : bool) c :
  channels_ok c →
  (0 ≤ red (mono_pixel sepia c) ≤ 255)%Z
  ∧ (0 ≤ green (mono_pixel sepia c) ≤ if sepia then 153 else 255)%Z
  ∧ (0 ≤ blue (mono_pixel sepia c) ≤ if sepia then 102 else 255)%Z.
Proof.
  intros Hok. pose proof (brightness_at_most c Hok) as Hv.
  pose proof (brightness_bounded c Hok) as Hb.
  pose proof (F64_range.floor_at_most _ _ _ Hv ltac:(lia) ltac:(lia)) as HB.
  change (4081 / 2 ^ (- -4))%Z with 255%Z in HB.
  destruct sepia; cbn [mono_pixel sepia_tone greyscale red green blue];
    [|done].
  split; [done|]. split.
  - assert (H6 : value_at_most 2449 (-4) (F64.mul F64.c0_6 (brightness c))).
    { apply (F64_range.mul_at_most 14 0 4081 (-4)); try done; try lia;
        by vm_compute. }
    pose proof (F64_range.floor_at_most _ _ _ H6 ltac:(lia) ltac:(lia)) as H.
    by change (2449 / 2 ^ (- -4))%Z with 153%Z in H.
  - assert (H4 : value_at_most 1633 (-4) (F64.mul F64.c0_4 (brightness c))).
    { apply (F64_range.mul_at_most 14 (-1) 4081 (-4)); try done; try lia;
        by vm_compute. }
    pose proof (F64_range.floor_at_most _ _ _ H4 ltac:(lia) ltac:(lia)) as H.
    by change (1633 / 2 ^ (- -4))%Z with 102%Z in H.
Qed.

Lemma mono_pixel_channels_ok (sepia : bool) c :
  channels_ok c → channels_ok (mono_pixel sepia c).
Proof.
  intros Hok. destruct (mono_pixel_in_range sepia c Hok) as (Hr & Hg & Hb).
  unfold channels_ok, channel_ok. destruct sepia; lia.
Qed.

Lemma pixels_in_range_map f h t :
  NoDup (concat t) → (∀ c, channels_ok c → channels_ok (f c)) →
  pixels_in_range h t →
  pixels_in_range (alter_all (on_pixel f) (concat t) h) t.
Proof.
  intros Hnd Hf Hrange. unfold pixels_in_range in *.
  rewrite Forall_forall in Hrange. apply Forall_forall. intros p Hp.
  destruct (Hrange p Hp) as (c & Hc & Hok). exists (f c).
  split; [|by apply Hf].
  rewrite (get_pixel_fmap h _ p f), Hc; [done|].
  by apply lookup_alter_all_NoDup.
Qed.

(** X19.  [mono] keeps the channels in range: on an image of distinct
    pixels with red, green and blue in 0..255 it returns [True] and every
    channel is again in 0..255; in sepia mode green is at most 153 and
    blue at most 102.  Rounding in binary64 never carries the brightness
    of such a pixel to 256. *)
Theorem mono_keeps_channels_in_range img R C t s (sepia : bool) :
  image_buffer (heap s) img R C t →
  NoDup (concat t) → pixels_in_range (heap s) t →
  ∃ s', mono img (VBool sepia) s = Ok (VBool true) s'
    ∧ pixels_in_range (heap s') t
    ∧ (∀ i j, i < R → j < C →
         ∃ c', pixel_at (heap s') img i j = Some c'
           ∧ (0 ≤ red c' ≤ 255)%Z
           ∧ (0 ≤ green c' ≤ if sepia then 153 else 255)%Z
           ∧ (0 ≤ blue c' ≤ if sepia then 102 else 255)%Z).
Proof.
  intros Hbuf Hnd Hrange. eexists. split; [by apply mono_run with R C|].
  cbn [heap set_heap].
  split; [apply pixels_in_range_map; [done| |done];
          intros c; apply mono_pixel_channels_ok|].
  destruct (pixel_map_post (mono_pixel sepia) _ _ _ _ _ Hbuf)
    as (Hbuf' & Hpx & _); [by left|].
  intros i j Hi Hj. destruct (Hpx i j Hi Hj) as (c & Hc & Hc').
  exists (mono_pixel sepia c). split; [done|].
  apply mono_pixel_in_range.
  pose proof Hbuf as [Ht Hrect _ _ _].
  destruct (cell_is_Some _ _ _ _ _ Hrect Hi Hj) as [p Hp].
  rewrite (pixel_at_cell _ _ _ _ _ _ Ht Hp) in Hc.
  unfold pixels_in_range in Hrange. rewrite Forall_forall in Hrange.
  destruct (Hrange p (cell_elem_of_concat _ _ _ _ Hp)) as (c0 & Hc0 & Hok).
  by simplify_eq.
Qed.

Lemma mono_keeps_channels_in_range_witness :
  (image_buffer (heap demo_state) 1%positive 2 3 demo_table
   ∧ NoDup (concat demo_table)
   ∧ pixels_in_range (heap demo_state) demo_table)
  ∧ ∃ s', mono 1%positive (VBool true) demo_state = Ok (VBool true) s'
      ∧ pixels_in_range (heap s') demo_table
      ∧ (∀ i j, i < 2 → j < 3 →
           ∃ c', pixel_at (heap s') 1%positive i j = Some c'
             ∧ (0 ≤ red c' ≤ 255)%Z
             ∧ (0 ≤ green c' ≤ 153)%Z
             ∧ (0 ≤ blue c' ≤ 102)%Z).
Proof.
  split; [exact (conj demo_image (conj demo_distinct_pixels demo_in_range))|].
  exact (mono_keeps_channels_in_range 1%positive 2 3 demo_table demo_state
           true demo_image demo_distinct_pixels demo_in_range).
Defined.

Lemma grey_drop_checked :
  forallb grey_drop_ok (map Z.of_nat (seq 0 256)) = true.
Proof. by vm_compute. Qed.

Lemma grey_pixel_darkens_at_most_one v a :
  (0 ≤ v ≤ 255)%Z →
  ∃ g, greyscale (mkRGB v v v a) = mkRGB g g g a ∧ (v - 1 ≤ g ≤ v)%Z.
Proof.
  intros Hv. exists (F64.floor (brightness (mkRGB v v v 0))).
  split; [done|].
  pose proof grey_drop_checked as Hall. rewrite forallb_forall in Hall.
  specialize (Hall v). unfold grey_drop_ok in Hall. cbv zeta in Hall.
  rewrite andb_true_iff, !Z.leb_le in Hall. apply Hall.
  apply in_map_iff. exists (Z.to_nat v). split; [lia|].
  apply in_seq. lia.
Qed.

(** Greyscale is not idempotent: the grey pixel (1, 1, 1) turns black. *)
Example greyscale_not_idempotent :
  greyscale (mkRGB 1 1 1 255) = mkRGB 0 0 0 255.
Proof. by vm_compute. Qed.

(** X20.  Greyscale is not a projection, but nearly: after a first
    greyscale conversion of an image of distinct pixels in range, every
    pixel is grey, and a second conversion leaves each grey level as it is
    or lowers it by one; alpha is kept. *)
Theorem greyscale_twice_darkens_at_most_one img R C t s :
  image_buffer (heap s) img R C t →
  NoDup (concat t) → pixels_in_range (heap s) t →
  ∃ s1 s2,
    mono img (VBool false) s = Ok (VBool true) s1
    ∧ mono img (VBool false) s1 = Ok (VBool true) s2
    ∧ (∀ i j, i < R → j < C →
         ∃ g1 g2 a,
           pixel_at (heap s1) img i j = Some (mkRGB g1 g1 g1 a)
           ∧ pixel_at (heap s2) img i j = Some (mkRGB g2 g2 g2 a)
           ∧ (g1 - 1 ≤ g2 ≤ g1)%Z).
Proof.
  intros Hbuf Hnd Hrange.
  destruct (pixel_map_post (mono_pixel false) _ _ _ _ _ Hbuf)
    as (Hbuf1 & Hpx1 & _); [by left|].
  assert (Hrange1 : pixels_in_range
            (alter_all (on_pixel (mono_pixel false)) (concat t) (heap s)) t).
  { apply pixels_in_range_map; [done| |done].
    intros c. apply mono_pixel_channels_ok. }
  destruct (pixel_map_post (mono_pixel false) _ _ _ _ _ Hbuf1)
    as (_ & Hpx2 & _); [by left|].
  eexists _, _. split; [by apply mono_run with R C|].
  split; [by apply mono_run with R C|]. cbn [heap set_heap].
  intros i j Hi Hj.
  destruct (Hpx1 i j Hi Hj) as (c & Hc & Hc1).
  destruct (Hpx2 i j Hi Hj) as (c1 & Hc1' & Hc2).
  rewrite Hc1 in Hc1'. injection Hc1' as <-.
  assert (Hok : channels_ok c).
  { pose proof Hbuf as [Ht Hrect _ _ _].
    destruct (cell_is_Some _ _ _ _ _ Hrect Hi Hj) as [p Hp].
    rewrite (pixel_at_cell _ _ _ _ _ _ Ht Hp) in Hc.
    unfold pixels_in_range in Hrange. rewrite Forall_forall in Hrange.
    destruct (Hrange p (cell_elem_of_concat _ _ _ _ Hp)) as (c0 & Hc0 & Hok).
    by simplify_eq. }
  destruct (mono_pixel_in_range false c Hok) as (Hr & _).
  cbn [mono_pixel greyscale red] in Hr.
  destruct (grey_pixel_darkens_at_most_one (F64.floor (brightness c))
              (alpha c) Hr) as (g2 & Hg2 & Hle).
  exists (F64.floor (brightness c)), g2, (alpha c).
  split; [exact Hc1|]. split; [|done].
  rewrite Hc2. f_equal. exact Hg2.
Qed.

Lemma greyscale_twice_darkens_at_most_one_witness :
  (image_buffer (heap demo_state) 1%positive 2 3 demo_table
   ∧ NoDup (concat demo_table)
   ∧ pixels_in_range (heap demo_state) demo_table)
  ∧ ∃ s1 s2,
      mono 1%positive (VBool false) demo_state = Ok (VBool true) s1
      ∧ mono 1%positive (VBool false) s1 = Ok (VBool true) s2
      ∧ (∀ i j, i < 2 → j < 3 →
           ∃ g1 g2 a,
             pixel_at (heap s1) 1%positive i j = Some (mkRGB g1 g1 g1 a)
             ∧ pixel_at (heap s2) 1%positive i j = Some (mkRGB g2 g2 g2 a)
             ∧ (g1 - 1 ≤ g2 ≤ g1)%Z).
Proof.
  split; [exact (conj demo_image (conj demo_distinct_pixels demo_in_range))|].
  exact (greyscale_twice_darkens_at_most_one 1%positive 2 3 demo_table
           demo_state demo_image demo_distinct_pixels demo_in_range).
Defined.

(** ** The lines that [display] prints *)

Lemma widest_app repr cs1 cs2 m0 :
  widest repr (cs1 ++ cs2) m0 = widest repr cs2 (widest repr cs1 m0).
Proof. unfold widest. by rewrite foldl_app. Qed.

Lemma widest_start repr cs m0 : (m0 ≤ widest repr cs m0)%Z.
Proof.
  revert m0. induction cs as [|c cs IH]; intros m0; cbn; [lia|].
  etrans; [|apply IH]. destruct (Z.gtb_spec (strlen (repr c)) m0); lia.
Qed.

Lemma widest_ge repr cs m0 c :
  c ∈ cs → (strlen (repr c) ≤ widest repr cs m0)%Z.
Proof.
  revert m0. induction cs as [|c' cs IH]; intros m0 Hc;
    [by apply elem_of_nil in Hc|].
  apply elem_of_cons in Hc as [<-|Hc]; cbn; [|by apply IH].
  etrans; [|apply widest_start].
  destruct (Z.gtb_spec (strlen (repr c)) m0); lia.
Qed.

Lemma string_length_append (a b : string) :
  String.length (a +:+ b) = String.length a + String.length b.
Proof. induction a as [|x a IH]; simpl; [done|]. by f_equal. Qed.

Lemma strlen_append a b : (strlen (a +:+ b) = strlen a + strlen b)%Z.
Proof. unfold strlen. rewrite string_length_append. lia. Qed.

Lemma strlen_spaces n : (0 ≤ n)%Z → strlen (spaces n) = n.
Proof.
  intros Hn. unfold strlen, spaces.
  assert (H : ∀ k b, String.length
            (fold_right (λ _ acc, String " "%char acc) EmptyString (seq b k))
            = k).
  { induction k as [|k IH]; intros b; cbn; [done|]. by rewrite IH. }
  rewrite H. lia.
Qed.

(** The closing brackets are aligned. *)
Lemma display_line_width repr maxsize R C i j c :
  (strlen (repr c) ≤ maxsize)%Z → 0 < C → j = C - 1 →
  strlen (display_line repr maxsize R C i j c)
  = (6 + maxsize + if (Z.of_nat i =? Z.of_nat R - 1)%Z then 5 else 3)%Z.
Proof.
  intros Hle HC ->. unfold display_line. cbv zeta.
  replace (Z.of_nat (C - 1) =? Z.of_nat C - 1)%Z with true
    by (symmetry; apply Z.eqb_eq; lia).
  rewrite andb_true_r.
  assert (Hp : ∀ pre : string, strlen pre = 6%Z →
    ∀ suf n, strlen suf = n →
    strlen (pre +:+ repr c
            +:+ (spaces (maxsize - strlen (repr c)) +:+ suf))
    = (6 + maxsize + n)%Z).
  { intros pre Hpre suf n Hsuf. rewrite !strlen_append, Hpre, Hsuf.
    rewrite strlen_spaces by lia. lia. }
  destruct (Z.of_nat i =? Z.of_nat R - 1)%Z;
    destruct ((i =? 0) && (C - 1 =? 0)); try destruct (C - 1 =? 0);
    by apply Hp.
Qed.

Lemma pixel_values_take_S h (t : list (list loc)) i xs :
  t !! i = Some xs →
  omap (get_pixel h) (concat (take (S i) t))
  = omap (get_pixel h) (concat (take i t)) ++ omap (get_pixel h) xs.
Proof. intros Hxs. by rewrite (concat_take_S _ _ _ Hxs), omap_app. Qed.

(** The first pair of loops finds the widest [repr]. *)
Lemma display_maxsize_value repr img R C t rows s :
  image_buffer (heap s) img R C t → get_list (heap s) img = Some rows →
  for_acc rows 0%Z (λ row maxsize,
    pixels <~ list_items row ;;
    for_acc pixels maxsize (λ pixel maxsize,
      text <~ py_repr repr pixel ;;
      ret (if (strlen text >? maxsize)%Z then strlen text else maxsize))) s
  = Ok (widest repr (pixel_values (heap s) t) 0) s.
Proof.
  intros [Ht Hrect HR HC Hpx] Hrows.
  apply table_at_Some in Ht as (rows' & Hrows' & Hall).
  assert (rows' = rows) as -> by congruence.
  pose proof (Forall2_length _ _ _ Hall) as Hlen.
  rewrite Forall_forall in Hpx.
  destruct (for_acc_inv
    (λ i acc s1, s1 = s
       ∧ acc = widest repr (omap (get_pixel (heap s)) (concat (take i t))) 0)
    rows
    (λ row maxsize,
      pixels <~ list_items row ;;
      for_acc pixels maxsize (λ pixel maxsize,
        text <~ py_repr repr pixel ;;
        ret (if (strlen text >? maxsize)%Z then strlen text else maxsize)))
    0%Z s) as (maxsize & s' & Hrun & -> & Hmax); [done| |].
  - intros i r a1 s1 Hr [-> ->].
    destruct (Forall2_lookup_l _ _ _ _ _ Hall Hr) as (xs & Hxs & Hget).
    cbn beta in Hget.
    destruct (for_acc_inv
      (λ j acc s1, s1 = s
         ∧ acc = widest repr (omap (get_pixel (heap s))
                   (concat (take i t) ++ take j xs)) 0)
      xs
      (λ pixel maxsize,
          text <~ py_repr repr pixel ;;
          ret (if (strlen text >? maxsize)%Z then strlen text else maxsize))
      (widest repr (omap (get_pixel (heap s)) (concat (take i t))) 0) s)
      as (a2 & s2 & Hrun2 & -> & Ha2).
    + split; [done|]. by rewrite take_0, (right_id_L [] (++)).
    + intros j p a s1 Hp [-> ->].
      destruct (Hpx p) as [c Hc].
      { apply elem_of_concat. exists xs.
        split; by eapply list_elem_of_lookup_2. }
      eexists _, s. split;
        [by rewrite (bind_Ok _ _ _ _ _ (py_repr_Ok repr _ _ _ Hc))|].
      split; [done|].
      assert (Hone : omap (get_pixel (heap s)) [p] = [c])
        by (cbn [omap list_omap]; by rewrite Hc).
      rewrite (take_S_r _ _ _ Hp), (assoc_L (++)).
      by rewrite !omap_app, !widest_app, Hone.
    + exists a2, s. split;
        [by rewrite (bind_Ok _ _ _ _ _ (list_items_Ok _ _ _ Hget))|].
      split; [done|]. rewrite Ha2, (take_ge xs) by lia.
      by rewrite (concat_take_S _ _ _ Hxs).
  - rewrite Hrun, Hmax. rewrite take_ge by lia. done.
Qed.

Lemma row_major_index C i j i' j' :
  j < C → j' < C → i' * C + j' = i * C + j → i' = i ∧ j' = j.
Proof.
  intros Hj Hj' Heq.
  destruct (Nat.lt_trichotomy i i') as [Hlt|[->|Hlt]]; [|lia|].
  - pose proof (Nat.mul_le_mono_r (S i) i' C ltac:(lia)) as Hle.
    cbn in Hle. lia.
  - pose proof (Nat.mul_le_mono_r (S i') i C ltac:(lia)) as Hle.
    cbn in Hle. lia.
Qed.

(** The second pair of loops prints the pixels in row-major order. *)
Lemma display_print_lines repr img R C t maxsize s h out :
  image_buffer h img R C t → heap s = h → stdout s = out →
  ∃ lines, length lines = R * C
    ∧ (∀ i j c, i < R → j < C → pixel_at h img i j = Some c →
         lines !! (i * C + j) = Some (display_line repr maxsize R C i j c))
    ∧ for_range R (λ pos1,
      row <~ list_get img pos1 ;;
      for_range C (λ pos2,
        pixel <~ list_get row pos2 ;;
        middle <~ py_repr repr pixel ;;
        let padding := (maxsize - strlen middle)%Z in
        let prefix :=
          if (pos1 =? 0) && (pos2 =? 0) then "[  [  "%string
          else if (pos2 =? 0) then "   [  "%string
          else "      "%string in
        let suffix :=
          if (Z.of_nat pos1 =? Z.of_nat R - 1)%Z
             && (Z.of_nat pos2 =? Z.of_nat C - 1)%Z
          then spaces padding +:+ " ]  ]"%string
          else if (Z.of_nat pos2 =? Z.of_nat C - 1)%Z
          then spaces padding +:+ " ],"%string
          else ","%string in
        print (prefix +:+ middle +:+ suffix))) s
    = Ok tt (mkState h (out ++ lines)).
Proof.
  intros Hbuf Hs Hout. pose proof Hbuf as [Ht Hrect HR HC Hpx].
  apply table_at_Some in Ht as (rows & Hrows & Hall).
  pose proof Hbuf as [Ht _ _ _ _].
  rewrite Forall_forall in Hpx.
  pose proof (Forall2_length _ _ _ Hall) as Hlen.
  set (good := λ (n : nat) (lines : list string),
    length lines = n
    ∧ ∀ i j c, j < C → i * C + j < n → pixel_at h img i j = Some c →
        lines !! (i * C + j) = Some (display_line repr maxsize R C i j c)).
  edestruct (for_range_inv
    (λ i s1, ∃ lines, good (i * C) lines ∧ s1 = mkState h (out ++ lines)) R)
    as (s' & Hrun & lines & [Hlines Hgood] & ->);
    [| |exists lines; split; [exact Hlines|split; [|exact Hrun]]].
  - exists []. split; [split; [done|intros; lia]|].
    rewrite (right_id_L [] (++)). destruct s. cbn in *. by subst.
  - intros i s1 Hi (lines & Hgood & ->).
    destruct (lookup_lt_is_Some_2 t i) as [xs Hxs]; [destruct Hrect; lia|].
    destruct (Forall2_lookup_r _ _ _ _ _ Hall Hxs) as (r & Hr & Hget).
    cbn beta in Hget.
    erewrite bind_Ok; [|by eapply list_get_Ok].
    edestruct (for_range_inv
      (λ j s2, ∃ lines', good (i * C + j) lines'
                 ∧ s2 = mkState h (out ++ lines')) C)
      as (s2 & Hrun2 & lines2 & Hgood2 & ->);
      [| |exists (mkState h (out ++ lines2)); split; [exact Hrun2|]].
    + exists lines. split; [|done]. by rewrite Nat.add_0_r.
    + intros j s2 Hj (lines' & [Hlines' Hgood'] & ->).
      destruct (lookup_lt_is_Some_2 xs j) as [p Hp];
        [by rewrite (rect_row _ _ _ _ _ Hrect Hxs)|].
      destruct (Hpx p) as [c Hc].
      { apply elem_of_concat. exists xs.
        split; by eapply list_elem_of_lookup_2. }
      erewrite bind_Ok; [|by eapply list_get_Ok].
      erewrite bind_Ok; [|by eapply py_repr_Ok].
      eexists. split; [cbv zeta; unfold print; reflexivity|].
      cbn [heap stdout].
      exists (lines' ++ [display_line repr maxsize R C i j c]).
      split; [|by rewrite <- (assoc_L (++))].
      split; [rewrite length_app; cbn; lia|].
      intros i' j' c' Hj' Hlt Hc'.
      destruct (decide (i' * C + j' < i * C + j)) as [Hold|Hnew].
      * rewrite lookup_app_l by lia. by apply Hgood'.
      * assert (Heq : i' * C + j' = i * C + j) by lia.
        destruct (row_major_index C i j i' j' Hj Hj' Heq) as [-> ->].
        rewrite lookup_app_r by lia.
        replace (i * C + j - length lines') with 0 by lia. cbn.
        assert (Hcell : cell t i j = Some p)
          by (unfold cell; rewrite Hxs; exact Hp).
        rewrite (pixel_at_cell _ _ _ _ _ _ Ht Hcell), Hc in Hc'.
        by injection Hc' as <-.
    + exists lines2. split; [|done].
      replace (S i * C) with (i * C + C) by lia. done.
  - intros i j c Hi Hj Hc. apply Hgood; [done|nia|done].
Qed.

(** X21.  On a non-empty rectangular image buffer [display] prints an
    empty line and then one line per pixel in row-major order: line
    [i * C + j] is the six-character prefix, [repr] of the pixel at row
    [i], column [j], and the suffix.  No [repr] is longer than the pad
    width, so the lines that end a row all have the same length up to the
    closing bracket: [6 + maxsize + 3], and [6 + maxsize + 5] for the
    last. *)
Theorem display_prints_the_table repr img R C t s :
  image_buffer (heap s) img R C t →
  ∃ maxsize lines,
    display repr img s
    = Ok VNone (mkState (heap s) (stdout s ++ ""%string :: lines))
    ∧ length lines = R * C
    ∧ ∀ i j, i < R → j < C →
        ∃ c, pixel_at (heap s) img i j = Some c
          ∧ lines !! (i * C + j)
            = Some (display_line repr maxsize R C i j c)
          ∧ (strlen (repr c) ≤ maxsize)%Z
          ∧ (j = C - 1 →
             strlen (display_line repr maxsize R C i j c)
             = (6 + maxsize
                + if (Z.of_nat i =? Z.of_nat R - 1)%Z then 5 else 3)%Z).
Proof.
  intros Hbuf.
  destruct (image_buffer_first_row _ _ _ _ _ Hbuf)
    as (rows & r0 & xs0 & Hrows & HlenR & Hr0 & Hxs0 & HlenC).
  set (maxsize := widest repr (pixel_values (heap s) t) 0).
  destruct (display_print_lines repr img R C t maxsize
    (mkState (heap s) (stdout s ++ [""%string])) (heap s)
    (stdout s ++ [""%string]) Hbuf eq_refl eq_refl)
    as (lines & Hlines & Hline & Hrun).
  exists maxsize, lines. split; [|split; [done|]].
  - unfold display.
    rewrite (bind_Ok _ _ _ _ _ (py_len_Ok _ _ _ Hrows)), HlenR.
    rewrite (bind_Ok _ _ _ _ _ (list_get_Ok _ _ _ _ _ Hrows Hr0)).
    rewrite (bind_Ok _ _ _ _ _ (py_len_Ok _ _ _ Hxs0)), HlenC.
    rewrite (bind_Ok _ _ _ _ _ (list_items_Ok _ _ _ Hrows)).
    rewrite (bind_Ok _ _ _ _ _
               (display_maxsize_value repr _ _ _ _ _ _ Hbuf Hrows)).
    fold maxsize. unfold bind at 1. cbn [print].
    rewrite (bind_Ok _ _ _ _ _ Hrun). unfold ret.
    by rewrite <- (assoc_L (++)).
  - intros i j Hi Hj. pose proof Hbuf as [Ht Hrect _ HC Hpx].
    destruct (cell_is_Some _ _ _ _ _ Hrect Hi Hj) as [p Hp].
    pose proof (cell_elem_of_concat _ _ _ _ Hp) as Hin.
    rewrite Forall_forall in Hpx. destruct (Hpx p Hin) as [c Hc].
    assert (Hpix : pixel_at (heap s) img i j = Some c)
      by (by rewrite (pixel_at_cell _ _ _ _ _ _ Ht Hp)).
    assert (Hle : (strlen (repr c) ≤ maxsize)%Z).
    { apply widest_ge. unfold pixel_values.
      apply list_elem_of_omap. by exists p. }
    exists c. split; [done|]. split; [by apply Hline|]. split; [done|].
    intros Hlast. by apply display_line_width.
Qed.

Lemma display_prints_the_table_witness :
  image_buffer (heap demo_state) 1%positive 2 3 demo_table
  ∧ ∃ maxsize lines,
      display (λ _, "RGB"%string) 1%positive demo_state
      = Ok VNone (mkState (heap demo_state)
                    (stdout demo_state ++ ""%string :: lines))
      ∧ length lines = 2 * 3
      ∧ ∀ i j, i < 2 → j < 3 →
          ∃ c, pixel_at (heap demo_state) 1%positive i j = Some c
            ∧ lines !! (i * 3 + j)
              = Some (display_line (λ _, "RGB"%string) maxsize 2 3 i j c)
            ∧ (strlen ((λ _, "RGB"%string) c) ≤ maxsize)%Z
            ∧ (j = 3 - 1 →
               strlen (display_line (λ _, "RGB"%string) maxsize 2 3 i j c)
               = (6 + maxsize
                  + if (Z.of_nat i =? Z.of_nat 2 - 1)%Z then 5 else 3)%Z).
Proof.
  split; [exact demo_image|].
  exact (display_prints_the_table (λ _, "RGB"%string) 1%positive 2 3
           demo_table demo_state demo_image).
Defined.
